(** * pageindex-js: tree indexing, field filtering and stream decoding

    A shallow embedding of [src/utils.ts] ([removeFields], [getAllNodes],
    [createNodeMapping]) and of the two stream decoders of the client class
    ([streamText], [streamRaw]), with the properties stated about them.

    Conventions of the embedding.
    - A JavaScript string is the list of its UTF-16 code units ([list Z]);
      [.length] is [length], [slice(0, n)] is [take n], [slice(6)] is
      [drop 6].  A byte chunk ([Uint8Array]) is the list of its bytes.
    - A JavaScript object used as a dictionary ([Record<string, _>]) is a
      [gmap] from strings, its own properties, together with its prototype.
    - A JavaScript object that is enumerated ([Object.entries]) is the list of
      its entries in enumeration order, together with its prototype.
    - Objects hold data: every property is a writable data property, and
      the only setter an assignment can reach is the one [Object.prototype]
      defines for [__proto__].
    - A number of a JSON text is kept as the exact value of its literal; the
      only thing the code asks of a number is whether it is truthy.
    - An async generator is described by its complete run: the values it
      yields when the consumer asks until the end, how it ends, and what is
      left unread in the reader. *)

From Stdlib Require Import ZArith List Lia String Ascii Sorted.
From stdpp Require Import gmap list.

Local Open Scope Z_scope.
Set Warnings "-register-all".

(** ** JavaScript values *)

(** Literals: the code units of an ASCII string. *)
Definition js (s : string) : list Z :=
  List.map (fun a => Z.of_nat (nat_of_ascii a)) (list_ascii_of_string s).

(** A number read from a JSON text, kept as the exact decimal value of its
    literal, [(-1)^num_neg * num_mant * 10^num_exp]; the binary64 value the
    engine stores is the rounding of that value. *)
Record JSNum := mkNum { num_neg : bool; num_mant : N; num_exp : Z }.

(** An object is its prototype and its own properties in enumeration
    order.  The prototype [None] is [Object.prototype], the prototype of
    every object that [{}], [JSON.parse] or [structuredClone] creates;
    [Some JNull] is no prototype at all, and [Some v] is the object or
    array [v]. *)
Inductive JValue :=
| JUndefined
| JNull
| JBool (b : bool)
| JNumber (n : JSNum)
| JString (s : list Z)
| JArray (items : list JValue)
| JObject (proto : option JValue) (entries : list (list Z * JValue)).

(** The one property name that [Object.prototype] defines with a setter:
    an assignment [o[k] = v] to it stores nothing in [o] as long as that
    setter is what the name leads to. *)
Definition proto_key : list Z := js "__proto__".

(** ** types.ts *)

(** A node is a data object, as [JSON.parse] returns it: its prototype is
    [Object.prototype], and [extra] lists the properties it has besides the
    four that the interface names. *)
Inductive TreeNode := mkTreeNode {
  node_id : option (list Z);
  page_index : option Z;
  text : option (list Z);
  nodes : option (list TreeNode);
  extra : list (list Z * JValue)
}.

Record PageRangeInfo := mkPageRangeInfo {
  node : TreeNode;
  start_index : option Z;
  end_index : option Z
}.

(** An object made by [{}] and filled by assignment, as [Record<string, V>]
    is in [createNodeMapping]: its own properties, and its prototype, [None]
    being [Object.prototype]. *)
Record Dict (V : Type) := mkDict {
  own : gmap (list Z) V;
  prototype : option V
}.

Arguments mkDict {V} _ _.
Arguments own {V} _.
Arguments prototype {V} _.

Inductive NodeMapping :=
| PlainMapping (m : Dict TreeNode)
| RangeMapping (m : Dict PageRangeInfo).

(** The argument of [createNodeMapping] and [getAllNodes]:
    [TreeNode | TreeNode[]]. *)
Inductive TreeInput :=
| Single (t : TreeNode)
| Many (ts : list TreeNode).

(** ** utils.ts: getAllNodes *)

(** [tree.nodes ?? []] *)
Definition children (t : TreeNode) : list TreeNode :=
  match nodes t with Some l => l | None => [] end.

(** The branch of [getAllNodes] for a single node:
    [[tree, ...nodes.flatMap(getAllNodes)]]. *)
Fixpoint getAllNodes1 (tree : TreeNode) : list TreeNode :=
  match tree with
  | mkTreeNode _ _ _ ns _ =>
      tree :: match ns with
              | Some l => flat_map getAllNodes1 l
              | None => []
              end
  end.

Definition getAllNodes (tree : TreeInput) : list TreeNode :=
  match tree with
  | Many ts => flat_map getAllNodes1 ts
  | Single t => getAllNodes1 t
  end.

(** ** utils.ts: createNodeMapping *)

(** The test [if (node.node_id)]: an absent id and the empty string are
    falsy. *)
Definition truthy_id (id : option (list Z)) : bool :=
  match id with
  | Some (_ :: _) => true
  | _ => false
  end.

(** [map[k] = v] for an object [v].  Any key but [__proto__] becomes or
    stays an own property of [map].  The key [__proto__] is looked up
    along the prototype chain: an own property of [map] is overwritten;
    failing that, a prototype of [map] that has an own property of that name
    ([carries] tells it) makes the assignment create one on [map];
    failing that, the name is found on [Object.prototype], as a setter, which
    makes [v] the prototype of [map] and stores no property. *)
Definition assign {V : Type} (carries : V → bool) (map : Dict V)
    (k : list Z) (v : V) : Dict V :=
  if bool_decide (k = proto_key) then
    match own map !! k, prototype map with
    | Some _, _ => mkDict (<[k := v]> (own map)) (prototype map)
    | None, Some p =>
        if carries p then mkDict (<[k := v]> (own map)) (prototype map)
        else mkDict (own map) (Some v)
    | None, None => mkDict (own map) (Some v)
    end
  else mkDict (<[k := v]> (own map)) (prototype map).

(** A node has an own property [__proto__] when it was given one as a
    further field, as [JSON.parse] does for a member of that name. *)
Definition has_proto_field (n : TreeNode) : bool :=
  bool_decide (proto_key ∈ (extra n).*1).

(** One turn of [for (const node of allNodes)] in the plain branch. *)
Definition plain_step (map : Dict TreeNode) (node : TreeNode)
  : Dict TreeNode :=
  match node_id node with
  | Some k =>
      if truthy_id (Some k) then assign has_proto_field map k node else map
  | None => map
  end.

(** One turn of [for (let i = 0; i < allNodes.length; i++)] in the
    page-range branch.  The object [{ node, start_index, end_index }] has
    no property [__proto__]. *)
Definition range_step (allNodes : list TreeNode) (maxPage : option Z)
    (map : Dict PageRangeInfo) (i : nat)
  : Dict PageRangeInfo :=
  match allNodes !! i with
  | None => map
  | Some node =>
      match node_id node with
      | Some k =>
          if truthy_id (Some k) then
            let start := page_index node in
            let end_ :=
              if decide (i + 1 < length allNodes)%nat
              then match allNodes !! (i + 1)%nat with
                   | Some next => page_index next
                   | None => None
                   end
              else maxPage in
            assign (fun _ => false) map k (mkPageRangeInfo node start end_)
          else map
      | None => map
      end
  end.

Definition createNodeMapping (tree : TreeInput) (includePageRanges : bool)
    (maxPage : option Z) : NodeMapping :=
  let allNodes := getAllNodes tree in
  if negb includePageRanges then
    PlainMapping (fold_left plain_step allNodes (mkDict ∅ None))
  else
    RangeMapping
      (fold_left (range_step allNodes maxPage) (seq 0 (length allNodes))
         (mkDict ∅ None)).

(** The entries of the two results, each at its own type: the own
    properties of the object returned. *)
Definition flattenToMap (tree : TreeInput) : gmap (list Z) TreeNode :=
  match createNodeMapping tree false None with
  | PlainMapping m => own m
  | RangeMapping _ => ∅
  end.

Definition flattenToPageRanges (tree : TreeInput) (maxPage : option Z)
  : gmap (list Z) PageRangeInfo :=
  match createNodeMapping tree true maxPage with
  | RangeMapping m => own m
  | PlainMapping _ => ∅
  end.

(** And the prototype of the object returned. *)
Definition plain_prototype (tree : TreeInput) : option TreeNode :=
  match createNodeMapping tree false None with
  | PlainMapping m => prototype m
  | RangeMapping _ => None
  end.

Definition range_prototype (tree : TreeInput) (maxPage : option Z)
  : option PageRangeInfo :=
  match createNodeMapping tree true maxPage with
  | RangeMapping m => prototype m
  | PlainMapping _ => None
  end.

(** ** utils.ts: removeFields *)

(** [fields.includes(k)] *)
Definition includes (fields : list (list Z)) (k : list Z) : bool :=
  bool_decide (k ∈ fields).

(** [out[k] = v] on the object [out] that [removeFields] fills.  The keys
    that [Object.entries] lists are distinct, so [out] has no property [k]
    yet, and nothing but this one assignment changes its prototype.  Any
    key but [__proto__] becomes a new own property, the last of [out].
    The key [__proto__] is found on [Object.prototype], as a setter: it
    makes [v] the prototype of [out] when [v] is an object, an array or
    [null], does nothing for any other [v], and adds no property in either
    case. *)
Definition set_property (out : JValue) (k : list Z) (v : JValue) : JValue :=
  match out with
  | JObject p es =>
      if bool_decide (k = proto_key) then
        match v with
        | JNull | JArray _ | JObject _ _ => JObject (Some v) es
        | _ => out
        end
      else JObject p (es ++ [(k, v)])
  | _ => out
  end.

(** [maxLen] is the truncation length, a natural number; an omitted argument
    is [None].  An object is traversed through [Object.entries], which
    lists its own properties and leaves its prototype aside; the inner loop
    lists the assignments [out[k] = removeFields(v, fields, maxLen)] in the
    order the code makes them, and they are made on [out = {}]. *)
Fixpoint removeFields (data : JValue) (fields : list (list Z))
    (maxLen : option nat) : JValue :=
  match data with
  | JArray items =>
      JArray (List.map (fun item => removeFields item fields maxLen) items)
  | JObject _ entries =>
      fold_left (fun out e => set_property out e.1 e.2)
        ((fix loop (es : list (list Z * JValue)) : list (list Z * JValue) :=
            match es with
            | [] => []
            | (k, v) :: rest =>
                if negb (includes fields k)
                then (k, removeFields v fields maxLen) :: loop rest
                else loop rest
            end) entries)
        (JObject None [])
  | JString s =>
      match maxLen with
      | Some n =>
          if (n <? length s)%nat
          then JString (take n s ++ js "...")
          else data
      | None => data
      end
  | _ => data
  end.

(** The default of the second parameter, [fields = ["text"]]. *)
Definition removeFields_default (data : JValue) : JValue :=
  removeFields data [js "text"] None.

(** ** The platform functions the code calls *)

(** *** structuredClone

    [structuredClone(value)] on a nested value: the same scalars, arrays
    and own properties, [__proto__] included when it is one, in objects
    that all have the prototype [Object.prototype]. *)
Fixpoint structuredClone (value : JValue) : JValue :=
  match value with
  | JArray items => JArray (List.map structuredClone items)
  | JObject _ entries =>
      JObject None
        ((fix clone (es : list (list Z * JValue)) : list (list Z * JValue) :=
            match es with
            | [] => []
            | (k, v) :: rest => (k, structuredClone v) :: clone rest
            end) entries)
  | _ => value
  end.


(** *** TextDecoder (UTF-8, replacement error mode, byte-order mark removed)

    The decoder of the Encoding standard: [utf8_handler] is one run of the
    "UTF-8 decoder" handler on a byte, [utf8_run] feeds the bytes followed by
    end-of-queue. *)
Record Utf8State := mkUtf8 {
  code_point : Z;
  bytes_seen : Z;
  bytes_needed : Z;
  lower_boundary : Z;
  upper_boundary : Z
}.

Definition utf8_init : Utf8State := mkUtf8 0 0 0 0x80 0xBF.

Definition in_range (lo hi b : Z) : bool := (lo <=? b) && (b <=? hi).

(** The handler when no byte is pending (step 3). *)
Definition utf8_lead (b : Z) : Utf8State * list Z :=
  if in_range 0x00 0x7F b then (utf8_init, [b])
  else if in_range 0xC2 0xDF b then
    (mkUtf8 (Z.land b 0x1F) 0 1 0x80 0xBF, [])
  else if in_range 0xE0 0xEF b then
    (mkUtf8 (Z.land b 0xF) 0 2
       (if b =? 0xE0 then 0xA0 else 0x80)
       (if b =? 0xED then 0x9F else 0xBF), [])
  else if in_range 0xF0 0xF4 b then
    (mkUtf8 (Z.land b 0x7) 0 3
       (if b =? 0xF0 then 0x90 else 0x80)
       (if b =? 0xF4 then 0x8F else 0xBF), [])
  else (utf8_init, [0xFFFD]).

Definition utf8_handler (st : Utf8State) (b : Z) : Utf8State * list Z :=
  if bytes_needed st =? 0 then utf8_lead b
  else if negb (in_range (lower_boundary st) (upper_boundary st) b) then
    (* error, and the byte is put back and read again from the reset state *)
    let '(st', out) := utf8_lead b in (st', 0xFFFD :: out)
  else
    let cp := Z.lor (Z.shiftl (code_point st) 6) (Z.land b 0x3F) in
    let seen := bytes_seen st + 1 in
    if seen =? bytes_needed st then (utf8_init, [cp])
    else (mkUtf8 cp seen (bytes_needed st) 0x80 0xBF, []).

Fixpoint utf8_run (st : Utf8State) (bytes : list Z) : list Z :=
  match bytes with
  | [] => if bytes_needed st =? 0 then [] else [0xFFFD]
  | b :: rest =>
      let '(st', out) := utf8_handler st b in
      out ++ utf8_run st' rest
  end.

(** A scalar value as UTF-16 code units. *)
Definition utf16_units (c : Z) : list Z :=
  if c <? 0x10000 then [c]
  else [0xD800 + Z.shiftr (c - 0x10000) 10;
        0xDC00 + Z.land (c - 0x10000) 0x3FF].

(** Serialising the decoded queue drops a leading U+FEFF. *)
Definition strip_bom (scalars : list Z) : list Z :=
  match scalars with
  | c :: rest => if c =? 0xFEFF then rest else scalars
  | [] => []
  end.

(** [decoder.decode(value)], without [{stream: true}]: every call starts
    from a fresh decoder and flushes at the end of [value]. *)
Definition TextDecoder_decode (value : list Z) : list Z :=
  flat_map utf16_units (strip_bom (utf8_run utf8_init value)).

(** *** String methods *)

(** [text.split("\n")] *)
Fixpoint split_lines (text : list Z) : list (list Z) :=
  match text with
  | [] => [[]]
  | c :: rest =>
      if c =? 0x0A then [] :: split_lines rest
      else match split_lines rest with
           | l :: ls => (c :: l) :: ls
           | [] => [[c]]
           end
  end.

(** [line.startsWith(prefix)] *)
Fixpoint startsWith (line prefix : list Z) : bool :=
  match prefix, line with
  | [], _ => true
  | p :: prefix', c :: line' => (c =? p) && startsWith line' prefix'
  | _ :: _, [] => false
  end.

(** WhiteSpace and LineTerminator code units, the ones [trim] removes. *)
Definition is_trim_space (c : Z) : bool :=
  in_range 0x09 0x0D c || (c =? 0x20) || (c =? 0xA0) || (c =? 0x1680)
  || in_range 0x2000 0x200A c || (c =? 0x2028) || (c =? 0x2029)
  || (c =? 0x202F) || (c =? 0x205F) || (c =? 0x3000) || (c =? 0xFEFF).

Fixpoint trimStart (s : list Z) : list Z :=
  match s with
  | c :: rest => if is_trim_space c then trimStart rest else s
  | [] => []
  end.

Definition trim (s : list Z) : list Z :=
  rev (trimStart (rev (trimStart s))).

(** *** JSON.parse

    The JSON grammar of ECMA-404 on code units.  [None] is a [SyntaxError]. *)

Definition is_json_ws (c : Z) : bool :=
  (c =? 0x20) || (c =? 0x09) || (c =? 0x0A) || (c =? 0x0D).

Fixpoint skip_ws (s : list Z) : list Z :=
  match s with
  | c :: rest => if is_json_ws c then skip_ws rest else s
  | [] => []
  end.

Definition is_digit (c : Z) : bool := in_range 0x30 0x39 c.

Fixpoint span_digits (s : list Z) : list Z * list Z :=
  match s with
  | c :: rest =>
      if is_digit c
      then let '(ds, s') := span_digits rest in (c :: ds, s')
      else ([], s)
  | [] => ([], [])
  end.

Definition digits_value (ds : list Z) : N :=
  fold_left (fun acc d => (10 * acc + Z.to_N (d - 0x30))%N) ds 0%N.

Definition hex_digit (c : Z) : option Z :=
  if in_range 0x30 0x39 c then Some (c - 0x30)
  else if in_range 0x41 0x46 c then Some (c - 0x41 + 10)
  else if in_range 0x61 0x66 c then Some (c - 0x61 + 10)
  else None.

Definition hex4 (a b c d : Z) : option Z :=
  match hex_digit a, hex_digit b, hex_digit c, hex_digit d with
  | Some x, Some y, Some z, Some w => Some (((x * 16 + y) * 16 + z) * 16 + w)
  | _, _, _, _ => None
  end.

(** The character after a backslash, the [u] escape apart. *)
Definition escape_char (e : Z) : option Z :=
  if e =? 0x22 then Some 0x22            (* quotation mark *)
  else if e =? 0x5C then Some 0x5C       (* reverse solidus *)
  else if e =? 0x2F then Some 0x2F       (* solidus *)
  else if e =? 0x62 then Some 0x08       (* b: backspace *)
  else if e =? 0x66 then Some 0x0C       (* f: form feed *)
  else if e =? 0x6E then Some 0x0A       (* n: line feed *)
  else if e =? 0x72 then Some 0x0D       (* r: carriage return *)
  else if e =? 0x74 then Some 0x09       (* t: tab *)
  else None.

Definition cons_char (c : Z) (r : option (list Z * list Z))
  : option (list Z * list Z) :=
  match r with
  | Some (str, rest) => Some (c :: str, rest)
  | None => None
  end.

(** A string, read from just after its opening quote. *)
Fixpoint parse_string_body (s : list Z) : option (list Z * list Z) :=
  match s with
  | [] => None
  | c :: r =>
      if c =? 0x22 then Some ([], r)
      else if c =? 0x5C then
        match r with
        | [] => None
        | e :: r' =>
            if e =? 0x75 then
              match r' with
              | h1 :: h2 :: h3 :: h4 :: r'' =>
                  match hex4 h1 h2 h3 h4 with
                  | Some u => cons_char u (parse_string_body r'')
                  | None => None
                  end
              | _ => None
              end
            else
              match escape_char e with
              | Some u => cons_char u (parse_string_body r')
              | None => None
              end
        end
      else if c <? 0x20 then None
      else cons_char c (parse_string_body r)
  end.

(** [-? int frac? exp?] *)
Definition parse_number (s : list Z) : option (JSNum * list Z) :=
  let '(neg, s1) :=
    match s with
    | c :: r => if c =? 0x2D then (true, r) else (false, s)
    | [] => (false, s)
    end in
  match s1 with
  | [] => None
  | c :: r =>
      if negb (is_digit c) then None
      else
        let '(ints, s2) := if c =? 0x30 then ([c], r) else span_digits s1 in
        let frac :=
          match s2 with
          | d :: r2 =>
              if d =? 0x2E then
                let '(fs, s3) := span_digits r2 in
                match fs with [] => None | _ :: _ => Some (fs, s3) end
              else Some ([], s2)
          | [] => Some ([], s2)
          end in
        match frac with
        | None => None
        | Some (fs, s3) =>
            let mant := digits_value (ints ++ fs) in
            let scale := Z.of_nat (length fs) in
            match s3 with
            | e :: r3 =>
                if (e =? 0x65) || (e =? 0x45) then
                  let '(eneg, r4) :=
                    match r3 with
                    | sg :: r3' =>
                        if sg =? 0x2B then (false, r3')
                        else if sg =? 0x2D then (true, r3')
                        else (false, r3)
                    | [] => (false, r3)
                    end in
                  let '(es, s5) := span_digits r4 in
                  match es with
                  | [] => None
                  | _ :: _ =>
                      let ev := Z.of_N (digits_value es) in
                      Some (mkNum neg mant
                              ((if eneg then - ev else ev) - scale), s5)
                  end
                else Some (mkNum neg mant (- scale), s3)
            | [] => Some (mkNum neg mant (- scale), s3)
            end
        end
  end.

(** Property order of an ordinary object: array-index keys in ascending
    order first, then the other keys in creation order; writing to an
    existing key keeps its place. *)
Definition array_index (k : list Z) : option N :=
  match k with
  | [] => None
  | c :: r =>
      if forallb is_digit k
         && (negb (c =? 0x30) || bool_decide (r = []))
         && (length k <=? 10)%nat
         && (digits_value k <=? 4294967294)%N
      then Some (digits_value k)
      else None
  end.

Fixpoint obj_replace (es : list (list Z * JValue)) (k : list Z) (v : JValue)
  : option (list (list Z * JValue)) :=
  match es with
  | [] => None
  | (k', v') :: rest =>
      if bool_decide (k' = k) then Some ((k, v) :: rest)
      else match obj_replace rest k v with
           | Some rest' => Some ((k', v') :: rest')
           | None => None
           end
  end.

Fixpoint obj_insert_index (es : list (list Z * JValue)) (k : list Z) (i : N)
    (v : JValue) : list (list Z * JValue) :=
  match es with
  | [] => [(k, v)]
  | (k', v') :: rest =>
      match array_index k' with
      | Some j =>
          if (j <? i)%N then (k', v') :: obj_insert_index rest k i v
          else (k, v) :: es
      | None => (k, v) :: es
      end
  end.

Definition obj_set (es : list (list Z * JValue)) (k : list Z) (v : JValue)
  : list (list Z * JValue) :=
  match obj_replace es k v with
  | Some es' => es'
  | None =>
      match array_index k with
      | Some i => obj_insert_index es k i v
      | None => es ++ [(k, v)]
      end
  end.

(** [expect_word w v s]: the literal [w] at the head of [s] reads as [v]. *)
Definition expect_word (w : list Z) (v : JValue) (s : list Z)
  : option (JValue * list Z) :=
  if startsWith s w then Some (v, drop (length w) s) else None.

(** Every call reads at least one code unit before calling again, so a
    fuel of twice the length of the text is never exhausted (lemma
    [JSON_parse_fuel]). *)
Fixpoint parse_value (fuel : nat) (s : list Z) {struct fuel}
  : option (JValue * list Z) :=
  match fuel with
  | O => None
  | S fuel' =>
      match s with
      | [] => None
      | c :: r =>
          if c =? 0x22 then
            match parse_string_body r with
            | Some (str, rest) => Some (JString str, rest)
            | None => None
            end
          else if c =? 0x5B then
            match skip_ws r with
            | c' :: r' =>
                if c' =? 0x5D then Some (JArray [], r')
                else
                  match parse_elements fuel' (skip_ws r) [] with
                  | Some (items, rest) => Some (JArray items, rest)
                  | None => None
                  end
            | [] => None
            end
          else if c =? 0x7B then
            match skip_ws r with
            | c' :: r' =>
                if c' =? 0x7D then Some (JObject None [], r')
                else
                  match parse_members fuel' (skip_ws r) [] with
                  | Some (es, rest) => Some (JObject None es, rest)
                  | None => None
                  end
            | [] => None
            end
          else if c =? 0x74 then expect_word (js "true") (JBool true) s
          else if c =? 0x66 then expect_word (js "false") (JBool false) s
          else if c =? 0x6E then expect_word (js "null") JNull s
          else
            match parse_number s with
            | Some (n, rest) => Some (JNumber n, rest)
            | None => None
            end
      end
  end

with parse_elements (fuel : nat) (s : list Z) (acc : list JValue)
    {struct fuel} : option (list JValue * list Z) :=
  match fuel with
  | O => None
  | S fuel' =>
      match parse_value fuel' s with
      | None => None
      | Some (v, rest) =>
          match skip_ws rest with
          | c :: r =>
              if c =? 0x2C then parse_elements fuel' (skip_ws r) (acc ++ [v])
              else if c =? 0x5D then Some (acc ++ [v], r)
              else None
          | [] => None
          end
      end
  end

with parse_members (fuel : nat) (s : list Z) (acc : list (list Z * JValue))
    {struct fuel} : option (list (list Z * JValue) * list Z) :=
  match fuel with
  | O => None
  | S fuel' =>
      match s with
      | [] => None
      | q :: r =>
          if negb (q =? 0x22) then None
          else
            match parse_string_body r with
            | None => None
            | Some (k, rest) =>
                match skip_ws rest with
                | [] => None
                | colon :: r1 =>
                    if negb (colon =? 0x3A) then None
                    else
                      match parse_value fuel' (skip_ws r1) with
                      | None => None
                      | Some (v, rest') =>
                          match skip_ws rest' with
                          | c :: r2 =>
                              if c =? 0x2C
                              then parse_members fuel' (skip_ws r2)
                                     (obj_set acc k v)
                              else if c =? 0x7D
                              then Some (obj_set acc k v, r2)
                              else None
                          | [] => None
                          end
                      end
                end
            end
      end
  end.

Definition JSON_parse (text : list Z) : option JValue :=
  match parse_value (2 * length text + 2) (skip_ws text) with
  | Some (v, rest) =>
      match skip_ws rest with
      | [] => Some v
      | _ :: _ => None
      end
  | None => None
  end.

(** *** Property access and truthiness *)

(** Own property [k] of an object, in its entry list. *)
Fixpoint own_property (es : list (list Z * JValue)) (k : list Z)
  : option JValue :=
  match es with
  | [] => None
  | (k', v) :: rest =>
      if bool_decide (k' = k) then Some v else own_property rest k
  end.

(** The property [name] of a value that is neither [null] nor [undefined],
    for a name that no built-in prototype defines and that is neither an
    array index nor [length] ([choices], [delta], [message], [content]): an
    object gives its own property, or else what its prototype gives; every
    other value gives [undefined]. *)
Fixpoint member (v : JValue) (name : list Z) : JValue :=
  match v with
  | JObject p es =>
      match own_property es name with
      | Some x => x
      | None =>
          match p with
          | Some q => member q name
          | None => JUndefined
          end
      end
  | _ => JUndefined
  end.

(** [v.name] for such a name: reading from [null] or [undefined] throws a
    [TypeError] ([None]). *)
Definition get_member (v : JValue) (name : list Z) : option JValue :=
  match v with
  | JUndefined | JNull => None
  | _ => Some (member v name)
  end.

(** [v[0]] on a value that is neither [null] nor [undefined]. *)
Fixpoint get_index0 (v : JValue) : JValue :=
  match v with
  | JArray (x :: _) => x
  | JString (c :: _) => JString [c]
  | JObject p es =>
      match own_property es (js "0") with
      | Some x => x
      | None =>
          match p with
          | Some q => get_index0 q
          | None => JUndefined
          end
      end
  | _ => JUndefined
  end.

Definition is_nullish (v : JValue) : bool :=
  match v with
  | JUndefined | JNull => true
  | _ => false
  end.

(** [v?.name] *)
Definition opt_member (v : JValue) (name : list Z) : JValue :=
  if is_nullish v then JUndefined
  else match get_member v name with
       | Some x => x
       | None => JUndefined
       end.

(** A number is falsy when its binary64 rounding is zero, that is when its
    magnitude is at most [2^-1075]. *)
Definition num_truthy (n : JSNum) : bool :=
  if 0 <=? num_exp n then negb (num_mant n =? 0)%N
  else 10 ^ (- num_exp n) <? Z.of_N (num_mant n) * 2 ^ 1075.

Definition ToBoolean (v : JValue) : bool :=
  match v with
  | JUndefined | JNull => false
  | JBool b => b
  | JNumber n => num_truthy n
  | JString s => match s with [] => false | _ :: _ => true end
  | JArray _ | JObject _ _ => true
  end.

(** ** The stream decoders of the client class *)

(** What one turn of [for (const line of text.split("\n"))] does. *)
Inductive LineEffect :=
| Skip                 (* nothing yielded, next line *)
| Yield (v : JValue)   (* [yield v], next line *)
| Stop.                (* [return] *)

(** [chunk.choices?.[0]?.delta?.content ?? ""]; [None] when reading
    [chunk.choices] throws. *)
Definition delta_content (chunk : JValue) : option JValue :=
  match get_member chunk (js "choices") with
  | None => None
  | Some choices =>
      let first := if is_nullish choices then JUndefined
                   else get_index0 choices in
      let content := opt_member (opt_member first (js "delta")) (js "content") in
      Some (if is_nullish content then JString [] else content)
  end.

(** The body of the line loop of [streamText]. *)
Definition text_line (line : list Z) : LineEffect :=
  if startsWith line (js "data: ") then
    let data := trim (drop 6 line) in
    if bool_decide (data = js "[DONE]") then Stop
    else
      match JSON_parse data with
      | Some chunk =>
          match delta_content chunk with
          | Some content => if ToBoolean content then Yield content else Skip
          | None => Skip                         (* catch: continue *)
          end
      | None => Skip                             (* catch: continue *)
      end
  else Skip.

(** The body of the line loop of [streamRaw]. *)
Definition raw_line (line : list Z) : LineEffect :=
  if startsWith line (js "data: ") then
    let data := trim (drop 6 line) in
    if bool_decide (data = js "[DONE]") then Stop
    else
      match JSON_parse data with
      | Some chunk => Yield chunk
      | None => Skip                             (* catch: continue *)
      end
  else Skip.

(** The line loop: the values yielded, and whether it left by [return]. *)
Fixpoint run_lines (body : list Z -> LineEffect) (lines : list (list Z))
  : list JValue * bool :=
  match lines with
  | [] => ([], false)
  | line :: rest =>
      match body line with
      | Stop => ([], true)
      | Skip => run_lines body rest
      | Yield v => let '(out, stop) := run_lines body rest in (v :: out, stop)
      end
  end.

(** The reader: the outcomes of the successive [reader.read()] calls that
    deliver something; once they are used up the stream reports [done]. *)
Inductive ReadResult :=
| ReadValue (value : list Z)   (* [{ done: false, value }], bytes *)
| ReadRejected.                (* the promise rejects: transport failure *)

Inductive Completion := Returned | Threw.

(** A generator driven to its end: what it yielded, how it ended, and the
    read outcomes it never asked for. *)
Record Run := mkRun {
  yielded : list JValue;
  completion : Completion;
  unread : list ReadResult
}.

(** [while (true) { read; if (done) break; decode; line loop }], which the
    two decoders share word for word. *)
Fixpoint read_loop (body : list Z -> LineEffect) (reader : list ReadResult)
  : Run :=
  match reader with
  | [] => mkRun [] Returned []
  | ReadRejected :: rest => mkRun [] Threw rest
  | ReadValue value :: rest =>
      let text := TextDecoder_decode value in
      let '(out, stop) := run_lines body (split_lines text) in
      if stop then mkRun out Returned rest
      else
        let r := read_loop body rest in
        mkRun (out ++ yielded r) (completion r) (unread r)
  end.

Definition streamText (reader : list ReadResult) : Run :=
  read_loop text_line reader.

Definition streamRaw (reader : list ReadResult) : Run :=
  read_loop raw_line reader.

(** The bytes of an ASCII text, and a reader delivering the given chunks. *)
Definition bytes (s : string) : list Z := js s.

Definition deliver (chunks : list (list Z)) : list ReadResult :=
  List.map ReadValue chunks.

(** ** Vocabulary of the statements *)

(** *** Positions in a forest *)

(** The ordered list of trees an input stands for. *)
Definition roots (tree : TreeInput) : list TreeNode :=
  match tree with
  | Single t => [t]
  | Many ts => ts
  end.

(** A position is the list of child indices leading from the forest to a
    node: [[i]] is the i-th root, [p ++ [j]] the j-th child of [p]. *)
Fixpoint node_at (forest : list TreeNode) (p : list nat) : option TreeNode :=
  match p with
  | [] => None
  | i :: q =>
      match forest !! i with
      | None => None
      | Some t =>
          match q with
          | [] => Some t
          | _ :: _ => node_at (children t) q
          end
      end
  end.

(** Document order on positions: a node comes before its descendants, and
    the subtree of a child before the subtrees of its later siblings. *)
Fixpoint path_lt (p q : list nat) : Prop :=
  match p, q with
  | [], _ :: _ => True
  | _, [] => False
  | a :: p', b :: q' => (a < b)%nat ∨ (a = b ∧ path_lt p' q')
  end.

(** The positions below a node, each relative to it, in document order. *)
Fixpoint positions1 (t : TreeNode) : list (list nat) :=
  match t with
  | mkTreeNode _ _ _ ns _ =>
      [] :: match ns with
            | Some l =>
                (fix from (i : nat) (l : list TreeNode) : list (list nat) :=
                   match l with
                   | [] => []
                   | c :: r =>
                       List.map (cons i) (positions1 c) ++ from (S i) r
                   end) 0%nat l
            | None => []
            end
  end.

(** The positions of the trees [l], numbered from [i]. *)
Fixpoint positions_from (i : nat) (l : list TreeNode) : list (list nat) :=
  match l with
  | [] => []
  | c :: r => List.map (cons i) (positions1 c) ++ positions_from (S i) r
  end.

Definition positions (forest : list TreeNode) : list (list nat) :=
  positions_from 0 forest.

(** *** Entries of the page-range map *)

(** The entry the loop writes at position [i] of [allNodes]. *)
Definition range_entry (allNodes : list TreeNode) (maxPage : option Z)
    (i : nat) (n : TreeNode) : PageRangeInfo :=
  mkPageRangeInfo n (page_index n)
    (match allNodes !! S i with
     | Some next => page_index next
     | None => maxPage
     end).

(** No node after position [i] carries the id [k]. *)
Definition last_with_id (allNodes : list TreeNode) (i : nat) (k : list Z)
  : Prop :=
  ∀ j m, (i < j)%nat → allNodes !! j = Some m → node_id m ≠ Some k.

(** The ids that pass the test [if (node.node_id)], in traversal order. *)
Definition truthy_ids (allNodes : list TreeNode) : list (list Z) :=
  omap (fun n => if truthy_id (node_id n) then node_id n else None) allNodes.

(** No node of the forest has a field named [__proto__]. *)
Definition no_proto_field (tree : TreeInput) : Prop :=
  Forall (fun n => has_proto_field n = false) (getAllNodes tree).

(** *** An empty id read as an absent one *)

Definition clear_id (id : option (list Z)) : option (list Z) :=
  match id with
  | Some [] => None
  | _ => id
  end.

Fixpoint clear_empty_ids (t : TreeNode) : TreeNode :=
  match t with
  | mkTreeNode id pi tx ns ex =>
      mkTreeNode (clear_id id) pi tx
        (match ns with
         | Some l => Some (List.map clear_empty_ids l)
         | None => None
         end) ex
  end.

Definition clear_input (tree : TreeInput) : TreeInput :=
  match tree with
  | Single t => Single (clear_empty_ids t)
  | Many ts => Many (List.map clear_empty_ids ts)
  end.

Definition clear_entry (e : PageRangeInfo) : PageRangeInfo :=
  mkPageRangeInfo (clear_empty_ids (node e)) (start_index e) (end_index e).

(** A change made to every value a map object holds or has as prototype. *)
Definition dict_map {V W : Type} (f : V → W) (m : Dict V) : Dict W :=
  mkDict (f <$> own m) (f <$> prototype m).

(** *** Places in a nested value *)

Inductive Selector :=
| Index (i : nat)        (* the i-th item of an array *)
| Key (k : list Z).      (* the property [k] of an object *)

Fixpoint select (v : JValue) (path : list Selector) : option JValue :=
  match path with
  | [] => Some v
  | Index i :: rest =>
      match v with
      | JArray items =>
          match items !! i with
          | Some x => select x rest
          | None => None
          end
      | _ => None
      end
  | Key k :: rest =>
      match v with
      | JObject _ es =>
          match own_property es k with
          | Some x => select x rest
          | None => None
          end
      | _ => None
      end
  end.

(** Every key of every object of a nested value, the objects that serve
    as prototypes included: those of the prototype first, then the own keys
    in document order. *)
Fixpoint all_keys (v : JValue) : list (list Z) :=
  match v with
  | JArray items => flat_map all_keys items
  | JObject p es =>
      match p with
      | Some q => all_keys q
      | None => []
      end
      ++ (fix keys (es : list (list Z * JValue)) : list (list Z) :=
            match es with
            | [] => []
            | (k, x) :: rest => k :: all_keys x ++ keys rest
            end) es
  | _ => []
  end.

(** Every string value of a nested value, in the same order. *)
Fixpoint all_strings (v : JValue) : list (list Z) :=
  match v with
  | JString s => [s]
  | JArray items => flat_map all_strings items
  | JObject p es =>
      match p with
      | Some q => all_strings q
      | None => []
      end
      ++ (fix strings (es : list (list Z * JValue)) : list (list Z) :=
            match es with
            | [] => []
            | (_, x) :: rest => all_strings x ++ strings rest
            end) es
  | _ => []
  end.

(** The same, for a list of entries. *)
Fixpoint entries_keys (es : list (list Z * JValue)) : list (list Z) :=
  match es with
  | [] => []
  | (k, x) :: rest => k :: all_keys x ++ entries_keys rest
  end.

Fixpoint entries_strings (es : list (list Z * JValue)) : list (list Z) :=
  match es with
  | [] => []
  | (_, x) :: rest => all_strings x ++ entries_strings rest
  end.

(** A value all of whose objects have the prototype [Object.prototype], as
    have the values that [JSON.parse] and [structuredClone] return. *)
Fixpoint plain (v : JValue) : bool :=
  match v with
  | JArray items => forallb plain items
  | JObject p es =>
      match p with
      | None => true
      | Some _ => false
      end
      && (fix all (es : list (list Z * JValue)) : bool :=
            match es with
            | [] => true
            | (_, x) :: rest => plain x && all rest
            end) es
  | _ => true
  end.

(** The keys a path goes through. *)
Definition path_keys (path : list Selector) : list (list Z) :=
  omap (fun s => match s with Key k => Some k | Index _ => None end) path.


(** *** Chunk boundaries *)

(** All the lines the decoder sees, chunk after chunk. *)
Definition lines_of (chunks : list (list Z)) : list (list Z) :=
  flat_map (fun value => split_lines (TextDecoder_decode value)) chunks.

(** A chunk is empty or ends with a line feed. *)
Definition ends_line (c : list Z) : bool :=
  match last c with
  | Some b => b =? 0x0A
  | None => true
  end.

(** The text of a chunk does not begin with a byte-order mark. *)
Definition no_bom (c : list Z) : bool :=
  match utf8_run utf8_init c with
  | u :: _ => negb (u =? 0xFEFF)
  | [] => true
  end.

(** Every chunk boundary falls just after a line feed, and no chunk after
    the first begins with a byte-order mark. *)
Fixpoint line_aligned (chunks : list (list Z)) : bool :=
  match chunks with
  | [] => true
  | c :: rest =>
      match rest with
      | [] => true
      | _ :: _ => ends_line c && forallb no_bom rest && line_aligned rest
      end
  end.

(** *** Sample forests *)

(** A node without children and without further fields. *)
Definition leaf (id : option (list Z)) (page : option Z) : TreeNode :=
  mkTreeNode id page None None [].

(** [{id:"r", page:1, nodes:[{id:"a", page:1},{id:"b", page:3}]}] *)
Definition sample_tree : TreeNode :=
  mkTreeNode (Some (js "r")) (Some 1) None
    (Some [leaf (Some (js "a")) (Some 1); leaf (Some (js "b")) (Some 3)]) [].

(** A node with an id followed by a node without one. *)
Definition sample_trailing : TreeInput :=
  Many [leaf (Some (js "a")) (Some 1); leaf None (Some 5)].

(** One node whose id is the empty string. *)
Definition sample_empty_id : TreeInput :=
  Single (leaf (Some []) (Some 1)).

(** Two nodes whose id is the empty string. *)
Definition sample_empty_twice : TreeInput :=
  Many [leaf (Some []) (Some 1); leaf (Some []) (Some 2)].

(** The id ["a"] on two nodes, then a node with an empty id. *)
Definition sample_duplicate : TreeInput :=
  Many [leaf (Some (js "a")) (Some 1); leaf (Some (js "a")) (Some 4);
        leaf (Some []) (Some 6)].

(** A node whose id is [__proto__], then a node [a]. *)
Definition sample_proto_id : TreeInput :=
  Many [leaf (Some proto_key) (Some 1); leaf (Some (js "a")) (Some 2)].

(** A node as [JSON.parse] reads
    [{"node_id": "__proto__", "page_index": 1, "__proto__": null}], then a
    second node with the same id. *)
Definition proto_field_node : TreeNode :=
  mkTreeNode (Some proto_key) (Some 1) None None [(proto_key, JNull)].

Definition sample_proto_field : TreeInput :=
  Many [proto_field_node; leaf (Some proto_key) (Some 2)].

(** Two nodes whose id is [__proto__], without further fields. *)
Definition sample_proto_twice : TreeInput :=
  Many [leaf (Some proto_key) (Some 1); leaf (Some proto_key) (Some 2)].

(** *** The statements as the specification words them *)

(** "The end_index of the last-traversed node with a node_id equals P." *)
Definition last_id_ends_at_max (tree : TreeInput) (P : Z) : Prop :=
  ∀ i n k,
    getAllNodes tree !! i = Some n → node_id n = Some k → k ≠ [] →
    (∀ j m, (i < j)%nat → getAllNodes tree !! j = Some m →
            truthy_id (node_id m) = false) →
    ∃ e, flattenToPageRanges tree (Some P) !! k = Some e
         ∧ end_index e = Some P.

(** "The map contains an entry for every node_id present in the forest." *)
Definition entry_for_every_id (tree : TreeInput) : Prop :=
  ∀ k, (∃ n, n ∈ getAllNodes tree ∧ node_id n = Some k) →
       is_Some (flattenToMap tree !! k).

(** "An id carried by several nodes is bound to the latest of them." *)
Definition latest_occurrence_bound (tree : TreeInput) (maxPage : option Z)
  : Prop :=
  ∀ i j ni nj k,
    (i < j)%nat →
    getAllNodes tree !! i = Some ni → node_id ni = Some k →
    getAllNodes tree !! j = Some nj → node_id nj = Some k →
    last_with_id (getAllNodes tree) j k →
    flattenToMap tree !! k = Some nj
    ∧ flattenToPageRanges tree maxPage !! k
      = Some (range_entry (getAllNodes tree) maxPage j nj).


(** *** Helpers of the proofs *)

(** The node a position relative to [t] leads to. *)
Definition below (t : TreeNode) (p : list nat) : option TreeNode :=
  match p with
  | [] => Some t
  | _ :: _ => node_at (children t) p
  end.

(** A plain map in which an assignment to [__proto__] reaches the setter:
    it has no property of that name, and neither has its prototype. *)
Definition setter_reached (m : Dict TreeNode) : Prop :=
  own m !! proto_key = None
  ∧ ∀ p, prototype m = Some p → has_proto_field p = false.

(** The entry loop of [removeFields], on its own. *)
Fixpoint kept_entries (fields : list (list Z)) (maxLen : option nat)
    (es : list (list Z * JValue)) : list (list Z * JValue) :=
  match es with
  | [] => []
  | (k, v) :: rest =>
      if negb (includes fields k)
      then (k, removeFields v fields maxLen) :: kept_entries fields maxLen rest
      else kept_entries fields maxLen rest
  end.

(** What the assignments [ws], made one after the other on an object of
    prototype [p], leave as its prototype: the last value, object, array or
    [null], assigned to [__proto__]. *)
Definition can_be_prototype (v : JValue) : bool :=
  match v with
  | JNull | JArray _ | JObject _ _ => true
  | _ => false
  end.

Fixpoint proto_written (p : option JValue) (ws : list (list Z * JValue))
  : option JValue :=
  match ws with
  | [] => p
  | (k, v) :: rest =>
      proto_written
        (if bool_decide (k = proto_key) && can_be_prototype v
         then Some v else p) rest
  end.

(** And what they add as own properties: all of them but those to
    [__proto__]. *)
Definition own_written (ws : list (list Z * JValue))
  : list (list Z * JValue) :=
  List.filter (fun e => negb (bool_decide (e.1 = proto_key))) ws.

Arguments own_written : simpl never.

(** The same test on a list of entries. *)
Fixpoint plain_entries (es : list (list Z * JValue)) : bool :=
  match es with
  | [] => true
  | (_, x) :: rest => plain x && plain_entries rest
  end.

(** The entries of a clone. *)
Fixpoint cloned_entries (es : list (list Z * JValue))
  : list (list Z * JValue) :=
  match es with
  | [] => []
  | (k, v) :: rest => (k, structuredClone v) :: cloned_entries rest
  end.

(** What [removeFields] makes of a string. *)
Definition truncated (maxLen : nat) (s : list Z) : list Z :=
  if (maxLen <? length s)%nat then take maxLen s ++ js "..." else s.

(** The states the decoder can be in: between characters, or expecting a
    continuation byte. *)
Definition utf8_wf (st : Utf8State) : Prop :=
  bytes_needed st = 0 ∨ 0x80 <= lower_boundary st.

(** The lines that are not empty. *)
Definition nonblank (lines : list (list Z)) : list (list Z) :=
  filter (λ l : list Z, l ≠ []) lines.

(** What a call returns does not depend on the fuel, as soon as the fuel
    is twice the number of code units the call reads. *)
Definition value_fuel_ok (f : nat) : Prop :=
  ∀ s v r, parse_value f s = Some (v, r) →
    (length r < length s)%nat
    ∧ ∀ f', (2 * (length s - length r) ≤ f')%nat →
            parse_value f' s = Some (v, r).

Definition elements_fuel_ok (f : nat) : Prop :=
  ∀ s acc x r, parse_elements f s acc = Some (x, r) →
    (length r < length s)%nat
    ∧ ∀ f', (2 * (length s - length r) ≤ f')%nat →
            parse_elements f' s acc = Some (x, r).

Definition members_fuel_ok (f : nat) : Prop :=
  ∀ s acc x r, parse_members f s acc = Some (x, r) →
    (length r < length s)%nat
    ∧ ∀ f', (2 * (length s - length r) ≤ f')%nat →
            parse_members f' s acc = Some (x, r).

(** *** Sample streams *)

(** A text between quotation marks. *)
Definition quoted (s : string) : list Z := 0x22 :: js s ++ [0x22].

(** The line [data: {"choices":[{"delta":{"content":"A"}}]}]. *)
Definition frame_A : list Z :=
  js "data: {" ++ quoted "choices" ++ js ":[{" ++ quoted "delta" ++ js ":{"
  ++ quoted "content" ++ js ":" ++ quoted "A" ++ js "}}]}".

(** The line [data: {"choices":[{"delta":{"content":"B"}}]}]. *)
Definition frame_B : list Z :=
  js "data: {" ++ quoted "choices" ++ js ":[{" ++ quoted "delta" ++ js ":{"
  ++ quoted "content" ++ js ":" ++ quoted "B" ++ js "}}]}".

Definition frame_done : list Z := js "data: [DONE]".

Definition frame_bad : list Z := js "data: not-json".

(** The value [{"choices":[{"delta":{"content":"A"}}]}]. *)
Definition chunk_A : JValue :=
  JObject None
    [(js "choices",
      JArray [JObject None
                [(js "delta",
                  JObject None [(js "content", JString (js "A"))])]])].

(** The two lines, each ended by a line feed, in one chunk. *)
Definition stream_A_done : list Z := frame_A ++ [0x0A] ++ frame_done ++ [0x0A].

(** The line of [frame_A] and its line feed, whole and cut after 20 bytes. *)
Definition whole_line : list (list Z) := [frame_A ++ [0x0A]].

Definition split_mid_line : list (list Z) :=
  [take 20 frame_A; drop 20 frame_A ++ [0x0A]].

(** The same two lines cut after the first line feed. *)
Definition split_at_line : list (list Z) :=
  [frame_A ++ [0x0A]; frame_B ++ [0x0A]].

(** A malformed line followed by a well-formed one. *)
Definition stream_bad_then_A : list Z := frame_bad ++ [0x0A] ++ frame_A ++ [0x0A].

(** *** A nested value *)

(** [{"title": "Introduction", "text": "body", "nodes": ["abcdef"]}] *)
Definition sample_value : JValue :=
  JObject None
    [(js "title", JString (js "Introduction"));
     (js "text", JString (js "body"));
     (js "nodes", JArray [JString (js "abcdef")])].

(** [{"__proto__": {"title": "Introduction"}}], as [JSON.parse] reads
    it: an object with one property, named [__proto__]. *)
Definition sample_proto_member : JValue :=
  JObject None
    [(proto_key, JObject None [(js "title", JString (js "Introduction"))])].

(** * The rest of the code *)

(** ** utils.ts: printTree *)

(** The value [printTree] hands to [util.inspect]:
    [removeFields(structuredClone(tree), excludeFields, 40)].  The tree is
    the nested value it is at run time. *)
Definition printTree_cleaned (tree : JValue) (excludeFields : list (list Z))
  : JValue :=
  removeFields (structuredClone tree) excludeFields (Some 40%nat).

(** The default [excludeFields = ["text", "page_index"]]. *)
Definition printTree_default (tree : JValue) : JValue :=
  printTree_cleaned tree [js "text"; js "page_index"].

(** ** utils.ts: printWrapped *)

(** The code units that [.] does not match (no [s] flag, no [u] flag). *)
Definition is_line_terminator (c : Z) : bool :=
  (c =? 0x0A) || (c =? 0x0D) || (c =? 0x2028) || (c =? 0x2029).

(** The greedy match of [.{1,w}] at the head of [s], and what follows it;
    an empty match stands for no match. *)
Fixpoint dot_run (w : nat) (s : list Z) : list Z * list Z :=
  match w, s with
  | S w', c :: r =>
      if is_line_terminator c then ([], s)
      else let '(m, rest) := dot_run w' r in (c :: m, rest)
  | _, _ => ([], s)
  end.

(** [line.match(new RegExp(`.{1,${width}}`, "g")) ?? []]: the matches from
    left to right, each sought from the end of the one before, a position
    without a match being passed over.  Every turn reads a code unit, so
    the length of the line is fuel enough. *)
Fixpoint match_all (fuel w : nat) (s : list Z) : list (list Z) :=
  match fuel with
  | O => []
  | S fuel' =>
      match s with
      | [] => []
      | _ :: r =>
          match dot_run w s with
          | ([], _) => match_all fuel' w r
          | (m, rest) => m :: match_all fuel' w rest
          end
      end
  end.

Definition wrap_line (width : nat) (line : list Z) : list (list Z) :=
  match_all (length line) width line.

(** What [printWrapped] writes, one [console.log] after the other.  The
    width is a whole number that the template literal writes as its decimal
    numeral, as it does every whole number below [10^21]; from there on a
    number is written with an exponent, the braces no longer make a
    quantifier, and the pattern is another one, which this definition does
    not describe.  [.{1,0}] is not a pattern and [new RegExp] throws
    ([None]) on the first line, before anything is written. *)
Definition printWrapped (text : list Z) (width : nat)
  : option (list (list Z)) :=
  match width with
  | O => None
  | S _ => Some (flat_map (wrap_line width) (split_lines text))
  end.

(** The widths written as a decimal numeral. *)
Definition written_in_full (width : nat) : Prop := Z.of_nat width < 10 ^ 21.

(** The default [width = 100]. *)
Definition printWrapped_default (text : list Z) : option (list (list Z)) :=
  printWrapped text 100.

(** ** The client class: the name under which a file is sent *)

(** [s.split(sep)] for a separator of one code unit. *)
Fixpoint split_on (sep : Z) (s : list Z) : list (list Z) :=
  match s with
  | [] => [[]]
  | c :: rest =>
      if c =? sep then [] :: split_on sep rest
      else match split_on sep rest with
           | l :: ls => (c :: l) :: ls
           | [] => [[c]]
           end
  end.

(** [filePath.split("/").pop() || "document.pdf"] in [submitDocument]. *)
Definition upload_filename (filePath : list Z) : list Z :=
  match last (split_on 0x2F filePath) with
  | Some (c :: name) => c :: name
  | _ => js "document.pdf"
  end.

(** ** llm.ts: callLLM, once the completion has arrived *)

Inductive LLMResult :=
| LLMText (s : list Z)     (* the promise resolves with this text *)
| LLMEmpty                 (* [Error("LLM returned empty content")] *)
| LLMTypeError.            (* a read from [null], or [trim] on a non-string *)

(** [response.choices?.[0]?.message?.content]; [None] when reading
    [response.choices] throws. *)
Definition message_content (response : JValue) : option JValue :=
  match get_member response (js "choices") with
  | None => None
  | Some choices =>
      let first := if is_nullish choices then JUndefined
                   else get_index0 choices in
      Some (opt_member (opt_member first (js "message")) (js "content"))
  end.

Definition callLLM_result (response : JValue) : LLMResult :=
  match message_content response with
  | None => LLMTypeError
  | Some content =>
      if negb (ToBoolean content) then LLMEmpty
      else match content with
           | JString s => LLMText (trim s)
           | _ => LLMTypeError
           end
  end.

(** A completion carrying [content] as the text of its first choice. *)
Definition completion_with (content : JValue) : JValue :=
  JObject None
    [(js "choices",
      JArray [JObject None
                [(js "message", JObject None [(js "content", content)])]])].

(** ** Vocabulary of the further statements *)

(** What text mode yields for a parsed chunk, if anything. *)
Definition text_of_chunk (chunk : JValue) : option JValue :=
  match delta_content chunk with
  | Some content => if ToBoolean content then Some content else None
  | None => None
  end.


(** The text left when the line terminators are taken out. *)
Definition without_terminators (text : list Z) : list Z :=
  List.filter (fun c => negb (is_line_terminator c)) text.

(** *** More samples *)

(** Three nodes with three different ids. *)
Definition sample_distinct : TreeInput :=
  Many [leaf (Some (js "a")) (Some 1); leaf (Some (js "b")) (Some 2);
        leaf (Some (js "c")) (Some 5)].

(** [data: {"choices":[{"delta":{"content":""}}]}], an empty fragment. *)
Definition frame_empty : list Z :=
  js "data: {" ++ quoted "choices" ++ js ":[{" ++ quoted "delta" ++ js ":{"
  ++ quoted "content" ++ js ":" ++ quoted "" ++ js "}}]}".

(** * Proofs *)

(** On a list written out in full, a statement about the nodes after a
    position is settled position by position. *)
Ltac scan_from j Hm :=
  first
    [ discriminate Hm
    | destruct j as [|j]; simpl in Hm;
      [ first [ lia
              | discriminate Hm
              | injection Hm as <-; first [ discriminate | reflexivity ] ]
      | scan_from j Hm ] ].

Ltac scan_positions :=
  let j := fresh "j" in
  let m := fresh "m" in
  let Hj := fresh "Hj" in
  let Hm := fresh "Hm" in
  intros j m Hj Hm; scan_from j Hm.

(** ** Traversal *)

Lemma TreeNode_children_ind (P : TreeNode → Prop) :
  (∀ t, Forall P (children t) → P t) → ∀ t, P t.
Proof.
  intros step. fix IH 1. intros [id pi tx ns ex].
  apply step. unfold children. simpl.
  destruct ns as [l|]; [|constructor].
  revert l. fix IHl 1. intros [|c l]; constructor.
  - apply IH.
  - apply IHl.
Qed.

Lemma getAllNodes1_unfold t :
  getAllNodes1 t = t :: flat_map getAllNodes1 (children t).
Proof. destruct t as [id pi tx [l|] ex]; reflexivity. Qed.

Lemma positions1_unfold t :
  positions1 t = [] :: positions_from 0 (children t).
Proof.
  destruct t as [id pi tx [l|] ex]; reflexivity.
Qed.

Lemma getAllNodes_roots tree :
  getAllNodes tree = flat_map getAllNodes1 (roots tree).
Proof. destruct tree; simpl; [|reflexivity]. now rewrite app_nil_r. Qed.


Lemma node_at_cons forest i q :
  node_at forest (i :: q) =
  match forest !! i with Some t => below t q | None => None end.
Proof. simpl. destruct (forest !! i); [|reflexivity]. now destruct q. Qed.

Lemma positions_from_head i l p :
  p ∈ positions_from i l → ∃ j q, p = j :: q ∧ (i ≤ j)%nat.
Proof.
  revert i. induction l as [|c l IHl]; intros i; simpl.
  - intros H. inversion H.
  - rewrite elem_of_app. intros [H|H].
    + apply list_elem_of_In, in_map_iff in H as (q & <- & _). eauto.
    + apply IHl in H as (j & q & -> & Hj). exists j, q. split; [done|lia].
Qed.

Lemma positions_from_nodes l :
  Forall (λ c, Forall2 (λ p n, below c p = Some n)
                 (positions1 c) (getAllNodes1 c)) l →
  ∀ pre, Forall2 (λ p n, node_at (pre ++ l) p = Some n)
           (positions_from (length pre) l) (flat_map getAllNodes1 l).
Proof.
  induction 1 as [|c l Hc _ IHl]; intros pre; simpl; [constructor|].
  apply Forall2_app.
  - clear IHl. induction Hc as [|p n ps ns Hp _ IH]; simpl; constructor; [|done].
    rewrite node_at_cons, lookup_app_r, Nat.sub_diag by lia. exact Hp.
  - specialize (IHl (pre ++ [c])).
    rewrite <- app_assoc, length_app in IHl. simpl in IHl.
    now rewrite Nat.add_1_r in IHl.
Qed.

Lemma positions1_nodes t :
  Forall2 (λ p n, below t p = Some n) (positions1 t) (getAllNodes1 t).
Proof.
  induction t as [t IH] using TreeNode_children_ind.
  rewrite positions1_unfold, getAllNodes1_unfold.
  constructor; [reflexivity|].
  pose proof (positions_from_nodes _ IH []) as H. simpl in H.
  assert (Hne : Forall (λ p, p ≠ []) (positions_from 0 (children t))).
  { apply Forall_forall. intros p Hp.
    apply positions_from_head in Hp as (j & q & -> & _). discriminate. }
  revert Hne. induction H as [|p n ps ns Hp _ IHH]; intros Hne; constructor.
  - destruct p; [inversion Hne; congruence|]. exact Hp.
  - apply IHH. now inversion Hne.
Qed.

Lemma path_lt_cons i p q : path_lt p q → path_lt (i :: p) (i :: q).
Proof. simpl. auto. Qed.

Lemma StronglySorted_map_cons i ps :
  StronglySorted path_lt ps → StronglySorted path_lt (List.map (cons i) ps).
Proof.
  induction 1 as [|p ps _ IH Hall]; simpl; constructor; [done|].
  apply Forall_forall. intros q Hq.
  apply list_elem_of_In, in_map_iff in Hq as (q' & <- & Hq').
  apply path_lt_cons. rewrite Forall_forall in Hall.
  apply Hall. now apply list_elem_of_In.
Qed.

Lemma StronglySorted_app_lt (l1 l2 : list (list nat)) :
  StronglySorted path_lt l1 → StronglySorted path_lt l2 →
  (∀ x y, x ∈ l1 → y ∈ l2 → path_lt x y) →
  StronglySorted path_lt (l1 ++ l2).
Proof.
  induction 1 as [|p ps _ IH Hall]; intros H2 Hlt; simpl; [done|].
  constructor.
  - apply IH; [done|]. intros x y Hx Hy. apply Hlt; [now right|done].
  - apply Forall_app. split; [done|].
    apply Forall_forall. intros y Hy. apply Hlt; [now left|done].
Qed.

Lemma positions_from_sorted l :
  Forall (λ c, StronglySorted path_lt (positions1 c)) l →
  ∀ i, StronglySorted path_lt (positions_from i l).
Proof.
  induction 1 as [|c l Hc _ IHl]; intros i; simpl; [constructor|].
  apply StronglySorted_app_lt; [now apply StronglySorted_map_cons|apply IHl|].
  intros x y Hx Hy.
  apply list_elem_of_In, in_map_iff in Hx as (q & <- & _).
  apply positions_from_head in Hy as (j & q' & -> & Hj).
  simpl. left. lia.
Qed.

Lemma positions1_sorted t : StronglySorted path_lt (positions1 t).
Proof.
  induction t as [t IH] using TreeNode_children_ind.
  rewrite positions1_unfold. constructor.
  - now apply positions_from_sorted.
  - apply Forall_forall. intros p Hp.
    apply positions_from_head in Hp as (j & q & -> & _). exact I.
Qed.

Lemma positions_from_lookup l i j t q :
  l !! j = Some t → q ∈ positions1 t → (i + j)%nat :: q ∈ positions_from i l.
Proof.
  revert i j. induction l as [|c l IHl]; intros i j Hj Hq; [done|].
  simpl. apply elem_of_app. destruct j as [|j]; simpl in Hj.
  - left. injection Hj as ->. rewrite Nat.add_0_r.
    apply list_elem_of_In, in_map, list_elem_of_In, Hq.
  - right. replace (i + S j)%nat with (S i + j)%nat by lia. now apply IHl.
Qed.

Lemma node_at_positions p : ∀ forest n,
  node_at forest p = Some n → p ∈ positions forest.
Proof.
  induction p as [|i q IHq]; intros forest n H; [discriminate|].
  rewrite node_at_cons in H.
  destruct (forest !! i) as [t|] eqn:Hi; [|discriminate].
  apply (positions_from_lookup forest 0 i t q Hi).
  rewrite positions1_unfold. destruct q as [|j q'].
  - now left.
  - right. simpl in H. eapply IHq. exact H.
Qed.

(** ** Assignment to a map object *)

Lemma assign_ordinary {V : Type} (carries : V → bool) m k v :
  k ≠ proto_key →
  assign carries m k v = mkDict (<[k := v]> (own m)) (prototype m).
Proof. intros Hk. unfold assign. now rewrite bool_decide_eq_false_2. Qed.

Lemma assign_other {V : Type} (carries : V → bool) m k v k' :
  k ≠ k' → own (assign carries m k v) !! k' = own m !! k'.
Proof.
  intros Hne. unfold assign.
  destruct (bool_decide (k = proto_key));
    [|simpl; now apply lookup_insert_ne].
  destruct (own m !! k); [simpl; now apply lookup_insert_ne|].
  destruct (prototype m) as [p|]; [|done].
  destruct (carries p); [simpl; now apply lookup_insert_ne|done].
Qed.

Lemma assign_inv {V : Type} (carries : V → bool) m k v k' x :
  own (assign carries m k v) !! k' = Some x →
  own m !! k' = Some x ∨ (k' = k ∧ x = v).
Proof.
  destruct (decide (k = k')) as [<-|Hne].
  - unfold assign.
    destruct (bool_decide (k = proto_key));
      [|simpl; rewrite lookup_insert_eq; intros [= <-]; now right].
    destruct (own m !! k) eqn:Ho;
      [simpl; rewrite lookup_insert_eq; intros [= <-]; now right|].
    destruct (prototype m) as [p|]; [|simpl; congruence].
    destruct (carries p); simpl; [|congruence].
    rewrite lookup_insert_eq. intros [= <-]. now right.
  - rewrite assign_other by done. now left.
Qed.

Lemma assign_prototype_other {V : Type} (carries : V → bool) m k v :
  k ≠ proto_key → prototype (assign carries m k v) = prototype m.
Proof. intros Hk. now rewrite assign_ordinary. Qed.

(** The assignment reaches the setter when neither the map nor its
    prototype has a property [__proto__]. *)
Lemma assign_setter {V : Type} (carries : V → bool) m v :
  own m !! proto_key = None →
  (∀ p, prototype m = Some p → carries p = false) →
  assign carries m proto_key v = mkDict (own m) (Some v).
Proof.
  intros Ho Hp. unfold assign. rewrite bool_decide_eq_true_2 by done.
  rewrite Ho. destruct (prototype m) as [p|]; [|done].
  now rewrite (Hp p).
Qed.

Lemma assign_map {V W : Type} (f : V → W) (c : V → bool) (c' : W → bool)
    m k v :
  (∀ p, c' (f p) = c p) →
  assign c' (dict_map f m) k (f v) = dict_map f (assign c m k v).
Proof.
  intros Hc. unfold assign, dict_map. simpl.
  destruct (bool_decide (k = proto_key)); [|simpl; now rewrite fmap_insert].
  rewrite lookup_fmap.
  destruct (own m !! k); simpl; [now rewrite fmap_insert|].
  destruct (prototype m) as [p|]; simpl; [|done].
  rewrite Hc. destruct (c p); simpl; [now rewrite fmap_insert|done].
Qed.

Lemma dict_map_empty {V W : Type} (f : V → W) :
  dict_map f (mkDict ∅ None) = mkDict ∅ None.
Proof. unfold dict_map. simpl. now rewrite fmap_empty. Qed.

(** ** The plain map *)

Lemma truthy_id_Some k : truthy_id (Some k) = true ↔ k ≠ [].
Proof. destruct k; simpl; split; congruence. Qed.

Lemma plain_step_eq m n :
  plain_step m n =
  match node_id n with
  | Some (c :: k) => assign has_proto_field m (c :: k) n
  | _ => m
  end.
Proof. unfold plain_step. now destruct (node_id n) as [[|c k]|]. Qed.

Lemma proto_key_nonempty : proto_key ≠ [].
Proof. discriminate. Qed.

Lemma plain_step_assign m n k :
  node_id n = Some k → k ≠ [] →
  plain_step m n = assign has_proto_field m k n.
Proof.
  intros Hid Hk. rewrite plain_step_eq, Hid. now destruct k.
Qed.

Lemma plain_step_truthy m n k :
  node_id n = Some k → k ≠ [] → k ≠ proto_key →
  own (plain_step m n) !! k = Some n.
Proof.
  intros Hid Hk Hp. rewrite plain_step_eq, Hid.
  destruct k as [|c k]; [done|].
  rewrite assign_ordinary by done. apply lookup_insert_eq.
Qed.

Lemma plain_step_other m n k :
  node_id n ≠ Some k → own (plain_step m n) !! k = own m !! k.
Proof.
  intros Hid. rewrite plain_step_eq.
  destruct (node_id n) as [[|c k']|]; try done.
  apply assign_other. congruence.
Qed.

Lemma plain_step_empty_key m n : own (plain_step m n) !! [] = own m !! [].
Proof.
  rewrite plain_step_eq. destruct (node_id n) as [[|c k']|]; try done.
  now apply assign_other.
Qed.

Lemma plain_step_inv m a k n :
  own (plain_step m a) !! k = Some n →
  own m !! k = Some n ∨ (a = n ∧ node_id n = Some k).
Proof.
  rewrite plain_step_eq. destruct (node_id a) as [[|c k']|] eqn:Ha;
    try (now left).
  intros H. apply assign_inv in H as [H|[-> ->]]; [now left|now right].
Qed.

Lemma plain_step_prototype_other m n :
  node_id n ≠ Some proto_key → prototype (plain_step m n) = prototype m.
Proof.
  intros Hid. rewrite plain_step_eq.
  destruct (node_id n) as [[|c k']|]; try done.
  apply assign_prototype_other. congruence.
Qed.

Lemma plain_fold_other l : ∀ m k,
  (∀ n, n ∈ l → node_id n ≠ Some k) →
  own (fold_left plain_step l m) !! k = own m !! k.
Proof.
  induction l as [|a l IHl]; intros m k H; simpl; [done|].
  rewrite IHl by (intros n Hn; apply H; now right).
  apply plain_step_other, H. now left.
Qed.

Lemma plain_fold_prototype_other l : ∀ m,
  (∀ n, n ∈ l → node_id n ≠ Some proto_key) →
  prototype (fold_left plain_step l m) = prototype m.
Proof.
  induction l as [|a l IHl]; intros m H; simpl; [done|].
  rewrite IHl by (intros n Hn; apply H; now right).
  apply plain_step_prototype_other, H. now left.
Qed.

Lemma plain_fold_empty_key l : ∀ m,
  own (fold_left plain_step l m) !! [] = own m !! [].
Proof.
  induction l as [|a l IHl]; intros m; simpl; [done|].
  now rewrite IHl, plain_step_empty_key.
Qed.

Lemma last_with_id_tail (a : TreeNode) l i k :
  last_with_id (a :: l) (S i) k → last_with_id l i k.
Proof. intros H j m Hj Hm. apply (H (S j) m); [lia|exact Hm]. Qed.

Lemma last_with_id_head (a : TreeNode) l k :
  last_with_id (a :: l) 0 k → ∀ n, n ∈ l → node_id n ≠ Some k.
Proof.
  intros H n Hn. apply list_elem_of_lookup in Hn as [j Hj].
  apply (H (S j) n); [lia|exact Hj].
Qed.

Lemma plain_fold_last l : ∀ m i n k,
  l !! i = Some n → node_id n = Some k → k ≠ [] → k ≠ proto_key →
  last_with_id l i k →
  own (fold_left plain_step l m) !! k = Some n.
Proof.
  induction l as [|a l IHl]; intros m i n k Hi Hid Hk Hp Hlast; [done|].
  simpl. destruct i as [|i]; simpl in Hi.
  - injection Hi as ->.
    rewrite plain_fold_other by now apply (last_with_id_head n).
    now apply plain_step_truthy.
  - eapply IHl; eauto using last_with_id_tail.
Qed.

Lemma plain_fold_entries l : ∀ m k n,
  own (fold_left plain_step l m) !! k = Some n →
  own m !! k = Some n ∨ (n ∈ l ∧ node_id n = Some k).
Proof.
  induction l as [|a l IHl]; intros m k n H; simpl in H; [now left|].
  apply IHl in H as [H|[H1 H2]].
  - apply plain_step_inv in H as [H|[-> H]]; [now left|].
    right. split; [now left|done].
  - right. split; [now right|done].
Qed.

Lemma elem_of_truthy_ids l k :
  k ∈ truthy_ids l ↔ k ≠ [] ∧ ∃ n, n ∈ l ∧ node_id n = Some k.
Proof.
  unfold truthy_ids. rewrite list_elem_of_omap. split.
  - intros (n & Hn & H). destruct (node_id n) as [k'|] eqn:Hid; [|done].
    destruct (truthy_id (Some k')) eqn:Ht; [|done].
    injection H as ->. split; [now apply truthy_id_Some|eauto].
  - intros (Hk & n & Hn & Hid). exists n. split; [done|].
    rewrite Hid. apply truthy_id_Some in Hk. now rewrite Hk.
Qed.

Lemma flattenToMap_eq tree :
  flattenToMap tree
  = own (fold_left plain_step (getAllNodes tree) (mkDict ∅ None)).
Proof. reflexivity. Qed.

Lemma plain_prototype_eq tree :
  plain_prototype tree
  = prototype (fold_left plain_step (getAllNodes tree) (mkDict ∅ None)).
Proof. reflexivity. Qed.

(** *** Nodes without a field [__proto__]

    In a map whose prototype, if it was set, has no such field, every
    assignment to [__proto__] reaches the setter. *)

Lemma plain_step_setter m n :
  has_proto_field n = false → setter_reached m →
  setter_reached (plain_step m n)
  ∧ (node_id n = Some proto_key → prototype (plain_step m n) = Some n).
Proof.
  intros Hn [Ho Hp].
  destruct (decide (node_id n = Some proto_key)) as [Hid|Hid].
  - rewrite (plain_step_assign m n proto_key Hid proto_key_nonempty).
    rewrite assign_setter by done. simpl.
    split; [|done]. split; [done|]. now intros p [= <-].
  - split; [|done]. split.
    + now rewrite plain_step_other.
    + now rewrite plain_step_prototype_other.
Qed.

Lemma plain_fold_setter l : ∀ m,
  Forall (λ n, has_proto_field n = false) l → setter_reached m →
  setter_reached (fold_left plain_step l m).
Proof.
  induction l as [|a l IHl]; intros m Hl Hm; [done|]. simpl.
  apply Forall_cons in Hl as [Ha Hl].
  apply IHl; [done|]. now apply plain_step_setter.
Qed.

Lemma plain_fold_prototype_last l : ∀ m i n,
  Forall (λ n, has_proto_field n = false) l → setter_reached m →
  l !! i = Some n → node_id n = Some proto_key →
  last_with_id l i proto_key →
  prototype (fold_left plain_step l m) = Some n.
Proof.
  induction l as [|a l IHl]; intros m i n Hl Hm Hi Hid Hlast; [done|].
  apply Forall_cons in Hl as [Ha Hl].
  simpl. destruct i as [|i]; simpl in Hi.
  - injection Hi as ->.
    rewrite plain_fold_prototype_other by now apply (last_with_id_head n).
    now apply plain_step_setter.
  - apply (IHl _ i); eauto using last_with_id_tail.
    now apply plain_step_setter.
Qed.

Lemma setter_reached_empty : setter_reached (mkDict ∅ None).
Proof. split; [apply lookup_empty|done]. Qed.

(** ** The page-range map *)

Section range_fold.

Variables (all : list TreeNode) (mp : option Z).

Lemma range_step_eq m i :
  range_step all mp m i =
  match all !! i with
  | Some n =>
      match node_id n with
      | Some (c :: k) =>
          assign (λ _, false) m (c :: k) (range_entry all mp i n)
      | _ => m
      end
  | None => m
  end.
Proof.
  unfold range_step, range_entry.
  destruct (all !! i) as [n|]; [|done].
  destruct (node_id n) as [[|c k]|]; try done.
  cbn [truthy_id]. f_equal. f_equal.
  replace (i + 1)%nat with (S i) by lia.
  case_decide as Hlt.
  - destruct (lookup_lt_is_Some_2 all (S i) Hlt) as [x Hx]. now rewrite Hx.
  - rewrite (lookup_ge_None_2 all (S i)) by lia. done.
Qed.

Lemma range_step_assign m i n k :
  all !! i = Some n → node_id n = Some k → k ≠ [] →
  range_step all mp m i
  = assign (λ _, false) m k (range_entry all mp i n).
Proof.
  intros Hn Hid Hk. rewrite range_step_eq, Hn, Hid. now destruct k.
Qed.

Lemma range_step_other m i k :
  (∀ n, all !! i = Some n → node_id n ≠ Some k) →
  own (range_step all mp m i) !! k = own m !! k.
Proof.
  intros H. rewrite range_step_eq.
  destruct (all !! i) as [n|]; [|done].
  specialize (H n eq_refl).
  destruct (node_id n) as [[|c k']|]; try done.
  apply assign_other. congruence.
Qed.

Lemma range_step_prototype_other m i :
  (∀ n, all !! i = Some n → node_id n ≠ Some proto_key) →
  prototype (range_step all mp m i) = prototype m.
Proof.
  intros H. rewrite range_step_eq.
  destruct (all !! i) as [n|]; [|done].
  specialize (H n eq_refl).
  destruct (node_id n) as [[|c k']|]; try done.
  apply assign_prototype_other. congruence.
Qed.

(** The entries written have no field [__proto__]: the name is never a
    key of the page-range map. *)
Lemma range_step_proto_key m i :
  own m !! proto_key = None →
  own (range_step all mp m i) !! proto_key = None.
Proof.
  intros Ho. rewrite range_step_eq.
  destruct (all !! i) as [n|]; [|done].
  destruct (node_id n) as [[|c k]|]; try done.
  destruct (decide (c :: k = proto_key)) as [->|Hne].
  - now rewrite assign_setter.
  - now rewrite assign_other.
Qed.

Lemma range_fold_other k : ∀ len s m,
  (∀ j n, (s ≤ j < s + len)%nat → all !! j = Some n → node_id n ≠ Some k) →
  own (fold_left (range_step all mp) (seq s len) m) !! k = own m !! k.
Proof.
  induction len as [|len IH]; intros s m H; simpl; [done|].
  rewrite IH by (intros j n Hj; apply H; lia).
  apply range_step_other. intros n. apply H. lia.
Qed.

Lemma range_fold_prototype_other : ∀ len s m,
  (∀ j n, (s ≤ j < s + len)%nat → all !! j = Some n →
          node_id n ≠ Some proto_key) →
  prototype (fold_left (range_step all mp) (seq s len) m) = prototype m.
Proof.
  induction len as [|len IH]; intros s m H; simpl; [done|].
  rewrite IH by (intros j n Hj; apply H; lia).
  apply range_step_prototype_other. intros n. apply H. lia.
Qed.

Lemma range_fold_proto_key : ∀ len s m,
  own m !! proto_key = None →
  own (fold_left (range_step all mp) (seq s len) m) !! proto_key = None.
Proof.
  induction len as [|len IH]; intros s m H; simpl; [done|].
  now apply IH, range_step_proto_key.
Qed.

Lemma range_fold_last k : ∀ len s m i n,
  (s ≤ i < s + len)%nat →
  all !! i = Some n → node_id n = Some k → k ≠ [] → k ≠ proto_key →
  (∀ j n', (i < j < s + len)%nat → all !! j = Some n' → node_id n' ≠ Some k) →
  own (fold_left (range_step all mp) (seq s len) m) !! k
  = Some (range_entry all mp i n).
Proof.
  induction len as [|len IH]; intros s m i n Hi Hn Hid Hk Hp Hlast; [lia|].
  simpl. destruct (decide (i = s)) as [->|Hne].
  - rewrite range_fold_other by (intros j n' Hj; apply Hlast; lia).
    rewrite range_step_eq, Hn, Hid. destruct k as [|c k]; [done|].
    rewrite assign_ordinary by done. apply lookup_insert_eq.
  - apply IH; try done; [lia|]. intros j n' Hj. apply Hlast. lia.
Qed.

Lemma range_fold_prototype_last : ∀ len s m i n,
  own m !! proto_key = None →
  (s ≤ i < s + len)%nat →
  all !! i = Some n → node_id n = Some proto_key →
  (∀ j n', (i < j < s + len)%nat → all !! j = Some n' →
           node_id n' ≠ Some proto_key) →
  prototype (fold_left (range_step all mp) (seq s len) m)
  = Some (range_entry all mp i n).
Proof.
  induction len as [|len IH]; intros s m i n Ho Hi Hn Hid Hlast; [lia|].
  simpl. destruct (decide (i = s)) as [->|Hne].
  - rewrite range_fold_prototype_other by (intros j n' Hj; apply Hlast; lia).
    rewrite (range_step_assign m s n proto_key Hn Hid proto_key_nonempty).
    now rewrite assign_setter.
  - apply IH; try done; [now apply range_step_proto_key|lia|].
    intros j n' Hj. apply Hlast. lia.
Qed.

Lemma range_fold_empty_key : ∀ len s m,
  own (fold_left (range_step all mp) (seq s len) m) !! [] = own m !! [].
Proof.
  induction len as [|len IH]; intros s m; simpl; [done|].
  rewrite IH, range_step_eq.
  destruct (all !! s) as [n|]; [|done].
  destruct (node_id n) as [[|c k']|]; try done.
  now apply assign_other.
Qed.

End range_fold.

Lemma flattenToPageRanges_eq tree mp :
  flattenToPageRanges tree mp =
  own (fold_left (range_step (getAllNodes tree) mp)
         (seq 0 (length (getAllNodes tree))) (mkDict ∅ None)).
Proof. reflexivity. Qed.

Lemma range_prototype_eq tree mp :
  range_prototype tree mp =
  prototype (fold_left (range_step (getAllNodes tree) mp)
               (seq 0 (length (getAllNodes tree))) (mkDict ∅ None)).
Proof. reflexivity. Qed.

Lemma last_with_id_range (all : list TreeNode) i k :
  last_with_id all i k →
  ∀ j n', (i < j < 0 + length all)%nat → all !! j = Some n' →
          node_id n' ≠ Some k.
Proof. intros Hlast j n' Hj Hn'. apply (Hlast j n'); [lia|done]. Qed.

Lemma last_with_id_full (all : list TreeNode) i k :
  (∀ j n', (i < j < 0 + length all)%nat → all !! j = Some n' →
           node_id n' ≠ Some k) →
  last_with_id all i k.
Proof.
  intros Hlast j m Hj Hm. apply (Hlast j m); [|done].
  apply lookup_lt_Some in Hm. lia.
Qed.

Lemma flattenToPageRanges_last tree mp i n k :
  getAllNodes tree !! i = Some n → node_id n = Some k →
  k ≠ [] → k ≠ proto_key →
  last_with_id (getAllNodes tree) i k →
  flattenToPageRanges tree mp !! k
  = Some (range_entry (getAllNodes tree) mp i n).
Proof.
  intros Hi Hid Hk Hp Hlast. rewrite flattenToPageRanges_eq.
  apply range_fold_last; try done.
  - apply lookup_lt_Some in Hi. lia.
  - now apply last_with_id_range.
Qed.

Lemma flattenToPageRanges_proto_key tree mp :
  flattenToPageRanges tree mp !! proto_key = None.
Proof. rewrite flattenToPageRanges_eq. now apply range_fold_proto_key. Qed.

Lemma range_prototype_last tree mp i n :
  getAllNodes tree !! i = Some n → node_id n = Some proto_key →
  last_with_id (getAllNodes tree) i proto_key →
  range_prototype tree mp = Some (range_entry (getAllNodes tree) mp i n).
Proof.
  intros Hi Hid Hlast. rewrite range_prototype_eq.
  apply range_fold_prototype_last; try done.
  - apply lookup_lt_Some in Hi. lia.
  - now apply last_with_id_range.
Qed.

Lemma flattenToMap_last tree i n k :
  getAllNodes tree !! i = Some n → node_id n = Some k →
  k ≠ [] → k ≠ proto_key →
  last_with_id (getAllNodes tree) i k →
  flattenToMap tree !! k = Some n.
Proof. intros. rewrite flattenToMap_eq. eapply plain_fold_last; eauto. Qed.

Lemma flattenToMap_empty_key tree : flattenToMap tree !! [] = None.
Proof. now rewrite flattenToMap_eq, plain_fold_empty_key. Qed.

Lemma flattenToPageRanges_empty_key tree mp :
  flattenToPageRanges tree mp !! [] = None.
Proof. now rewrite flattenToPageRanges_eq, range_fold_empty_key. Qed.

(** In a range of positions, an id is carried by no node or by a last one. *)
Lemma last_in_range (all : list TreeNode) (k : list Z) : ∀ len s,
  (∀ j n, (s ≤ j < s + len)%nat → all !! j = Some n → node_id n ≠ Some k)
  ∨ (∃ i n, (s ≤ i < s + len)%nat ∧ all !! i = Some n ∧ node_id n = Some k
            ∧ ∀ j n', (i < j < s + len)%nat → all !! j = Some n' →
                      node_id n' ≠ Some k).
Proof.
  induction len as [|len IH]; intros s; [left; intros; lia|].
  destruct (IH (S s)) as [Hnone|(i & n & Hi & Hn & Hid & Hlast)].
  - destruct (all !! s) as [n|] eqn:Hs.
    + destruct (decide (node_id n = Some k)) as [Hid|Hid].
      * right. exists s, n. repeat split; try done; try lia.
        intros j n' Hj. apply Hnone. lia.
      * left. intros j n' Hj Hn'.
        destruct (decide (j = s)) as [->|Hne]; [congruence|].
        apply (Hnone j n'); [lia|done].
    + left. intros j n' Hj Hn'.
      destruct (decide (j = s)) as [->|Hne]; [congruence|].
      apply (Hnone j n'); [lia|done].
  - right. exists i, n. repeat split; try done; try lia.
    intros j n' Hj. apply Hlast. lia.
Qed.

(** Over the whole list: no node carries the id, or a last one does. *)
Lemma last_carrier (all : list TreeNode) (k : list Z) :
  (∀ n, n ∈ all → node_id n ≠ Some k)
  ∨ (∃ i n, all !! i = Some n ∧ node_id n = Some k ∧ last_with_id all i k).
Proof.
  destruct (last_in_range all k (length all) 0)
    as [Hnone|(i & n & Hi & Hn & Hid & Hlast)].
  - left. intros n Hn. apply list_elem_of_lookup in Hn as [j Hj].
    apply (Hnone j n); [|done]. apply lookup_lt_Some in Hj. lia.
  - right. exists i, n. repeat split; try done.
    now apply last_with_id_full.
Qed.

Lemma no_carrier_range (all : list TreeNode) (k : list Z) :
  (∀ n, n ∈ all → node_id n ≠ Some k) →
  ∀ j n, (0 ≤ j < 0 + length all)%nat → all !! j = Some n →
         node_id n ≠ Some k.
Proof.
  intros H j n _ Hj. apply H. apply list_elem_of_lookup. eauto.
Qed.

Lemma flattenToPageRanges_inv tree mp k e :
  flattenToPageRanges tree mp !! k = Some e →
  ∃ i n, getAllNodes tree !! i = Some n ∧ node_id n = Some k
         ∧ k ≠ [] ∧ k ≠ proto_key
         ∧ last_with_id (getAllNodes tree) i k
         ∧ e = range_entry (getAllNodes tree) mp i n.
Proof.
  intros He.
  assert (Hk : k ≠ []).
  { intros ->. now rewrite flattenToPageRanges_empty_key in He. }
  assert (Hp : k ≠ proto_key).
  { intros ->. now rewrite flattenToPageRanges_proto_key in He. }
  destruct (last_carrier (getAllNodes tree) k)
    as [Hnone|(i & n & Hi & Hid & Hlast)].
  - rewrite flattenToPageRanges_eq, range_fold_other in He
      by now apply no_carrier_range.
    simpl in He. now rewrite lookup_empty in He.
  - rewrite (flattenToPageRanges_last tree mp i n k) in He by done.
    injection He as <-. now exists i, n.
Qed.

(** A key other than [__proto__] is bound in the plain map exactly when
    it is one of the ids that pass the test. *)
Lemma flattenToMap_key tree k :
  k ≠ proto_key →
  is_Some (flattenToMap tree !! k) ↔ k ∈ truthy_ids (getAllNodes tree).
Proof.
  intros Hp. rewrite elem_of_truthy_ids.
  destruct (decide (k = [])) as [->|Hk].
  { rewrite flattenToMap_empty_key.
    split; [now intros [? ?]|now intros [? _]]. }
  destruct (last_carrier (getAllNodes tree) k)
    as [Hnone|(i & n & Hi & Hid & Hlast)].
  - rewrite flattenToMap_eq, plain_fold_other by done. simpl.
    rewrite lookup_empty.
    split; [now intros [? ?]|]. intros (_ & n & Hn & Hid).
    now destruct (Hnone n Hn).
  - rewrite (flattenToMap_last tree i n k) by done.
    split; [|eauto]. intros _. split; [done|].
    exists n. split; [|done]. apply list_elem_of_lookup. eauto.
Qed.

(** ** Empty ids read as absent *)

Lemma node_id_clear t : node_id (clear_empty_ids t) = clear_id (node_id t).
Proof. now destruct t. Qed.

Lemma page_index_clear t : page_index (clear_empty_ids t) = page_index t.
Proof. now destruct t. Qed.

Lemma has_proto_field_clear t :
  has_proto_field (clear_empty_ids t) = has_proto_field t.
Proof. now destruct t. Qed.

Lemma children_clear t :
  children (clear_empty_ids t) = List.map clear_empty_ids (children t).
Proof. destruct t as [id pi tx [l|] ex]; reflexivity. Qed.

Lemma getAllNodes1_clear t :
  getAllNodes1 (clear_empty_ids t)
  = List.map clear_empty_ids (getAllNodes1 t).
Proof.
  induction t as [t IH] using TreeNode_children_ind.
  rewrite (getAllNodes1_unfold t), getAllNodes1_unfold, children_clear.
  simpl. f_equal.
  induction IH as [|c l Hc _ IHl]; simpl; [done|].
  now rewrite map_app, Hc, IHl.
Qed.

Lemma getAllNodes_clear tree :
  getAllNodes (clear_input tree)
  = List.map clear_empty_ids (getAllNodes tree).
Proof.
  destruct tree as [t|ts]; simpl; [apply getAllNodes1_clear|].
  induction ts as [|c l IHl]; simpl; [done|].
  now rewrite map_app, getAllNodes1_clear, IHl.
Qed.

Lemma truthy_clear_id id : truthy_id (clear_id id) = truthy_id id.
Proof. now destruct id as [[|c k]|]. Qed.

Lemma plain_step_clear m n :
  plain_step (dict_map clear_empty_ids m) (clear_empty_ids n)
  = dict_map clear_empty_ids (plain_step m n).
Proof.
  rewrite !plain_step_eq, node_id_clear.
  destruct (node_id n) as [[|c k]|]; simpl; try done.
  apply assign_map, has_proto_field_clear.
Qed.

Lemma plain_fold_clear l : ∀ m,
  fold_left plain_step (List.map clear_empty_ids l)
    (dict_map clear_empty_ids m)
  = dict_map clear_empty_ids (fold_left plain_step l m).
Proof.
  induction l as [|a l IHl]; intros m; simpl; [done|].
  now rewrite plain_step_clear, IHl.
Qed.

Lemma range_entry_clear all mp i n :
  range_entry (List.map clear_empty_ids all) mp i (clear_empty_ids n)
  = clear_entry (range_entry all mp i n).
Proof.
  unfold range_entry, clear_entry. simpl.
  rewrite page_index_clear. f_equal.
  change (List.map clear_empty_ids all) with (clear_empty_ids <$> all).
  rewrite list_lookup_fmap.
  destruct (all !! S i) as [x|]; simpl; [apply page_index_clear|done].
Qed.

Lemma range_step_clear all mp m i :
  range_step (List.map clear_empty_ids all) mp (dict_map clear_entry m) i
  = dict_map clear_entry (range_step all mp m i).
Proof.
  rewrite !range_step_eq.
  change (List.map clear_empty_ids all !! i)
    with ((clear_empty_ids <$> all) !! i).
  rewrite list_lookup_fmap.
  destruct (all !! i) as [n|]; simpl; [|done].
  rewrite node_id_clear.
  destruct (node_id n) as [[|c k]|]; simpl; try done.
  rewrite range_entry_clear. now apply assign_map.
Qed.

Lemma range_fold_clear all mp : ∀ len s m,
  fold_left (range_step (List.map clear_empty_ids all) mp) (seq s len)
    (dict_map clear_entry m)
  = dict_map clear_entry (fold_left (range_step all mp) (seq s len) m).
Proof.
  induction len as [|len IH]; intros s m; simpl; [done|].
  now rewrite range_step_clear, IH.
Qed.


(** ** removeFields *)

Lemma JValue_nested_ind (P : JValue → Prop) :
  P JUndefined → P JNull → (∀ b, P (JBool b)) → (∀ n, P (JNumber n)) →
  (∀ s, P (JString s)) →
  (∀ items, Forall P items → P (JArray items)) →
  (∀ p es, (∀ q, p = Some q → P q) → Forall (λ e, P e.2) es →
           P (JObject p es)) →
  ∀ v, P v.
Proof.
  intros Hu Hn Hb Hnum Hs Ha Ho. fix IH 1. intros [| |b|n|s|items|p es].
  - exact Hu.
  - exact Hn.
  - apply Hb.
  - apply Hnum.
  - apply Hs.
  - apply Ha. revert items. fix IHl 1. intros [|x l]; constructor.
    + apply IH.
    + apply IHl.
  - apply Ho.
    + destruct p as [q|]; intros q' Hq; [|discriminate Hq].
      injection Hq as <-. apply IH.
    + revert es. fix IHl 1. intros [|[k x] l]; constructor.
      * apply IH.
      * apply IHl.
Qed.

Lemma includes_true fields k : includes fields k = true ↔ k ∈ fields.
Proof. unfold includes. apply bool_decide_eq_true. Qed.

Lemma includes_false fields k : includes fields k = false ↔ k ∉ fields.
Proof. unfold includes. apply bool_decide_eq_false. Qed.

Lemma includes_app f1 f2 k :
  includes (f1 ++ f2) k = includes f1 k || includes f2 k.
Proof.
  destruct (includes f1 k) eqn:H1; simpl.
  - apply includes_true. apply includes_true in H1.
    apply elem_of_app. now left.
  - destruct (includes f2 k) eqn:H2.
    + apply includes_true. apply includes_true in H2.
      apply elem_of_app. now right.
    + apply includes_false. apply includes_false in H1, H2.
      intros H. apply elem_of_app in H as [H|H]; auto.
Qed.

(** *** The assignments made on [out] *)

Lemma own_written_cons k v ws :
  own_written ((k, v) :: ws)
  = if bool_decide (k = proto_key) then own_written ws
    else (k, v) :: own_written ws.
Proof. unfold own_written. simpl. now destruct (bool_decide (k = proto_key)). Qed.

Lemma fold_set_property ws : ∀ p es,
  fold_left (λ out e, set_property out e.1 e.2) ws (JObject p es)
  = JObject (proto_written p ws) (es ++ own_written ws).
Proof.
  induction ws as [|[k v] ws IH]; intros p es.
  - simpl. now rewrite app_nil_r.
  - rewrite own_written_cons. cbn [fold_left proto_written fst snd].
    unfold set_property at 2.
    destruct (bool_decide (k = proto_key)); cbn [andb].
    + destruct v; cbn [can_be_prototype]; now rewrite IH.
    + now rewrite IH, <- app_assoc.
Qed.

Lemma own_written_Forall (P : list Z * JValue → Prop) ws :
  Forall P ws → Forall P (own_written ws).
Proof.
  induction 1 as [|[k v] ws Hx _ IH]; [constructor|].
  rewrite own_written_cons.
  destruct (bool_decide (k = proto_key)); [done|now constructor].
Qed.

Lemma own_written_ordinary ws :
  Forall (λ e, e.1 ≠ proto_key) ws → own_written ws = ws.
Proof.
  induction 1 as [|[k v] ws Hk _ IH]; [done|].
  rewrite own_written_cons, bool_decide_eq_false_2 by done. now rewrite IH.
Qed.

Lemma own_written_is_ordinary ws :
  Forall (λ e, e.1 ≠ proto_key) (own_written ws).
Proof.
  induction ws as [|[k v] ws IH]; [constructor|].
  rewrite own_written_cons.
  destruct (bool_decide (k = proto_key)) eqn:Hk; [done|].
  constructor; [|done]. now apply bool_decide_eq_false in Hk.
Qed.

Lemma proto_written_ordinary ws : ∀ p,
  Forall (λ e, e.1 ≠ proto_key) ws → proto_written p ws = p.
Proof.
  induction ws as [|[k v] ws IH]; intros p Hws; [done|].
  apply Forall_cons in Hws as [Hk Hws]. simpl in *.
  rewrite bool_decide_eq_false_2 by done. now apply IH.
Qed.

(** The prototype left is one of the values assigned, or the one there
    was. *)
Lemma proto_written_values (P : JValue → Prop) ws : ∀ p q,
  (∀ q', p = Some q' → P q') → Forall (λ e, P e.2) ws →
  proto_written p ws = Some q → P q.
Proof.
  induction ws as [|[k v] ws IH]; intros p q Hp Hws; simpl.
  - apply Hp.
  - apply Forall_cons in Hws as [Hv Hws]. apply IH; [|done].
    destruct (bool_decide (k = proto_key) && can_be_prototype v); [|done].
    now intros q' [= <-].
Qed.

Lemma own_property_own_written ws k :
  k ≠ proto_key → own_property (own_written ws) k = own_property ws k.
Proof.
  intros Hk. induction ws as [|[k' v] ws IH]; [done|].
  rewrite own_written_cons. simpl.
  destruct (bool_decide (k' = proto_key)) eqn:Hp; simpl.
  - apply bool_decide_eq_true in Hp as ->.
    rewrite bool_decide_eq_false_2 by congruence. exact IH.
  - now rewrite IH.
Qed.

Lemma own_property_ordinary ws :
  Forall (λ e, e.1 ≠ proto_key) ws → own_property ws proto_key = None.
Proof.
  induction 1 as [|[k v] ws Hk _ IH]; [done|]. simpl in *.
  now rewrite bool_decide_eq_false_2.
Qed.

(** *** The three cases of the function *)

Lemma removeFields_object p es fields maxLen :
  removeFields (JObject p es) fields maxLen
  = JObject (proto_written None (kept_entries fields maxLen es))
      (own_written (kept_entries fields maxLen es)).
Proof.
  rewrite <- (app_nil_l (own_written _)), <- fold_set_property.
  first [ reflexivity
        | simpl; f_equal; induction es as [|[k v] es IH]; [done|];
          simpl; now rewrite IH ].
Qed.

Lemma removeFields_array items fields maxLen :
  removeFields (JArray items) fields maxLen
  = JArray ((λ item, removeFields item fields maxLen) <$> items).
Proof. reflexivity. Qed.

Lemma removeFields_string s fields n :
  removeFields (JString s) fields (Some n) = JString (truncated n s).
Proof. unfold truncated. simpl. now destruct (n <? length s)%nat. Qed.

Lemma removeFields_no_string_bound s fields :
  removeFields (JString s) fields None = JString s.
Proof. reflexivity. Qed.

Lemma structuredClone_object p es :
  structuredClone (JObject p es) = JObject None (cloned_entries es).
Proof.
  first [ reflexivity
        | simpl; f_equal; induction es as [|[k v] es IH]; [done|];
          simpl; now rewrite IH ].
Qed.

Lemma all_keys_object p es :
  all_keys (JObject p es)
  = match p with Some q => all_keys q | None => [] end ++ entries_keys es.
Proof.
  first [ reflexivity
        | simpl; f_equal; induction es as [|[k x] es IH]; [done|];
          simpl; now rewrite IH ].
Qed.

Lemma all_strings_object p es :
  all_strings (JObject p es)
  = match p with Some q => all_strings q | None => [] end
    ++ entries_strings es.
Proof.
  first [ reflexivity
        | simpl; f_equal; induction es as [|[k x] es IH]; [done|];
          simpl; now rewrite IH ].
Qed.

Lemma plain_object p es :
  plain (JObject p es)
  = match p with None => true | Some _ => false end && plain_entries es.
Proof.
  first [ reflexivity
        | simpl; f_equal; induction es as [|[k x] es IH]; [done|];
          simpl; now rewrite IH ].
Qed.

Lemma Forall_entries_keys (P : list Z → Prop) es :
  Forall P (entries_keys es)
  ↔ Forall (λ e, P e.1 ∧ Forall P (all_keys e.2)) es.
Proof.
  induction es as [|[k x] es IH]; simpl.
  - split; constructor.
  - rewrite Forall_cons, Forall_app, IH, Forall_cons. simpl. tauto.
Qed.

Lemma Forall_entries_strings (P : list Z → Prop) es :
  Forall P (entries_strings es)
  ↔ Forall (λ e, Forall P (all_strings e.2)) es.
Proof.
  induction es as [|[k x] es IH]; simpl.
  - split; constructor.
  - rewrite Forall_app, IH, Forall_cons. simpl. tauto.
Qed.

(** *** Strings *)

Lemma length_js_dots : length (js "...") = 3%nat.
Proof. reflexivity. Qed.

Lemma truncated_long n s :
  (n < length s)%nat →
  length (truncated n s) = (n + 3)%nat
  ∧ drop n (truncated n s) = js "..."
  ∧ take n (truncated n s) = take n s.
Proof.
  intros Hlt. unfold truncated.
  apply Nat.ltb_lt in Hlt as Hb. rewrite Hb.
  assert (Hlen : length (take n s) = n) by (rewrite length_take; lia).
  repeat split.
  - rewrite length_app, Hlen. reflexivity.
  - now rewrite drop_app_length' by done.
  - now rewrite take_app_length' by done.
Qed.

Lemma truncated_short n s : (length s ≤ n)%nat → truncated n s = s.
Proof.
  intros Hle. unfold truncated.
  apply Nat.ltb_ge in Hle. now rewrite Hle.
Qed.

Lemma truncated_idemp n s : truncated n (truncated n s) = truncated n s.
Proof.
  destruct (Nat.lt_ge_cases n (length s)) as [Hlt|Hge].
  - destruct (truncated_long n s Hlt) as (Hlen & _ & Htake).
    unfold truncated at 1. rewrite Hlen, Htake.
    assert (Hb : (n <? n + 3)%nat = true) by (apply Nat.ltb_lt; lia).
    rewrite Hb. unfold truncated.
    apply Nat.ltb_lt in Hlt. now rewrite Hlt.
  - now rewrite !truncated_short by (rewrite ?truncated_short; done).
Qed.

Lemma length_truncated n s : (length (truncated n s) ≤ n + 3)%nat.
Proof.
  destruct (Nat.lt_ge_cases n (length s)) as [Hlt|Hge].
  - destruct (truncated_long n s Hlt) as (-> & _). lia.
  - rewrite truncated_short by done. lia.
Qed.

(** A value that is neither an array nor an object stays so. *)
Ltac filtered_scalar :=
  simpl;
  repeat match goal with
         | |- context [match ?m with Some _ => _ | None => _ end] => destruct m
         | |- context [if ?c then _ else _] => destruct c
         end;
  done.


Section filter.

Variables (fields : list (list Z)) (maxLen : option nat).

(** *** The properties of the output *)

Lemma own_property_kept_fmap k es :
  k ∉ fields →
  own_property (kept_entries fields maxLen es) k
  = (λ x, removeFields x fields maxLen) <$> own_property es k.
Proof.
  intros Hk. induction es as [|[k' v] es IH]; [done|]. simpl.
  destruct (bool_decide (k' = k)) eqn:Heq.
  - apply bool_decide_eq_true in Heq as ->.
    apply includes_false in Hk. rewrite Hk. simpl.
    now rewrite bool_decide_eq_true_2.
  - destruct (includes fields k'); simpl; [exact IH|]. now rewrite Heq.
Qed.

Lemma own_property_removed k es :
  k ∈ fields → own_property (kept_entries fields maxLen es) k = None.
Proof.
  intros Hk. induction es as [|[k' v] es IH]; [done|]. simpl.
  destruct (includes fields k') eqn:Hk'; simpl; [exact IH|].
  rewrite bool_decide_eq_false_2; [exact IH|].
  intros ->. apply includes_false in Hk'. contradiction.
Qed.

(** The own property [k] of the object that comes out. *)
Lemma own_property_output k es :
  own_property (own_written (kept_entries fields maxLen es)) k
  = if bool_decide (k = proto_key) || includes fields k then None
    else (λ x, removeFields x fields maxLen) <$> own_property es k.
Proof.
  destruct (bool_decide (k = proto_key)) eqn:Hp; simpl.
  - apply bool_decide_eq_true in Hp as ->.
    apply own_property_ordinary, own_written_is_ordinary.
  - apply bool_decide_eq_false in Hp.
    rewrite own_property_own_written by done.
    destruct (includes fields k) eqn:Hk.
    + now apply own_property_removed, includes_true.
    + now apply own_property_kept_fmap, includes_false.
Qed.

Lemma Forall_kept_entries (Q : list Z * JValue → Prop) es :
  Forall (λ e, e.1 ∉ fields → Q (e.1, removeFields e.2 fields maxLen)) es →
  Forall Q (kept_entries fields maxLen es).
Proof.
  induction 1 as [|[k x] es Hx _ IH]; [constructor|]. simpl in *.
  destruct (includes fields k) eqn:Hk; simpl; [exact IH|].
  constructor; [|exact IH]. now apply Hx, includes_false.
Qed.

(** With distinct keys, the prototype left is decided by the one property
    [__proto__] of the input. *)
Lemma can_be_prototype_removeFields v :
  can_be_prototype (removeFields v fields maxLen) = can_be_prototype v.
Proof.
  destruct v as [| | | |s|items|p es]; try reflexivity.
  - simpl. destruct maxLen as [n|]; [|done]. now destruct (n <? length s)%nat.
  - now rewrite removeFields_object.
Qed.

Lemma kept_entries_keys es k :
  k ∉ es.*1 → k ∉ (kept_entries fields maxLen es).*1.
Proof.
  induction es as [|[k' v] es IH]; intros Hk; [done|]. simpl in *.
  apply not_elem_of_cons in Hk as [Hne Hk].
  destruct (includes fields k'); simpl; [now apply IH|].
  apply not_elem_of_cons. split; [done|now apply IH].
Qed.

Lemma proto_written_absent ws : ∀ p,
  proto_key ∉ ws.*1 → proto_written p ws = p.
Proof.
  intros p Hk. apply proto_written_ordinary.
  apply Forall_forall. intros [k v] He Hp. simpl in Hp. subst k.
  apply Hk. apply (list_elem_of_fmap_2 fst) in He. exact He.
Qed.

Lemma proto_written_kept es :
  NoDup es.*1 →
  proto_written None (kept_entries fields maxLen es)
  = match own_property es proto_key with
    | Some v =>
        if negb (includes fields proto_key) && can_be_prototype v
        then Some (removeFields v fields maxLen)
        else None
    | None => None
    end.
Proof.
  induction es as [|[k v] es IH]; intros Hnd; [done|].
  simpl in Hnd. apply NoDup_cons in Hnd as [Hk Hnd]. simpl.
  destruct (bool_decide (k = proto_key)) eqn:Hp.
  - apply bool_decide_eq_true in Hp as ->.
    destruct (includes fields proto_key); simpl.
    + apply proto_written_absent. now apply kept_entries_keys.
    + rewrite ?bool_decide_eq_true_2 by done.
      rewrite can_be_prototype_removeFields. simpl.
      apply proto_written_absent. now apply kept_entries_keys.
  - destruct (includes fields k); simpl; [now apply IH|].
    rewrite Hp. simpl. now apply IH.
Qed.

(** *** Paths *)

Lemma select_kept path : ∀ data,
  Forall (λ k, k ≠ proto_key ∧ k ∉ fields) (path_keys path) →
  select (removeFields data fields maxLen) path
  = (λ v, removeFields v fields maxLen) <$> select data path.
Proof.
  induction path as [|[i|k] path IH]; intros data Hkeys; [done| |].
  - destruct data as [| | | |s|items|p es]; try filtered_scalar.
    + rewrite removeFields_array. simpl. rewrite list_lookup_fmap.
      destruct (items !! i) as [x|]; simpl; [now apply IH|done].
    + now rewrite removeFields_object.
  - simpl in Hkeys. apply Forall_cons in Hkeys as [[Hp Hk] Hkeys].
    destruct data as [| | | |s|items|p es]; try filtered_scalar.
    rewrite removeFields_object. simpl.
    rewrite own_property_output.
    rewrite bool_decide_eq_false_2 by done.
    apply includes_false in Hk. rewrite Hk. simpl.
    destruct (own_property es k) as [x|]; simpl; [now apply IH|done].
Qed.

Lemma select_removed path : ∀ data,
  Exists (λ k, k ∈ fields ∨ k = proto_key) (path_keys path) →
  select (removeFields data fields maxLen) path = None.
Proof.
  induction path as [|[i|k] path IH]; intros data Hkeys.
  - inversion Hkeys.
  - destruct data as [| | | |s|items|p es]; try filtered_scalar.
    + rewrite removeFields_array. simpl. rewrite list_lookup_fmap.
      destruct (items !! i) as [x|]; simpl; [now apply IH|done].
    + now rewrite removeFields_object.
  - destruct data as [| | | |s|items|p es]; try filtered_scalar.
    rewrite removeFields_object. simpl.
    rewrite own_property_output.
    destruct (bool_decide (k = proto_key) || includes fields k) eqn:Hk;
      [done|].
    apply orb_false_iff in Hk as [Hp Hk].
    apply bool_decide_eq_false in Hp. apply includes_false in Hk.
    simpl in Hkeys. apply Exists_cons in Hkeys as [[?|?]|Hkeys]; try done.
    destruct (own_property es k) as [x|]; simpl; [now apply IH|done].
Qed.


(** *** Keys and strings *)

Lemma removed_keys_gone data :
  Forall (λ k, k ∉ fields) (all_keys (removeFields data fields maxLen)).
Proof.
  induction data as [| | | |s|items IH|p es _ IH] using JValue_nested_ind;
    try constructor.
  - simpl. destruct maxLen as [n|]; [|constructor].
    destruct (n <? length s)%nat; constructor.
  - rewrite removeFields_array.
    induction IH as [|x l Hx _ IHl]; [constructor|].
    rewrite fmap_cons. simpl. apply Forall_app. split; [exact Hx|exact IHl].
  - rewrite removeFields_object, all_keys_object.
    apply Forall_app. split.
    + destruct (proto_written None _) as [q|] eqn:Hq; [|constructor].
      eapply (proto_written_values
                (λ v, Forall (λ k, k ∉ fields) (all_keys v)));
        [| |exact Hq]; [done|].
      apply Forall_kept_entries.
      eapply Forall_impl; [exact IH|]. now intros [k x] Hx _.
    + apply Forall_entries_keys, own_written_Forall, Forall_kept_entries.
      eapply Forall_impl; [exact IH|]. now intros [k x] Hx Hk.
Qed.

Lemma strings_bounded n data :
  maxLen = Some n →
  Forall (λ s, (length s ≤ n + 3)%nat)
    (all_strings (removeFields data fields maxLen)).
Proof.
  intros Hn.
  induction data as [| | | |s|items IH|p es _ IH] using JValue_nested_ind;
    try constructor.
  - rewrite Hn, removeFields_string. simpl. constructor; [|constructor].
    apply length_truncated.
  - rewrite removeFields_array.
    induction IH as [|x l Hx _ IHl]; [constructor|].
    rewrite fmap_cons. simpl. apply Forall_app. split; [exact Hx|exact IHl].
  - rewrite removeFields_object, all_strings_object.
    apply Forall_app. split.
    + destruct (proto_written None _) as [q|] eqn:Hq; [|constructor].
      eapply (proto_written_values
                (λ v, Forall (λ s, (length s ≤ n + 3)%nat) (all_strings v)));
        [| |exact Hq]; [done|].
      apply Forall_kept_entries.
      eapply Forall_impl; [exact IH|]. now intros [k x] Hx _.
    + apply Forall_entries_strings, own_written_Forall, Forall_kept_entries.
      eapply Forall_impl; [exact IH|]. now intros [k x] Hx Hk.
Qed.


(** *** Values without a key [__proto__] *)

Lemma kept_entries_ordinary es :
  Forall (λ e, e.1 ≠ proto_key) es →
  Forall (λ e, e.1 ≠ proto_key) (kept_entries fields maxLen es).
Proof.
  intros H. apply Forall_kept_entries.
  eapply Forall_impl; [exact H|]. now intros [k x] Hk _.
Qed.

Lemma removeFields_plain data :
  Forall (λ k, k ≠ proto_key) (all_keys data) →
  plain (removeFields data fields maxLen) = true.
Proof.
  induction data as [| | | |s|items IH|p es _ IH] using JValue_nested_ind;
    intros Hkeys; try reflexivity.
  - simpl. destruct maxLen as [n|]; [|done]. now destruct (n <? length s)%nat.
  - rewrite removeFields_array. simpl in *.
    induction IH as [|x l Hx _ IHl]; [done|].
    rewrite fmap_cons. simpl in *. apply Forall_app in Hkeys as [H1 H2].
    now rewrite Hx, IHl.
  - rewrite removeFields_object.
    rewrite all_keys_object in Hkeys. apply Forall_app in Hkeys as [_ Hkeys].
    apply Forall_entries_keys in Hkeys.
    assert (Hord : Forall (λ e, e.1 ≠ proto_key)
                     (kept_entries fields maxLen es)).
    { apply kept_entries_ordinary.
      eapply Forall_impl; [exact Hkeys|]. now intros [k x] [Hk _]. }
    rewrite proto_written_ordinary, own_written_ordinary by done.
    rewrite plain_object. simpl. clear Hord.
    induction IH as [|[k x] l Hx _ IHl]; [done|].
    apply Forall_cons in Hkeys as [[Hk Hxk] Hkeys]. simpl in *.
    destruct (includes fields k); simpl; [now apply IHl|].
    now rewrite Hx, IHl.
Qed.

Lemma removeFields_fixed data :
  Forall (λ k, k ≠ proto_key ∧ k ∉ fields) (all_keys data) →
  plain data = true →
  (∀ n, maxLen = Some n →
        Forall (λ s, (length s ≤ n)%nat) (all_strings data)) →
  removeFields data fields maxLen = data.
Proof.
  induction data as [| | | |s|items IH|p es _ IH] using JValue_nested_ind;
    intros Hkeys Hplain Hlen; try reflexivity.
  - destruct maxLen as [n|]; [|done]. rewrite removeFields_string.
    f_equal. apply truncated_short.
    specialize (Hlen n eq_refl). now inversion Hlen.
  - rewrite removeFields_array. f_equal.
    assert (Hlen' : ∀ n, maxLen = Some n →
              Forall (λ s, (length s ≤ n)%nat) (flat_map all_strings items))
      by exact Hlen.
    simpl in Hkeys, Hplain. clear Hlen.
    induction IH as [|x l Hx _ IHl]; [done|].
    rewrite fmap_cons. simpl in Hkeys, Hlen', Hplain.
    apply Forall_app in Hkeys as [Hk1 Hk2].
    apply andb_true_iff in Hplain as [Hp1 Hp2]. f_equal.
    + apply Hx; [done|done|]. intros n Hn.
      specialize (Hlen' n Hn). now apply Forall_app in Hlen' as [? _].
    + apply IHl; [done|done|]. intros n Hn.
      specialize (Hlen' n Hn). now apply Forall_app in Hlen' as [_ ?].
  - rewrite plain_object in Hplain.
    destruct p as [q|]; [discriminate|]. simpl in Hplain.
    rewrite all_keys_object in Hkeys. simpl in Hkeys.
    apply Forall_entries_keys in Hkeys.
    assert (Hlen' : ∀ n, maxLen = Some n →
              Forall (λ e, Forall (λ s, (length s ≤ n)%nat)
                             (all_strings e.2)) es).
    { intros n Hn. apply Forall_entries_strings.
      specialize (Hlen n Hn). now rewrite all_strings_object in Hlen. }
    clear Hlen.
    assert (Hkept : kept_entries fields maxLen es = es).
    { induction IH as [|[k x] l Hx _ IHl]; [done|].
      apply Forall_cons in Hkeys as [[[Hp Hk] Hxk] Hkeys]. simpl in *.
      apply andb_true_iff in Hplain as [Hp1 Hp2].
      apply includes_false in Hk. rewrite Hk. simpl. f_equal.
      - f_equal. apply Hx; [done|done|]. intros n Hn.
        specialize (Hlen' n Hn). now apply Forall_cons in Hlen' as [? _].
      - apply IHl; [done|done|]. intros n Hn.
        specialize (Hlen' n Hn). now apply Forall_cons in Hlen' as [_ ?]. }
    rewrite removeFields_object, Hkept.
    assert (Hord : Forall (λ e, e.1 ≠ proto_key) es).
    { eapply Forall_impl; [exact Hkeys|]. now intros [k x] [[Hk _] _]. }
    now rewrite proto_written_ordinary, own_written_ordinary.
Qed.

End filter.

(** *** Filtering what was filtered *)

Lemma cloned_entries_ordinary es :
  Forall (λ e, e.1 ≠ proto_key) es →
  Forall (λ e, e.1 ≠ proto_key) (cloned_entries es).
Proof. induction 1 as [|[k v] es Hk _ IH]; [constructor|now constructor]. Qed.

Lemma kept_entries_twice f1 f2 maxLen es :
  Forall (λ e, removeFields (removeFields e.2 f1 maxLen) f2 maxLen
               = structuredClone (removeFields e.2 (f1 ++ f2) maxLen)) es →
  kept_entries f2 maxLen (own_written (kept_entries f1 maxLen es))
  = cloned_entries (own_written (kept_entries (f1 ++ f2) maxLen es)).
Proof.
  induction 1 as [|[k v] es Hv _ IH]; [done|]. simpl in *.
  rewrite includes_app.
  destruct (includes f1 k); simpl; [exact IH|].
  rewrite own_written_cons.
  destruct (includes f2 k) eqn:H2; simpl.
  - destruct (bool_decide (k = proto_key)); [exact IH|].
    simpl. now rewrite H2.
  - rewrite own_written_cons.
    destruct (bool_decide (k = proto_key)); [exact IH|].
    simpl. now rewrite H2, Hv, IH.
Qed.

(** A second pass, with the same fields or with others, finds an object
    whose prototype it leaves aside: what it returns has the own properties
    of a single pass, in objects of prototype [Object.prototype]. *)
Lemma removeFields_twice f1 f2 maxLen data :
  removeFields (removeFields data f1 maxLen) f2 maxLen
  = structuredClone (removeFields data (f1 ++ f2) maxLen).
Proof.
  induction data as [| | | |s|items IH|p es _ IH] using JValue_nested_ind;
    try reflexivity.
  - destruct maxLen as [n|]; [|reflexivity].
    now rewrite !removeFields_string, truncated_idemp.
  - rewrite !removeFields_array. simpl. f_equal.
    induction IH as [|x l Hx _ IHl]; [done|].
    rewrite !fmap_cons. simpl. now rewrite Hx, IHl.
  - rewrite (removeFields_object p es f1), (removeFields_object p es (f1 ++ f2)).
    rewrite removeFields_object, structuredClone_object.
    rewrite kept_entries_twice by done.
    assert (Hord : Forall (λ e, e.1 ≠ proto_key)
              (cloned_entries
                 (own_written (kept_entries (f1 ++ f2) maxLen es)))).
    { apply cloned_entries_ordinary, own_written_is_ordinary. }
    now rewrite proto_written_ordinary, own_written_ordinary.
Qed.

Lemma removeFields_same_fields f f' maxLen data :
  (∀ k, k ∈ f ↔ k ∈ f') →
  removeFields data f maxLen = removeFields data f' maxLen.
Proof.
  intros Hf.
  assert (Hinc : ∀ k, includes f k = includes f' k).
  { intros k. unfold includes. apply bool_decide_ext, Hf. }
  induction data as [| | | |s|items IH|p es _ IH] using JValue_nested_ind;
    try reflexivity.
  - rewrite !removeFields_array. f_equal.
    induction IH as [|x l Hx _ IHl]; [done|].
    rewrite !fmap_cons. now rewrite Hx, IHl.
  - rewrite !removeFields_object.
    assert (Hkept : kept_entries f maxLen es = kept_entries f' maxLen es).
    { induction IH as [|[k x] l Hx _ IHl]; [done|].
      simpl in *. rewrite Hinc, Hx, IHl. reflexivity. }
    now rewrite Hkept.
Qed.




Lemma structuredClone_plain v : plain v = true → structuredClone v = v.
Proof.
  induction v as [| | | |s|items IH|p es _ IH] using JValue_nested_ind;
    intros Hv; try reflexivity.
  - simpl in *. f_equal.
    induction IH as [|x l Hx _ IHl]; [done|]. simpl in *.
    apply andb_true_iff in Hv as [H1 H2]. now rewrite Hx, IHl.
  - rewrite plain_object in Hv. rewrite structuredClone_object.
    destruct p as [q|]; [discriminate|]. simpl in Hv. f_equal.
    induction IH as [|[k x] l Hx _ IHl]; [done|]. simpl in *.
    apply andb_true_iff in Hv as [H1 H2]. now rewrite Hx, IHl.
Qed.

(** ** JSON.parse: the fuel is enough *)

Lemma skip_ws_length s : (length (skip_ws s) ≤ length s)%nat.
Proof.
  induction s as [|c s IH]; simpl; [lia|].
  destruct (is_json_ws c); simpl; lia.
Qed.

Lemma parse_string_body_length : ∀ s str r,
  parse_string_body s = Some (str, r) → (length r < length s)%nat.
Proof.
  fix IH 1. intros [|c s] str r H; [discriminate|].
  simpl in H. destruct (c =? 34).
  { injection H as <- <-. simpl. lia. }
  destruct (c =? 92).
  { destruct s as [|e s]; [discriminate|].
    destruct (e =? 117).
    - destruct s as [|h1 [|h2 [|h3 [|h4 s]]]]; try discriminate.
      destruct (hex4 h1 h2 h3 h4); [|discriminate].
      destruct (parse_string_body s) as [[str' r']|] eqn:E; [|discriminate].
      injection H as <- <-. apply IH in E. simpl. lia.
    - destruct (escape_char e); [|discriminate].
      destruct (parse_string_body s) as [[str' r']|] eqn:E; [|discriminate].
      injection H as <- <-. apply IH in E. simpl. lia. }
  destruct (c <? 32); [discriminate|].
  destruct (parse_string_body s) as [[str' r']|] eqn:E; [|discriminate].
  injection H as <- <-. apply IH in E. simpl. lia.
Qed.

Lemma span_digits_length s :
  (length (span_digits s).2 ≤ length s)%nat.
Proof.
  induction s as [|c s IH]; simpl; [lia|].
  destruct (is_digit c); simpl; [|lia].
  destruct (span_digits s). simpl in *. lia.
Qed.

Lemma parse_number_length s n r :
  parse_number s = Some (n, r) → (length r < length s)%nat.
Proof.
  unfold parse_number. intros H.
  assert (Hsign : ∃ neg s1, (match s with
                  | c :: r0 => if c =? 45 then (true, r0) else (false, s)
                  | [] => (false, s)
                  end) = (neg, s1) ∧ (length s1 ≤ length s)%nat).
  { destruct s as [|c r0]; [now exists false, []|].
    destruct (c =? 45); [exists true, r0|exists false, (c :: r0)];
      split; simpl; try done; lia. }
  destruct Hsign as (neg & s1 & Hs & Hl1). rewrite Hs in H.
  destruct s1 as [|c r1]; [discriminate|].
  destruct (negb (is_digit c)) eqn:Hd; [discriminate|].
  assert (Hint : ∃ ints s2,
             (if c =? 48 then ([c], r1) else span_digits (c :: r1))
             = (ints, s2) ∧ (length s2 ≤ length r1)%nat).
  { destruct (c =? 48); [now exists [c], r1|].
    pose proof (span_digits_length r1) as Hl. simpl.
    apply negb_false_iff in Hd. rewrite Hd.
    destruct (span_digits r1) as [ds s']. now exists (c :: ds), s'. }
  destruct Hint as (ints & s2 & Hi & Hl2). rewrite Hi in H.
  assert (Hfrac : ∀ fs s3,
             (match s2 with
              | d :: r2 =>
                  if d =? 46 then
                    let '(fs, s3) := span_digits r2 in
                    match fs with [] => None | _ :: _ => Some (fs, s3) end
                  else Some ([], s2)
              | [] => Some ([], s2)
              end) = Some (fs, s3) → (length s3 ≤ length s2)%nat).
  { intros fs s3. destruct s2 as [|d r2]; [intros [= <- <-]; lia|].
    destruct (d =? 46); [|intros [= <- <-]; lia].
    pose proof (span_digits_length r2) as Hl.
    destruct (span_digits r2) as [[|f fs'] s3']; [discriminate|].
    intros [= <- <-]. simpl in *. lia. }
  destruct (match s2 with [] => _ | _ => _ end) as [[fs s3]|]; [|discriminate].
  specialize (Hfrac fs s3 eq_refl).
  simpl in Hl1.
  destruct s3 as [|e r3]; [injection H as <- <-; simpl in *; lia|].
  destruct ((e =? 101) || (e =? 69)); [|injection H as <- <-; simpl in *; lia].
  assert (Hexp : ∃ eneg r4,
            (match r3 with
             | sg :: r3' =>
                 if sg =? 43 then (false, r3')
                 else if sg =? 45 then (true, r3') else (false, r3)
             | [] => (false, r3)
             end) = (eneg, r4) ∧ (length r4 ≤ length r3)%nat).
  { destruct r3 as [|sg r3']; [now exists false, []|].
    destruct (sg =? 43); [exists false, r3'; split; simpl; [done|lia]|].
    destruct (sg =? 45); [exists true, r3'; split; simpl; [done|lia]|].
    now exists false, (sg :: r3'). }
  destruct Hexp as (eneg & r4 & He & Hl4). rewrite He in H.
  pose proof (span_digits_length r4) as Hl5.
  destruct (span_digits r4) as [[|d es] s5]; [discriminate|].
  injection H as <- <-. simpl in *. lia.
Qed.

Lemma startsWith_length : ∀ w s,
  startsWith s w = true → (length w ≤ length s)%nat.
Proof.
  induction w as [|p w IH]; intros [|c s] H; simpl in *; try lia; try done.
  apply andb_true_iff in H as [_ H]. apply IH in H. lia.
Qed.

Lemma expect_word_length w v s x r :
  expect_word w v s = Some (x, r) → w ≠ [] → (length r < length s)%nat.
Proof.
  unfold expect_word. destruct (startsWith s w) eqn:Hs; [|discriminate].
  intros [= <- <-] Hw. apply startsWith_length in Hs.
  rewrite length_drop. destruct w; [done|]. simpl in *. lia.
Qed.

Lemma parse_fuel_ok f :
  value_fuel_ok f ∧ elements_fuel_ok f ∧ members_fuel_ok f.
Proof.
  induction f as [|f (IHV & IHE & IHM)].
  { repeat split; repeat intro; discriminate. }
  split; [|split].
  - intros [|c s0] v r H; [discriminate|].
    cbn [parse_value] in H.
    destruct (c =? 34) eqn:E1.
    { destruct (parse_string_body s0) as [[str rest]|] eqn:Es; [|discriminate].
      injection H as <- <-. pose proof (parse_string_body_length _ _ _ Es).
      split; [simpl; lia|]. intros [|f'] Hf'; [simpl in *; lia|].
      cbn [parse_value]. now rewrite E1, Es. }
    destruct (c =? 91) eqn:E2.
    { pose proof (skip_ws_length s0) as Hw.
      destruct (skip_ws s0) as [|c' r'] eqn:Ew; [discriminate|].
      destruct (c' =? 93) eqn:E3.
      - injection H as <- <-. simpl in *. split; [lia|].
        intros [|f'] Hf'; [lia|].
        cbn [parse_value]. now rewrite E1, E2, Ew, E3.
      - destruct (parse_elements f (c' :: r') []) as [[items rest]|] eqn:Ee;
          [|discriminate].
        injection H as <- <-. apply IHE in Ee as [Hlen Hfuel].
        simpl in *. split; [lia|]. intros [|f'] Hf'; [lia|].
        cbn [parse_value]. rewrite E1, E2, Ew, E3, Hfuel; [done|simpl; lia]. }
    destruct (c =? 123) eqn:E4.
    { pose proof (skip_ws_length s0) as Hw.
      destruct (skip_ws s0) as [|c' r'] eqn:Ew; [discriminate|].
      destruct (c' =? 125) eqn:E3.
      - injection H as <- <-. simpl in *. split; [lia|].
        intros [|f'] Hf'; [lia|].
        cbn [parse_value]. now rewrite E1, E2, E4, Ew, E3.
      - destruct (parse_members f (c' :: r') []) as [[es rest]|] eqn:Ee;
          [|discriminate].
        injection H as <- <-. apply IHM in Ee as [Hlen Hfuel].
        simpl in *. split; [lia|]. intros [|f'] Hf'; [lia|].
        cbn [parse_value].
        rewrite E1, E2, E4, Ew, E3, Hfuel; [done|simpl; lia]. }
    destruct (c =? 116) eqn:E5.
    { pose proof (expect_word_length _ _ _ _ _ H ltac:(discriminate)).
      split; [done|]. intros [|f'] Hf'; [lia|].
      cbn [parse_value]. now rewrite E1, E2, E4, E5. }
    destruct (c =? 102) eqn:E6.
    { pose proof (expect_word_length _ _ _ _ _ H ltac:(discriminate)).
      split; [done|]. intros [|f'] Hf'; [lia|].
      cbn [parse_value]. now rewrite E1, E2, E4, E5, E6. }
    destruct (c =? 110) eqn:E7.
    { pose proof (expect_word_length _ _ _ _ _ H ltac:(discriminate)).
      split; [done|]. intros [|f'] Hf'; [lia|].
      cbn [parse_value]. now rewrite E1, E2, E4, E5, E6, E7. }
    destruct (parse_number (c :: s0)) as [[n rest]|] eqn:En; [|discriminate].
    injection H as <- <-. pose proof (parse_number_length _ _ _ En).
    split; [done|]. intros [|f'] Hf'; [lia|].
    cbn [parse_value]. now rewrite E1, E2, E4, E5, E6, E7, En.
  - intros s acc x r H. cbn [parse_elements] in H.
    destruct (parse_value f s) as [[v rest]|] eqn:Ev; [|discriminate].
    apply IHV in Ev as [Hlen Hfuel].
    pose proof (skip_ws_length rest) as Hw.
    destruct (skip_ws rest) as [|c r1] eqn:Ew; [discriminate|].
    destruct (c =? 44) eqn:E1.
    + apply IHE in H as [Hlen' Hfuel'].
      pose proof (skip_ws_length r1) as Hw1. simpl in *.
      split; [lia|]. intros [|f'] Hf'; [lia|].
      cbn [parse_elements].
      rewrite Hfuel by lia. rewrite Ew, E1. apply Hfuel'. lia.
    + destruct (c =? 93) eqn:E2; [|discriminate].
      injection H as <- <-. simpl in *. split; [lia|].
      intros [|f'] Hf'; [lia|]. cbn [parse_elements].
      rewrite Hfuel by lia. now rewrite Ew, E1, E2.
  - intros [|q s0] acc x r H; [discriminate|].
    cbn [parse_members] in H.
    destruct (negb (q =? 34)) eqn:Eq; [discriminate|].
    destruct (parse_string_body s0) as [[k rest]|] eqn:Es; [|discriminate].
    pose proof (parse_string_body_length _ _ _ Es) as Hk.
    pose proof (skip_ws_length rest) as Hw.
    destruct (skip_ws rest) as [|colon r1] eqn:Ew; [discriminate|].
    destruct (negb (colon =? 58)) eqn:Ec; [discriminate|].
    pose proof (skip_ws_length r1) as Hw1.
    destruct (parse_value f (skip_ws r1)) as [[v rest']|] eqn:Ev;
      [|discriminate].
    apply IHV in Ev as [Hlen Hfuel].
    pose proof (skip_ws_length rest') as Hw2.
    destruct (skip_ws rest') as [|c r2] eqn:Ew2; [discriminate|].
    destruct (c =? 44) eqn:E1.
    + apply IHM in H as [Hlen' Hfuel'].
      pose proof (skip_ws_length r2) as Hw3. simpl in *.
      split; [lia|]. intros [|f'] Hf'; [lia|].
      cbn [parse_members]. rewrite Eq, Es, Ew, Ec.
      rewrite Hfuel by lia. rewrite Ew2, E1. apply Hfuel'. lia.
    + destruct (c =? 125) eqn:E2; [|discriminate].
      injection H as <- <-. simpl in *. split; [lia|].
      intros [|f'] Hf'; [lia|]. cbn [parse_members].
      rewrite Eq, Es, Ew, Ec. rewrite Hfuel by lia.
      now rewrite Ew2, E1, E2.
Qed.

(** [JSON_parse] rejects a text only when no amount of fuel reads a value
    from it that is followed by white space alone. *)
Lemma JSON_parse_fuel text fuel v rest :
  parse_value fuel (skip_ws text) = Some (v, rest) → skip_ws rest = [] →
  JSON_parse text = Some v.
Proof.
  intros H Hrest. unfold JSON_parse.
  destruct (parse_fuel_ok fuel) as (HV & _ & _).
  apply HV in H as [_ Hfuel]. rewrite Hfuel.
  - now rewrite Hrest.
  - pose proof (skip_ws_length text). lia.
Qed.

(** ** The line loop and the read loop *)

Section loops.

Variable body : list Z → LineEffect.

Lemma run_lines_app l1 l2 :
  run_lines body (l1 ++ l2) =
  let '(o1, s1) := run_lines body l1 in
  if s1 then (o1, true)
  else let '(o2, s2) := run_lines body l2 in (o1 ++ o2, s2).
Proof.
  induction l1 as [|line l1 IH]; simpl.
  - now destruct (run_lines body l2).
  - destruct (body line); [exact IH| |reflexivity].
    rewrite IH. destruct (run_lines body l1) as [o1 [|]]; [reflexivity|].
    now destruct (run_lines body l2).
Qed.

Lemma run_lines_stop pre line post :
  body line = Stop →
  run_lines body (pre ++ line :: post) = (fst (run_lines body pre), true).
Proof.
  intros H. rewrite run_lines_app. simpl. rewrite H.
  destruct (run_lines body pre) as [o1 [|]]; simpl; [reflexivity|].
  now rewrite app_nil_r.
Qed.


Lemma read_loop_value value rest :
  read_loop body (ReadValue value :: rest) =
  let '(out, stop) := run_lines body (split_lines (TextDecoder_decode value)) in
  if stop then mkRun out Returned rest
  else let r := read_loop body rest in
       mkRun (out ++ yielded r) (completion r) (unread r).
Proof. reflexivity. Qed.

Lemma read_loop_deliver_app before reader :
  snd (run_lines body (lines_of before)) = false →
  read_loop body (deliver before ++ reader) =
  let r := read_loop body reader in
  mkRun (fst (run_lines body (lines_of before)) ++ yielded r)
    (completion r) (unread r).
Proof.
  induction before as [|c cs IH]; intros Hgo.
  - simpl. now destruct (read_loop body reader).
  - change (deliver (c :: cs) ++ reader)
      with (ReadValue c :: (deliver cs ++ reader)).
    rewrite read_loop_value.
    change (lines_of (c :: cs))
      with (split_lines (TextDecoder_decode c) ++ lines_of cs) in *.
    rewrite run_lines_app in Hgo |- *.
    destruct (run_lines body (split_lines (TextDecoder_decode c)))
      as [o1 [|]]; [discriminate Hgo|].
    destruct (run_lines body (lines_of cs)) as [o2 s2] eqn:H2.
    simpl in Hgo. subst s2. rewrite IH by reflexivity.
    simpl. now rewrite app_assoc.
Qed.

Lemma read_loop_deliver chunks :
  yielded (read_loop body (deliver chunks))
  = fst (run_lines body (lines_of chunks))
  ∧ completion (read_loop body (deliver chunks)) = Returned.
Proof.
  induction chunks as [|c cs [IHy IHc]]; [done|].
  change (deliver (c :: cs)) with (ReadValue c :: deliver cs).
  rewrite read_loop_value.
  change (lines_of (c :: cs))
    with (split_lines (TextDecoder_decode c) ++ lines_of cs).
  rewrite run_lines_app.
  destruct (run_lines body (split_lines (TextDecoder_decode c)))
    as [o1 [|]]; [done|].
  simpl. rewrite IHy, IHc.
  now destruct (run_lines body (lines_of cs)).
Qed.


End loops.

(** ** The two line bodies *)

Lemma text_line_done line :
  startsWith line (js "data: ") = true →
  trim (drop 6 line) = js "[DONE]" →
  text_line line = Stop.
Proof.
  intros Hp Hd. unfold text_line. rewrite Hp, Hd.
  now rewrite bool_decide_eq_true_2.
Qed.

Lemma raw_line_done line :
  startsWith line (js "data: ") = true →
  trim (drop 6 line) = js "[DONE]" →
  raw_line line = Stop.
Proof.
  intros Hp Hd. unfold raw_line. rewrite Hp, Hd.
  now rewrite bool_decide_eq_true_2.
Qed.



(** ** Chunk boundaries *)

Lemma utf8_lead_wf b : utf8_wf (utf8_lead b).1.
Proof.
  unfold utf8_lead, utf8_wf.
  repeat (match goal with |- context [if ?c then _ else _] => destruct c end);
    simpl; lia.
Qed.

Lemma utf8_handler_wf st b : utf8_wf (utf8_handler st b).1.
Proof.
  unfold utf8_handler.
  destruct (bytes_needed st =? 0); [apply utf8_lead_wf|].
  destruct (negb _).
  - pose proof (utf8_lead_wf b) as H. now destruct (utf8_lead b).
  - destruct (_ =? _); unfold utf8_wf; simpl; lia.
Qed.

Lemma utf8_handler_line_feed st :
  utf8_wf st →
  utf8_handler st 0x0A = (utf8_init, [0x0A])
  ∨ utf8_handler st 0x0A = (utf8_init, [0xFFFD; 0x0A]).
Proof.
  intros Hwf. unfold utf8_handler.
  destruct (bytes_needed st =? 0) eqn:Hn; [now left|].
  right. destruct Hwf as [H0|Hlow]; [apply Z.eqb_neq in Hn; lia|].
  unfold in_range. replace (lower_boundary st <=? 10) with false; [done|].
  symmetry. apply Z.leb_gt. lia.
Qed.

Lemma utf8_run_line_feed c : ∀ st rest,
  utf8_wf st →
  ∃ pre, utf8_run st (c ++ [0x0A]) = pre ++ [0x0A]
         ∧ utf8_run st (c ++ 0x0A :: rest)
           = pre ++ 0x0A :: utf8_run utf8_init rest.
Proof.
  induction c as [|b c IH]; intros st rest Hwf.
  - simpl. destruct (utf8_handler_line_feed st Hwf) as [-> | ->].
    + now exists [].
    + now exists [0xFFFD].
  - simpl. pose proof (utf8_handler_wf st b) as Hwf'.
    destruct (utf8_handler st b) as [st' out]. simpl in Hwf'.
    destruct (IH st' rest Hwf') as (pre & H1 & H2).
    exists (out ++ pre). rewrite H1, H2. now rewrite <- !app_assoc.
Qed.

Lemma utf8_init_wf : utf8_wf utf8_init.
Proof. now left. Qed.

Lemma strip_bom_no_bom c :
  no_bom c = true → strip_bom (utf8_run utf8_init c) = utf8_run utf8_init c.
Proof.
  unfold no_bom, strip_bom. destruct (utf8_run utf8_init c) as [|u r]; [done|].
  intros H. apply negb_true_iff in H. now rewrite H.
Qed.

Lemma strip_bom_line_feed pre tail :
  ∃ pre', strip_bom (pre ++ 0x0A :: tail) = pre' ++ 0x0A :: tail.
Proof.
  destruct pre as [|u pre]; simpl.
  - now exists [].
  - destruct (u =? 0xFEFF); [now exists pre|now exists (u :: pre)].
Qed.

(** A chunk ending with a line feed decodes on its own. *)
Lemma decode_line_feed c rest :
  no_bom rest = true →
  ∃ t, TextDecoder_decode (c ++ [0x0A]) = t ++ [0x0A]
       ∧ TextDecoder_decode ((c ++ [0x0A]) ++ rest)
         = t ++ 0x0A :: TextDecoder_decode rest.
Proof.
  intros Hbom. unfold TextDecoder_decode.
  destruct (utf8_run_line_feed c utf8_init rest utf8_init_wf)
    as (pre & H1 & H2).
  rewrite <- app_assoc. simpl. rewrite H1, H2.
  rewrite (strip_bom_no_bom rest Hbom).
  destruct pre as [|u pre]; simpl.
  - now exists [].
  - destruct (u =? 0xFEFF).
    + exists (flat_map utf16_units pre).
      now rewrite !flat_map_app.
    + exists (flat_map utf16_units (u :: pre)).
      simpl. rewrite !flat_map_app. simpl. now rewrite <- !app_assoc.
Qed.

Lemma no_bom_line_feed c rest :
  no_bom (c ++ [0x0A]) = true → no_bom ((c ++ [0x0A]) ++ rest) = true.
Proof.
  unfold no_bom.
  destruct (utf8_run_line_feed c utf8_init rest utf8_init_wf)
    as (pre & H1 & H2).
  rewrite <- app_assoc. simpl. rewrite H1, H2.
  now destruct pre.
Qed.

Lemma split_lines_nonempty text : split_lines text ≠ [].
Proof.
  destruct text as [|c text]; simpl; [done|].
  destruct (c =? 10); [done|]. now destruct (split_lines text).
Qed.

Lemma split_lines_line_feed t u :
  split_lines (t ++ 0x0A :: u) = split_lines t ++ split_lines u.
Proof.
  induction t as [|c t IH]; simpl; [done|].
  destruct (c =? 10); [now rewrite IH|].
  rewrite IH. pose proof (split_lines_nonempty t).
  now destruct (split_lines t).
Qed.

Lemma nonblank_app l1 l2 : nonblank (l1 ++ l2) = nonblank l1 ++ nonblank l2.
Proof. apply filter_app. Qed.

Lemma nonblank_blank : nonblank [[]] = [].
Proof.
  unfold nonblank. now rewrite filter_cons_False by (intros H; now apply H).
Qed.

Lemma ends_line_inv c :
  ends_line c = true → c = [] ∨ ∃ c0, c = c0 ++ [0x0A].
Proof.
  unfold ends_line. destruct (last c) as [b|] eqn:Hl.
  - intros Hb. apply Z.eqb_eq in Hb as ->.
    right. now apply last_Some in Hl.
  - intros _. left. now apply last_None in Hl.
Qed.

Lemma no_bom_concat chunks :
  forallb no_bom chunks = true → line_aligned chunks = true →
  no_bom (concat chunks) = true.
Proof.
  induction chunks as [|c cs IH]; [done|].
  intros Hb Ha. simpl in Hb. apply andb_true_iff in Hb as [Hc Hcs].
  destruct cs as [|c' cs']; [simpl; now rewrite app_nil_r|].
  simpl in Ha. apply andb_true_iff in Ha as [Ha Hal].
  apply andb_true_iff in Ha as [He _].
  specialize (IH Hcs Hal).
  change (concat (c :: c' :: cs')) with (c ++ concat (c' :: cs')).
  destruct (ends_line_inv c He) as [->|[c0 ->]]; [exact IH|].
  now apply no_bom_line_feed.
Qed.

Lemma lines_of_aligned chunks :
  line_aligned chunks = true →
  nonblank (lines_of chunks)
  = nonblank (split_lines (TextDecoder_decode (concat chunks))).
Proof.
  induction chunks as [|c cs IH]; [done|]. intros Ha.
  change (lines_of (c :: cs))
    with (split_lines (TextDecoder_decode c) ++ lines_of cs).
  change (concat (c :: cs)) with (c ++ concat cs).
  destruct cs as [|c' cs'].
  - simpl. now rewrite !app_nil_r.
  - simpl in Ha. apply andb_true_iff in Ha as [Ha Hal].
    apply andb_true_iff in Ha as [He Hb].
    rewrite nonblank_app, (IH Hal).
    destruct (ends_line_inv c He) as [->|[c0 ->]]; [done|].
    destruct (decode_line_feed c0 (concat (c' :: cs'))
                (no_bom_concat (c' :: cs') Hb Hal)) as (t & H1 & H2).
    rewrite H1, H2.
    rewrite (split_lines_line_feed t []), split_lines_line_feed.
    rewrite !nonblank_app. simpl (split_lines []).
    now rewrite nonblank_blank, app_nil_r.
Qed.

Lemma text_line_blank : text_line [] = Skip.
Proof. reflexivity. Qed.

Lemma raw_line_blank : raw_line [] = Skip.
Proof. reflexivity. Qed.

Section aligned.

Variable body : list Z → LineEffect.
Hypothesis body_blank : body [] = Skip.

Lemma run_lines_nonblank lines :
  run_lines body (nonblank lines) = run_lines body lines.
Proof.
  induction lines as [|l ls IH]; [done|].
  unfold nonblank in *. destruct l as [|c l].
  - rewrite filter_cons_False by (intros H; now apply H).
    simpl. now rewrite body_blank.
  - rewrite filter_cons_True by done. simpl. now rewrite IH.
Qed.

(** Chunks cut at line feeds yield what their bytes yield in one chunk. *)
Lemma read_loop_aligned chunks :
  line_aligned chunks = true →
  yielded (read_loop body (deliver chunks))
  = yielded (read_loop body (deliver [concat chunks]))
  ∧ completion (read_loop body (deliver chunks))
    = completion (read_loop body (deliver [concat chunks])).
Proof.
  intros Ha.
  destruct (read_loop_deliver body chunks) as [-> ->].
  destruct (read_loop_deliver body [concat chunks]) as [-> ->].
  split; [|reflexivity].
  rewrite <- (run_lines_nonblank (lines_of chunks)).
  rewrite <- (run_lines_nonblank (lines_of [concat chunks])).
  rewrite (lines_of_aligned chunks Ha).
  unfold lines_of. simpl. now rewrite app_nil_r.
Qed.

(** Two such cuttings of the same bytes yield the same. *)
Lemma read_loop_aligned_alike chunks1 chunks2 :
  concat chunks1 = concat chunks2 →
  line_aligned chunks1 = true → line_aligned chunks2 = true →
  yielded (read_loop body (deliver chunks1))
  = yielded (read_loop body (deliver chunks2))
  ∧ completion (read_loop body (deliver chunks1))
    = completion (read_loop body (deliver chunks2)).
Proof.
  intros Hcat H1 H2.
  destruct (read_loop_aligned chunks1 H1) as [-> ->].
  destruct (read_loop_aligned chunks2 H2) as [-> ->].
  now rewrite Hcat.
Qed.

End aligned.


(** * Statements *)

(** ** Tree indexing *)

(** C4.  The flattened list is the canonical pre-order of the forest: it
    lists the node at every position of the forest exactly once, in document
    order, so a node precedes its children, children follow their listed
    order, and each root's tree is exhausted before the next root. *)
Theorem getAllNodes_preorder (tree : TreeInput) :
  Forall2 (λ p n, node_at (roots tree) p = Some n)
    (positions (roots tree)) (getAllNodes tree)
  ∧ StronglySorted path_lt (positions (roots tree))
  ∧ (∀ p, is_Some (node_at (roots tree) p) ↔ p ∈ positions (roots tree)).
Proof.
  assert (Hnodes : Forall2 (λ p n, node_at (roots tree) p = Some n)
            (positions (roots tree)) (getAllNodes tree)).
  { rewrite getAllNodes_roots.
    apply (positions_from_nodes (roots tree)) with (pre := []).
    apply Forall_forall. intros c _. apply positions1_nodes. }
  split; [exact Hnodes|]. split.
  - apply positions_from_sorted, Forall_forall. intros c _.
    apply positions1_sorted.
  - intros p. split.
    + intros [n Hn]. eapply node_at_positions, Hn.
    + intros Hp. apply list_elem_of_lookup in Hp as [i Hi].
      destruct (Forall2_lookup_l _ _ _ _ _ Hnodes Hi) as (n & _ & Hn).
      now exists n.
Qed.

(** C1, as worded, fails: a node with an id that is followed by a node
    without one takes the page of that node, not the maximum page. *)
Lemma last_id_ends_at_max_fails : ¬ last_id_ends_at_max sample_trailing 10.
Proof.
  intros H.
  destruct (H 0%nat (leaf (Some (js "a")) (Some 1)) (js "a")) as (e & He & Hend).
  - reflexivity.
  - reflexivity.
  - discriminate.
  - scan_positions.
  - rewrite (flattenToPageRanges_last sample_trailing (Some 10) 0
               (leaf (Some (js "a")) (Some 1)) (js "a")) in He.
    + injection He as <-. discriminate Hend.
    + reflexivity.
    + reflexivity.
    + discriminate.
    + discriminate.
    + scan_positions.
Qed.

(** C1, as worded, fails as well when the last node with an id has the
    id [__proto__]: the map has no key of that name. *)
Lemma last_id_ends_at_max_fails_on_proto :
  ¬ last_id_ends_at_max (Single (leaf (Some proto_key) (Some 1))) 10.
Proof.
  intros H.
  destruct (H 0%nat (leaf (Some proto_key) (Some 1)) proto_key)
    as (e & He & _).
  - reflexivity.
  - reflexivity.
  - discriminate.
  - scan_positions.
  - now rewrite flattenToPageRanges_proto_key in He.
Qed.

(** C1, amended.  For a key [k] other than [__proto__], the page-range
    map binds [k] to [e] exactly when [k] is a non-empty id and, [i] being
    the last position of the flattened list whose node carries [k], [e]
    holds that node, its own page as start, and as end the page of the node
    at position [i + 1], whether or not that node has an id; when there is
    no such node, the end is the maximum page, that is [P] when supplied and
    unset when not. *)
Theorem page_ranges_by_position (tree : TreeInput) (maxPage : option Z)
    (k : list Z) (e : PageRangeInfo) :
  k ≠ proto_key →
  flattenToPageRanges tree maxPage !! k = Some e
  ↔ ∃ i n,
      getAllNodes tree !! i = Some n ∧ node_id n = Some k ∧ k ≠ []
      ∧ last_with_id (getAllNodes tree) i k
      ∧ node e = n
      ∧ start_index e = page_index n
      ∧ (∀ next, getAllNodes tree !! S i = Some next →
                 end_index e = page_index next)
      ∧ (getAllNodes tree !! S i = None → end_index e = maxPage).
Proof.
  intros Hp. split.
  - intros He. apply flattenToPageRanges_inv in He
      as (i & n & Hi & Hid & Hk & _ & Hlast & ->).
    exists i, n. unfold range_entry. simpl. repeat split; try done.
    + intros next Hnext. now rewrite Hnext.
    + intros Hnone. now rewrite Hnone.
  - intros (i & n & Hi & Hid & Hk & Hlast & Hn & Hs & Hnext & Hnone).
    rewrite (flattenToPageRanges_last tree maxPage i n k) by done.
    f_equal. destruct e as [en es ee]. unfold range_entry. simpl in *.
    subst en es. f_equal.
    destruct (getAllNodes tree !! S i) as [next|]; symmetry; auto.
Qed.

Lemma page_ranges_by_position_witness :
  flattenToPageRanges (Single sample_tree) (Some 10) !! js "b"
  = Some (mkPageRangeInfo (leaf (Some (js "b")) (Some 3)) (Some 3) (Some 10)).
Proof.
  apply (page_ranges_by_position (Single sample_tree) (Some 10));
    [discriminate|].
  exists 2%nat, (leaf (Some (js "b")) (Some 3)).
  repeat split; try discriminate.
  scan_positions.
Defined.

(** The example of the specification: the tree [r] with children [a] and
    [b], and a maximum page of 10. *)
Example page_ranges_of_sample_tree :
  getAllNodes (Single sample_tree)
  = [sample_tree; leaf (Some (js "a")) (Some 1); leaf (Some (js "b")) (Some 3)]
  ∧ flattenToPageRanges (Single sample_tree) (Some 10)
    = {[ js "r" := mkPageRangeInfo sample_tree (Some 1) (Some 1);
         js "a" := mkPageRangeInfo (leaf (Some (js "a")) (Some 1))
                     (Some 1) (Some 3);
         js "b" := mkPageRangeInfo (leaf (Some (js "b")) (Some 3))
                     (Some 3) (Some 10) ]}
  ∧ range_prototype (Single sample_tree) (Some 10) = None.
Proof. split; [reflexivity|]. split; [|reflexivity]. vm_compute. reflexivity. Qed.

(** A node whose id is [__proto__] gets no key: the assignment makes it,
    or its entry, the prototype of the map. *)
Example proto_id_is_no_key :
  flattenToMap sample_proto_id = {[ js "a" := leaf (Some (js "a")) (Some 2) ]}
  ∧ plain_prototype sample_proto_id = Some (leaf (Some proto_key) (Some 1))
  ∧ flattenToPageRanges sample_proto_id (Some 9)
    = {[ js "a" := mkPageRangeInfo (leaf (Some (js "a")) (Some 2))
                     (Some 2) (Some 9) ]}
  ∧ range_prototype sample_proto_id (Some 9)
    = Some (mkPageRangeInfo (leaf (Some proto_key) (Some 1)) (Some 1) (Some 2)).
Proof. repeat split; vm_compute; reflexivity. Qed.

(** C3, as worded, fails: a node whose id is the empty string has an id,
    and the map has no entry for it. *)
Lemma entry_for_every_id_fails : ¬ entry_for_every_id sample_empty_id.
Proof.
  intros H. destruct (H []) as [n Hn].
  - exists (leaf (Some []) (Some 1)). split; [now left|reflexivity].
  - discriminate Hn.
Qed.

(** C3, as worded, fails as well for a node whose id is [__proto__]. *)
Lemma entry_for_every_id_fails_on_proto :
  ¬ entry_for_every_id sample_proto_id.
Proof.
  intros H. destruct (H proto_key) as [n Hn].
  - exists (leaf (Some proto_key) (Some 1)). split; [now left|reflexivity].
  - vm_compute in Hn. discriminate Hn.
Qed.

(** C3, amended.  A key other than [__proto__] is a key of the plain map
    exactly when it is a non-empty id carried by a node of the forest; the
    node stored under any key is a node of the forest carrying that key as
    its id, which is not empty; and, [__proto__] left aside, the map has one
    entry per distinct non-empty id. *)
Theorem flattenToMap_entries (tree : TreeInput) :
  (∀ k, k ≠ proto_key →
        (is_Some (flattenToMap tree !! k)
         ↔ k ≠ [] ∧ ∃ n, n ∈ getAllNodes tree ∧ node_id n = Some k))
  ∧ (∀ k n, flattenToMap tree !! k = Some n →
            n ∈ getAllNodes tree ∧ node_id n = Some k ∧ k ≠ [])
  ∧ size (delete proto_key (flattenToMap tree))
    = length (remove_dups
                (filter (λ k, k ≠ proto_key) (truthy_ids (getAllNodes tree)))).
Proof.
  split; [|split].
  - intros k Hp. rewrite <- elem_of_truthy_ids. now apply flattenToMap_key.
  - intros k n H.
    assert (Hk : k ≠ []).
    { intros ->. now rewrite flattenToMap_empty_key in H. }
    rewrite flattenToMap_eq in H.
    apply plain_fold_entries in H as [H|[H1 H2]]; [|done].
    simpl in H. now rewrite lookup_empty in H.
  - rewrite <- size_dom.
    rewrite <- (size_list_to_set (C := gset (list Z)) (remove_dups _))
      by apply NoDup_remove_dups.
    f_equal. apply set_eq. intros k.
    rewrite elem_of_dom, elem_of_list_to_set, elem_of_remove_dups.
    rewrite list_elem_of_filter, lookup_delete_is_Some.
    split.
    + intros [Hp Hk]. split; [congruence|].
      apply flattenToMap_key; [congruence|done].
    + intros [Hp Hk]. split; [congruence|]. now apply flattenToMap_key.
Qed.

Lemma flattenToMap_entries_witness :
  is_Some (flattenToMap sample_proto_id !! js "a")
  ↔ js "a" ≠ [] ∧ ∃ n, n ∈ getAllNodes sample_proto_id
                       ∧ node_id n = Some (js "a").
Proof.
  destruct (flattenToMap_entries sample_proto_id) as (H1 & _ & _).
  apply H1. discriminate.
Defined.

(** C5, as worded, fails: the empty string carried by two nodes is bound
    to neither. *)
Lemma latest_occurrence_bound_fails :
  ¬ latest_occurrence_bound sample_empty_twice None.
Proof.
  intros H.
  destruct (H 0%nat 1%nat (leaf (Some []) (Some 1)) (leaf (Some []) (Some 2)) [])
    as [Hplain _]; try reflexivity; [lia| |discriminate Hplain].
  scan_positions.
Qed.

(** C5, as worded, fails as well for the id [__proto__] carried by two
    nodes: the page-range map binds it to neither. *)
Lemma latest_occurrence_bound_fails_on_proto :
  ¬ latest_occurrence_bound sample_proto_twice None.
Proof.
  intros H.
  destruct (H 0%nat 1%nat (leaf (Some proto_key) (Some 1))
              (leaf (Some proto_key) (Some 2)) proto_key)
    as [_ Hrange]; try reflexivity; [lia| |].
  - scan_positions.
  - now rewrite flattenToPageRanges_proto_key in Hrange.
Qed.

(** C5, amended.  When a non-empty id other than [__proto__] is carried by
    several nodes, both maps bind it to the entry of the node that carries
    it latest in the traversal. *)
Theorem last_write_wins (tree : TreeInput) (maxPage : option Z)
    (i j : nat) (ni nj : TreeNode) (k : list Z) :
  (i < j)%nat →
  getAllNodes tree !! i = Some ni → node_id ni = Some k →
  getAllNodes tree !! j = Some nj → node_id nj = Some k →
  k ≠ [] → k ≠ proto_key →
  last_with_id (getAllNodes tree) j k →
  flattenToMap tree !! k = Some nj
  ∧ flattenToPageRanges tree maxPage !! k
    = Some (range_entry (getAllNodes tree) maxPage j nj).
Proof.
  intros _ _ _ Hj Hid Hk Hp Hlast. split.
  - now apply (flattenToMap_last tree j).
  - now apply flattenToPageRanges_last.
Qed.

Lemma last_write_wins_witness :
  flattenToMap sample_duplicate !! js "a" = Some (leaf (Some (js "a")) (Some 4))
  ∧ flattenToPageRanges sample_duplicate (Some 9) !! js "a"
    = Some (range_entry (getAllNodes sample_duplicate) (Some 9) 1
              (leaf (Some (js "a")) (Some 4))).
Proof.
  apply (last_write_wins sample_duplicate (Some 9) 0 1
           (leaf (Some (js "a")) (Some 1)) (leaf (Some (js "a")) (Some 4))
           (js "a")); try reflexivity.
  - lia.
  - discriminate.
  - discriminate.
  - scan_positions.
Defined.

(** C10.  The empty string is never a key of either map; both maps are what
    they would be with every empty id absent (same keys, same page ranges,
    same prototype, the stored nodes alike up to that replacement); the
    traversal keeps every node in place; and a node with an empty id at
    position [i + 1] gives its page as the end of the entry written for the
    node at position [i], an entry found under the id of that node, or in
    the prototype of the map when that id is [__proto__]. *)
Theorem empty_id_as_absent (tree : TreeInput) (maxPage : option Z) :
  flattenToMap tree !! [] = None
  ∧ flattenToPageRanges tree maxPage !! [] = None
  ∧ flattenToMap (clear_input tree) = clear_empty_ids <$> flattenToMap tree
  ∧ flattenToPageRanges (clear_input tree) maxPage
    = clear_entry <$> flattenToPageRanges tree maxPage
  ∧ plain_prototype (clear_input tree)
    = clear_empty_ids <$> plain_prototype tree
  ∧ range_prototype (clear_input tree) maxPage
    = clear_entry <$> range_prototype tree maxPage
  ∧ getAllNodes (clear_input tree)
    = List.map clear_empty_ids (getAllNodes tree)
  ∧ (∀ i n k next,
       getAllNodes tree !! i = Some n → node_id n = Some k → k ≠ [] →
       last_with_id (getAllNodes tree) i k →
       getAllNodes tree !! S i = Some next → node_id next = Some [] →
       ∃ e, end_index e = page_index next
            ∧ (k ≠ proto_key →
               flattenToPageRanges tree maxPage !! k = Some e)
            ∧ (k = proto_key → range_prototype tree maxPage = Some e)).
Proof.
  assert (Hplain :
    fold_left plain_step (getAllNodes (clear_input tree)) (mkDict ∅ None)
    = dict_map clear_empty_ids
        (fold_left plain_step (getAllNodes tree) (mkDict ∅ None))).
  { rewrite getAllNodes_clear, <- plain_fold_clear.
    now rewrite dict_map_empty. }
  assert (Hrange :
    fold_left (range_step (getAllNodes (clear_input tree)) maxPage)
      (seq 0 (length (getAllNodes (clear_input tree)))) (mkDict ∅ None)
    = dict_map clear_entry
        (fold_left (range_step (getAllNodes tree) maxPage)
           (seq 0 (length (getAllNodes tree))) (mkDict ∅ None))).
  { rewrite getAllNodes_clear, length_map, <- range_fold_clear.
    now rewrite dict_map_empty. }
  split; [|split; [|split; [|split; [|split; [|split; [|split]]]]]].
  - apply flattenToMap_empty_key.
  - apply flattenToPageRanges_empty_key.
  - now rewrite !flattenToMap_eq, Hplain.
  - now rewrite !flattenToPageRanges_eq, Hrange.
  - now rewrite !plain_prototype_eq, Hplain.
  - now rewrite !range_prototype_eq, Hrange.
  - apply getAllNodes_clear.
  - intros i n k next Hi Hid Hk Hlast Hnext _.
    exists (range_entry (getAllNodes tree) maxPage i n).
    split; [unfold range_entry; simpl; now rewrite Hnext|].
    split.
    + intros Hp. now apply flattenToPageRanges_last.
    + intros ->. now apply range_prototype_last.
Qed.

Lemma empty_id_as_absent_witness :
  ∃ e, end_index e = page_index (leaf (Some []) (Some 6))
       ∧ flattenToPageRanges sample_duplicate None !! js "a" = Some e.
Proof.
  destruct (empty_id_as_absent sample_duplicate None)
    as (_ & _ & _ & _ & _ & _ & _ & H).
  destruct (H 1%nat (leaf (Some (js "a")) (Some 4)) (js "a")
              (leaf (Some []) (Some 6))) as (e & He & Hk & _);
    try reflexivity.
  - discriminate.
  - scan_positions.
  - exists e. split; [exact He|]. apply Hk. discriminate.
Defined.

(** ** Field filtering *)



(** What the law gives on the sample. *)
Example truncation_of_sample :
  select (removeFields sample_value [js "text"] (Some 4%nat))
    [Key (js "nodes"); Index 0%nat] = Some (JString (js "abcd..."))
  ∧ select (removeFields sample_value [js "text"] (Some 4%nat))
      [Key (js "text")] = None.
Proof. split; reflexivity. Qed.


(** What the two results are, and a reading that tells them apart. *)
Example once_and_twice :
  removeFields sample_proto_member [js "text"] None
  = JObject (Some (JObject None [(js "title", JString (js "Introduction"))])) []
  ∧ removeFields (removeFields sample_proto_member [js "text"] None)
      [js "text"] None
    = JObject None []
  ∧ member (removeFields sample_proto_member [js "text"] None) (js "title")
    = JString (js "Introduction")
  ∧ member (removeFields (removeFields sample_proto_member [js "text"] None)
              [js "text"] None) (js "title")
    = JUndefined.
Proof. repeat split. Qed.



(** ** Stream decoding *)

(** C2, as worded, fails: the bytes of one line and its line feed yield
    the fragment when they come whole, and nothing when they come cut inside
    the line, in text mode and in raw mode alike. *)
Lemma chunk_boundary_changes_output :
  concat split_mid_line = concat whole_line
  ∧ yielded (streamText (deliver split_mid_line))
    ≠ yielded (streamText (deliver whole_line))
  ∧ yielded (streamRaw (deliver split_mid_line))
    ≠ yielded (streamRaw (deliver whole_line)).
Proof. repeat split; discriminate. Qed.

(** What the two deliveries yield. *)
Example line_cut_in_two :
  yielded (streamText (deliver whole_line)) = [JString (js "A")]
  ∧ yielded (streamText (deliver split_mid_line)) = []
  ∧ yielded (streamRaw (deliver whole_line)) = [chunk_A]
  ∧ yielded (streamRaw (deliver split_mid_line)) = [].
Proof. repeat split. Qed.

(** C2, amended.  Two ways of cutting the same bytes into chunks, both
    with every chunk boundary just after a line feed and with no chunk after
    the first beginning with a byte-order mark, make each decoder yield the
    same elements and end the same way. *)
Theorem aligned_chunks_decode_alike (chunks1 chunks2 : list (list Z)) :
  concat chunks1 = concat chunks2 →
  line_aligned chunks1 = true → line_aligned chunks2 = true →
  yielded (streamText (deliver chunks1))
  = yielded (streamText (deliver chunks2))
  ∧ completion (streamText (deliver chunks1))
    = completion (streamText (deliver chunks2))
  ∧ yielded (streamRaw (deliver chunks1))
    = yielded (streamRaw (deliver chunks2))
  ∧ completion (streamRaw (deliver chunks1))
    = completion (streamRaw (deliver chunks2)).
Proof.
  intros Hcat H1 H2.
  destruct (read_loop_aligned_alike text_line text_line_blank
              chunks1 chunks2 Hcat H1 H2).
  destruct (read_loop_aligned_alike raw_line raw_line_blank
              chunks1 chunks2 Hcat H1 H2).
  now repeat split.
Qed.

Lemma aligned_chunks_decode_alike_witness :
  yielded (streamText (deliver split_at_line))
  = yielded (streamText (deliver [concat split_at_line]))
  ∧ completion (streamText (deliver split_at_line))
    = completion (streamText (deliver [concat split_at_line]))
  ∧ yielded (streamRaw (deliver split_at_line))
    = yielded (streamRaw (deliver [concat split_at_line]))
  ∧ completion (streamRaw (deliver split_at_line))
    = completion (streamRaw (deliver [concat split_at_line])).
Proof.
  apply (aligned_chunks_decode_alike split_at_line [concat split_at_line]);
    reflexivity.
Defined.

(** Each chunk is decoded on its own: the two bytes of U+00E9 give that
    character in one chunk and two replacement characters in two. *)
Example character_cut_in_two :
  TextDecoder_decode [0xC3; 0xA9] = [0xE9]
  ∧ TextDecoder_decode [0xC3] ++ TextDecoder_decode [0xA9] = [0xFFFD; 0xFFFD].
Proof. split; reflexivity. Qed.

(** C6.  The two lines of the example, each ended by a line feed, give
    the single fragment ["A"] and a normal end: in one chunk, after which
    what the reader still holds is never read, and however the bytes are cut
    into chunks at line feeds.  In general a line whose payload trims to
    [[DONE]] ends the run at once: what was yielded is what the earlier
    chunks and the earlier lines of this chunk yield, the later lines of the
    chunk do not count, and the rest of the reader stays unread. *)
Theorem done_ends_stream :
  (∀ rest,
     streamText (ReadValue stream_A_done :: rest)
     = mkRun [JString (js "A")] Returned rest)
  ∧ (∀ chunks,
       concat chunks = stream_A_done → line_aligned chunks = true →
       yielded (streamText (deliver chunks)) = [JString (js "A")]
       ∧ completion (streamText (deliver chunks)) = Returned)
  ∧ (∀ before value rest pre line post,
       snd (run_lines text_line (lines_of before)) = false →
       split_lines (TextDecoder_decode value) = pre ++ line :: post →
       startsWith line (js "data: ") = true →
       trim (drop 6 line) = js "[DONE]" →
       streamText (deliver before ++ ReadValue value :: rest)
       = mkRun (fst (run_lines text_line (lines_of before))
                ++ fst (run_lines text_line pre)) Returned rest).
Proof.
  split; [|split].
  - intros rest. reflexivity.
  - intros chunks Hcat Ha. unfold streamText.
    destruct (read_loop_aligned text_line text_line_blank chunks Ha)
      as [-> ->].
    rewrite Hcat. split; reflexivity.
  - intros before value rest pre line post Hgo Hlines Hp Hd.
    unfold streamText. rewrite read_loop_deliver_app by done.
    rewrite read_loop_value, Hlines.
    rewrite run_lines_stop by now apply text_line_done.
    reflexivity.
Qed.

Lemma done_ends_stream_witness :
  streamText (deliver [frame_B ++ [0x0A]]
              ++ ReadValue (frame_A ++ [0x0A] ++ frame_done ++ [0x0A]
                            ++ frame_B ++ [0x0A])
              :: [ReadValue (frame_B ++ [0x0A])])
  = mkRun (fst (run_lines text_line (lines_of [frame_B ++ [0x0A]]))
           ++ fst (run_lines text_line [frame_A]))
      Returned [ReadValue (frame_B ++ [0x0A])].
Proof.
  destruct done_ends_stream as (_ & _ & H).
  apply (H [frame_B ++ [0x0A]] _ _ [frame_A] frame_done [frame_B; []]);
    reflexivity.
Defined.



(** The malformed line of the example, then a well-formed frame, in one
    chunk and in two. *)
Example bad_line_then_frame :
  streamText [ReadValue stream_bad_then_A] = mkRun [JString (js "A")] Returned []
  ∧ streamRaw [ReadValue stream_bad_then_A] = mkRun [chunk_A] Returned []
  ∧ streamText [ReadValue (frame_bad ++ [0x0A]); ReadValue (frame_A ++ [0x0A])]
    = mkRun [JString (js "A")] Returned [].
Proof. repeat split. Qed.

(** * Further properties *)

(** ** Tree indexing *)

Lemma truthy_ids_cons a l :
  truthy_ids (a :: l)
  = (if truthy_id (node_id a)
     then match node_id a with Some k => [k] | None => [] end
     else []) ++ truthy_ids l.
Proof.
  unfold truthy_ids. simpl.
  destruct (truthy_id (node_id a)) eqn:Ht; [|done].
  destruct (node_id a); [done|discriminate Ht].
Qed.

Lemma NoDup_ids_last l : ∀ i n k,
  NoDup (truthy_ids l) →
  l !! i = Some n → node_id n = Some k → k ≠ [] →
  last_with_id l i k.
Proof.
  induction l as [|a l IHl]; intros i n k Hnd Hi Hid Hk; [done|].
  rewrite truthy_ids_cons in Hnd.
  destruct i as [|i]; simpl in Hi.
  - injection Hi as ->. rewrite Hid in Hnd.
    apply truthy_id_Some in Hk as Ht. rewrite Ht in Hnd. simpl in Hnd.
    apply NoDup_cons in Hnd as [Hnotin _].
    intros [|j] m Hj Hm; [lia|]. simpl in Hm. intros Hm'.
    apply Hnotin, elem_of_truthy_ids. split; [done|].
    exists m. split; [|done]. apply list_elem_of_lookup. eauto.
  - apply NoDup_app in Hnd as (_ & _ & Hnd).
    intros [|j] m Hj Hm; [lia|]. simpl in Hm.
    apply (IHl i n k Hnd Hi Hid Hk j m); [lia|done].
Qed.

Lemma last_lookup_S (l : list TreeNode) i n :
  l !! i = Some n → l !! S i = None → last l = Some n.
Proof.
  intros Hi Hn. rewrite last_lookup.
  apply lookup_lt_Some in Hi as Hlt. apply lookup_ge_None in Hn.
  replace (Nat.pred (length l)) with i by lia. exact Hi.
Qed.

(** No node carries the id [__proto__]. *)
Lemma no_proto_id (all : list TreeNode) :
  proto_key ∉ truthy_ids all → ∀ n, n ∈ all → node_id n ≠ Some proto_key.
Proof.
  intros Hp n Hn Hid. apply Hp, elem_of_truthy_ids.
  split; [discriminate|eauto].
Qed.

Lemma fmap_node_page_ranges tree mp :
  node <$> flattenToPageRanges tree mp = delete proto_key (flattenToMap tree).
Proof.
  apply map_eq. intros k. rewrite lookup_fmap.
  destruct (decide (k = proto_key)) as [->|Hp].
  { now rewrite flattenToPageRanges_proto_key, lookup_delete_eq. }
  rewrite lookup_delete_ne by congruence.
  destruct (decide (k = [])) as [->|Hk].
  { now rewrite flattenToMap_empty_key, flattenToPageRanges_empty_key. }
  destruct (last_carrier (getAllNodes tree) k)
    as [Hnone|(i & n & Hi & Hid & Hlast)].
  - rewrite flattenToPageRanges_eq, range_fold_other
      by now apply no_carrier_range.
    rewrite flattenToMap_eq, plain_fold_other by done.
    simpl. now rewrite !lookup_empty.
  - rewrite (flattenToPageRanges_last tree mp i n k) by done.
    now rewrite (flattenToMap_last tree i n k).
Qed.

Lemma flattenToMap_no_field tree :
  no_proto_field tree → flattenToMap tree !! proto_key = None.
Proof.
  intros Hf. rewrite flattenToMap_eq.
  now apply plain_fold_setter; [|apply setter_reached_empty].
Qed.

Lemma flattenToMap_no_proto_id tree :
  proto_key ∉ truthy_ids (getAllNodes tree) →
  flattenToMap tree !! proto_key = None.
Proof.
  intros Hp. rewrite flattenToMap_eq, plain_fold_other.
  - apply lookup_empty.
  - now apply no_proto_id.
Qed.

Lemma prototypes_agree tree mp :
  no_proto_field tree →
  node <$> range_prototype tree mp = plain_prototype tree.
Proof.
  intros Hf.
  destruct (last_carrier (getAllNodes tree) proto_key)
    as [Hnone|(i & n & Hi & Hid & Hlast)].
  - rewrite range_prototype_eq, range_fold_prototype_other
      by now apply no_carrier_range.
    now rewrite plain_prototype_eq, plain_fold_prototype_other.
  - rewrite (range_prototype_last tree mp i n) by done.
    rewrite plain_prototype_eq, (plain_fold_prototype_last _ _ i n);
      first [done|apply setter_reached_empty].
Qed.

Lemma plain_fold_lookup l m k :
  k ≠ proto_key →
  own (fold_left plain_step l m) !! k
  = match own (fold_left plain_step l (mkDict ∅ None)) !! k with
    | Some x => Some x
    | None => own m !! k
    end.
Proof.
  intros Hp. destruct (decide (k = [])) as [->|Hk].
  { rewrite !plain_fold_empty_key. simpl. now rewrite lookup_empty. }
  destruct (last_carrier l k) as [Hnone|(i & n & Hi & Hid & Hlast)].
  - rewrite !plain_fold_other by done. simpl. now rewrite lookup_empty.
  - now rewrite !(plain_fold_last l _ i n k).
Qed.

Lemma flattenToMap_app ts1 ts2 :
  delete proto_key (flattenToMap (Many (ts1 ++ ts2)))
  = delete proto_key (flattenToMap (Many ts2))
    ∪ delete proto_key (flattenToMap (Many ts1)).
Proof.
  apply map_eq. intros k.
  destruct (decide (k = proto_key)) as [->|Hp].
  { rewrite lookup_delete_eq. symmetry. apply lookup_union_None.
    split; apply lookup_delete_eq. }
  rewrite lookup_union, !lookup_delete_ne by congruence.
  rewrite !flattenToMap_eq. simpl.
  rewrite flat_map_app, fold_left_app, plain_fold_lookup by done.
  destruct (own (fold_left plain_step (flat_map getAllNodes1 ts2) _) !! k);
    [|simpl];
    now destruct (own (fold_left plain_step (flat_map getAllNodes1 ts1) _) !! k).
Qed.

(** X1.  The two maps go together.  The page-range map has the keys of the
    plain map, [__proto__] apart, which is never a key of it, and the node
    kept in the page-range entry of a key is the node the plain map binds to
    that key.  When no node has a field named [__proto__], that name is no
    key of the plain map either: the two maps have the same keys, and the
    prototype of the one holds the node that is the prototype of the
    other. *)
Theorem page_ranges_extend_plain_map (tree : TreeInput)
    (maxPage : option Z) :
  node <$> flattenToPageRanges tree maxPage
  = delete proto_key (flattenToMap tree)
  ∧ (no_proto_field tree →
     node <$> flattenToPageRanges tree maxPage = flattenToMap tree
     ∧ node <$> range_prototype tree maxPage = plain_prototype tree).
Proof.
  split; [apply fmap_node_page_ranges|].
  intros Hf. split; [|now apply prototypes_agree].
  rewrite fmap_node_page_ranges. now apply delete_id, flattenToMap_no_field.
Qed.

Lemma page_ranges_extend_plain_map_witness :
  node <$> flattenToPageRanges sample_proto_id (Some 9)
  = flattenToMap sample_proto_id
  ∧ node <$> range_prototype sample_proto_id (Some 9)
    = plain_prototype sample_proto_id.
Proof.
  destruct (page_ranges_extend_plain_map sample_proto_id (Some 9)) as [_ H].
  apply H. repeat (apply Forall_cons; split; [reflexivity|]).
  apply Forall_nil_2.
Defined.

(** With a field [__proto__] on a node whose id is [__proto__], a later
    node of that id is stored under the key: the name found on the
    prototype is a plain property, and assigning to it creates one.  The
    page-range map, whose prototype is an entry, never has that key. *)
Example proto_field_makes_key :
  flattenToMap sample_proto_field
  = {[ proto_key := leaf (Some proto_key) (Some 2) ]}
  ∧ plain_prototype sample_proto_field = Some proto_field_node
  ∧ flattenToPageRanges sample_proto_field None = ∅
  ∧ range_prototype sample_proto_field None
    = Some (mkPageRangeInfo (leaf (Some proto_key) (Some 2)) (Some 2) None).
Proof. repeat split; vm_compute; reflexivity. Qed.

(** On that forest the two maps do not have the same keys. *)
Example keys_differ_with_proto_field :
  node <$> flattenToPageRanges sample_proto_field None
  ≠ flattenToMap sample_proto_field.
Proof.
  intros H. apply (f_equal (λ m, m !! proto_key)) in H.
  vm_compute in H. discriminate H.
Qed.

(** And with a third node of that id in a second forest, the plain map of
    the two forests put end to end is not the union of their plain maps. *)
Example union_fails_with_proto_field :
  flattenToMap (Many ([proto_field_node; leaf (Some proto_key) (Some 2)]
                      ++ [leaf (Some proto_key) (Some 3)]))
  ≠ flattenToMap (Many [leaf (Some proto_key) (Some 3)])
    ∪ flattenToMap (Many [proto_field_node; leaf (Some proto_key) (Some 2)]).
Proof.
  intros H. apply (f_equal (λ m, m !! proto_key)) in H.
  vm_compute in H. discriminate H.
Qed.

(** X2.  A tree passed alone and the same tree passed as a list of one
    give the same mapping in both modes; the nodes of two forests put end to
    end are the nodes of the first followed by those of the second; and
    their plain map is the union of the two plain maps, the second forest
    winning on the ids they share: on every key but [__proto__] in
    general, and on every key when no node has a field named
    [__proto__]. *)
Theorem forests_compose (t : TreeNode) (ts1 ts2 : list TreeNode)
    (includePageRanges : bool) (maxPage : option Z) :
  createNodeMapping (Single t) includePageRanges maxPage
  = createNodeMapping (Many [t]) includePageRanges maxPage
  ∧ getAllNodes (Many (ts1 ++ ts2))
    = getAllNodes (Many ts1) ++ getAllNodes (Many ts2)
  ∧ delete proto_key (flattenToMap (Many (ts1 ++ ts2)))
    = delete proto_key (flattenToMap (Many ts2))
      ∪ delete proto_key (flattenToMap (Many ts1))
  ∧ (no_proto_field (Many (ts1 ++ ts2)) →
     flattenToMap (Many (ts1 ++ ts2))
     = flattenToMap (Many ts2) ∪ flattenToMap (Many ts1)).
Proof.
  split; [|split; [|split]].
  - unfold createNodeMapping.
    replace (getAllNodes (Many [t])) with (getAllNodes (Single t));
      [done|]. simpl. now rewrite app_nil_r.
  - simpl. apply flat_map_app.
  - apply flattenToMap_app.
  - intros Hf.
    assert (H12 : no_proto_field (Many ts1) ∧ no_proto_field (Many ts2)).
    { unfold no_proto_field in *. simpl in *.
      rewrite flat_map_app in Hf. now apply Forall_app in Hf. }
    destruct H12 as [H1 H2].
    pose proof (flattenToMap_app ts1 ts2) as H.
    now rewrite !delete_id in H by now apply flattenToMap_no_field.
Qed.

Lemma forests_compose_witness :
  flattenToMap (Many ([leaf (Some (js "a")) (Some 1)]
                      ++ [leaf (Some (js "a")) (Some 4)]))
  = flattenToMap (Many [leaf (Some (js "a")) (Some 4)])
    ∪ flattenToMap (Many [leaf (Some (js "a")) (Some 1)]).
Proof.
  destruct (forests_compose (leaf None None)
              [leaf (Some (js "a")) (Some 1)] [leaf (Some (js "a")) (Some 4)]
              false None) as (_ & _ & _ & H).
  apply H. repeat (apply Forall_cons; split; [reflexivity|]).
  apply Forall_nil_2.
Defined.

(** X3.  When no non-empty id is carried by two nodes and none is
    [__proto__], every node with a non-empty id is found under its id in
    both maps, with the page range of its own position, and the maps have
    as many entries as there are such nodes. *)
Theorem distinct_ids_all_found (tree : TreeInput) (maxPage : option Z) :
  NoDup (truthy_ids (getAllNodes tree)) →
  proto_key ∉ truthy_ids (getAllNodes tree) →
  (∀ i n k,
     getAllNodes tree !! i = Some n → node_id n = Some k → k ≠ [] →
     flattenToMap tree !! k = Some n
     ∧ flattenToPageRanges tree maxPage !! k
       = Some (range_entry (getAllNodes tree) maxPage i n))
  ∧ size (flattenToMap tree) = length (truthy_ids (getAllNodes tree))
  ∧ size (flattenToPageRanges tree maxPage)
    = length (truthy_ids (getAllNodes tree)).
Proof.
  intros Hnd Hno.
  assert (Hsize : size (flattenToMap tree)
                  = length (truthy_ids (getAllNodes tree))).
  { rewrite <- size_dom.
    rewrite <- (size_list_to_set (C := gset (list Z))) by done.
    f_equal. apply set_eq. intros k.
    rewrite elem_of_dom, elem_of_list_to_set.
    destruct (decide (k = proto_key)) as [->|Hp].
    - rewrite flattenToMap_no_proto_id by done.
      split; [now intros [? ?]|done].
    - now apply flattenToMap_key. }
  split; [|split; [exact Hsize|]].
  - intros i n k Hi Hid Hk.
    pose proof (NoDup_ids_last _ i n k Hnd Hi Hid Hk) as Hlast.
    assert (Hp : k ≠ proto_key).
    { intros ->. apply Hno, elem_of_truthy_ids. split; [done|].
      exists n. split; [|done]. apply list_elem_of_lookup. eauto. }
    split; [now apply (flattenToMap_last tree i)|].
    now apply flattenToPageRanges_last.
  - rewrite <- Hsize, <- (map_size_fmap node), fmap_node_page_ranges.
    now rewrite delete_id by now apply flattenToMap_no_proto_id.
Qed.

(** X4.  The maximum page reaches the entry of one id at most, the id of
    the very last node of the traversal: the entry of any other id is the
    same whatever maximum page is given, or none. *)
Theorem max_page_only_for_last_node (tree : TreeInput)
    (maxPage1 maxPage2 : option Z) (k : list Z) :
  (∀ n, last (getAllNodes tree) = Some n → node_id n ≠ Some k) →
  flattenToPageRanges tree maxPage1 !! k
  = flattenToPageRanges tree maxPage2 !! k.
Proof.
  intros Hk.
  destruct (decide (k = [])) as [->|Hne].
  { now rewrite !flattenToPageRanges_empty_key. }
  destruct (decide (k = proto_key)) as [->|Hp].
  { now rewrite !flattenToPageRanges_proto_key. }
  destruct (last_carrier (getAllNodes tree) k)
    as [Hnone|(i & n & Hi & Hid & Hlast)].
  - rewrite !flattenToPageRanges_eq.
    now rewrite !range_fold_other by now apply no_carrier_range.
  - rewrite !(flattenToPageRanges_last tree _ i n k) by done.
    f_equal. unfold range_entry. f_equal.
    destruct (getAllNodes tree !! S i) as [next|] eqn:Hnext; [done|].
    destruct (Hk n); [|done]. now apply (last_lookup_S _ i).
Qed.

Lemma max_page_only_for_last_node_witness :
  flattenToPageRanges (Single sample_tree) (Some 10) !! js "a"
  = flattenToPageRanges (Single sample_tree) None !! js "a".
Proof.
  apply (max_page_only_for_last_node (Single sample_tree) (Some 10) None).
  intros n Hn. injection Hn as <-. discriminate.
Defined.

Lemma distinct_ids_all_found_witness :
  (∀ i n k,
     getAllNodes sample_distinct !! i = Some n → node_id n = Some k →
     k ≠ [] →
     flattenToMap sample_distinct !! k = Some n
     ∧ flattenToPageRanges sample_distinct (Some 9) !! k
       = Some (range_entry (getAllNodes sample_distinct) (Some 9) i n))
  ∧ size (flattenToMap sample_distinct)
    = length (truthy_ids (getAllNodes sample_distinct))
  ∧ size (flattenToPageRanges sample_distinct (Some 9))
    = length (truthy_ids (getAllNodes sample_distinct)).
Proof.
  apply (distinct_ids_all_found sample_distinct (Some 9)).
  - repeat (apply NoDup_cons; split;
            [intros H; repeat (apply elem_of_cons in H as [H|H];
                               [discriminate H|]); inversion H|]).
    apply NoDup_nil_2.
  - intros H. repeat (apply elem_of_cons in H as [H|H]; [discriminate H|]).
    inversion H.
Defined.

(** X24.  The id [__proto__] names no entry.  It is never a key of the
    page-range map: the entry written for the last node that carries it,
    with the page range of that node's position, becomes the prototype of
    the map, and so does that node itself in the plain map when no node has
    a field named [__proto__].  When no node carries the id, both maps keep
    the prototype of every new object. *)
Theorem proto_id_becomes_prototype (tree : TreeInput) (maxPage : option Z) :
  flattenToPageRanges tree maxPage !! proto_key = None
  ∧ (∀ i n,
       getAllNodes tree !! i = Some n → node_id n = Some proto_key →
       last_with_id (getAllNodes tree) i proto_key →
       range_prototype tree maxPage
       = Some (range_entry (getAllNodes tree) maxPage i n)
       ∧ (no_proto_field tree →
          plain_prototype tree = Some n
          ∧ flattenToMap tree !! proto_key = None))
  ∧ ((∀ n, n ∈ getAllNodes tree → node_id n ≠ Some proto_key) →
     range_prototype tree maxPage = None
     ∧ plain_prototype tree = None
     ∧ flattenToMap tree !! proto_key = None).
Proof.
  split; [apply flattenToPageRanges_proto_key|]. split.
  - intros i n Hi Hid Hlast. split; [now apply range_prototype_last|].
    intros Hf. split; [|now apply flattenToMap_no_field].
    rewrite plain_prototype_eq.
    apply (plain_fold_prototype_last _ _ i n);
      first [done|apply setter_reached_empty].
  - intros Hnone. split; [|split].
    + rewrite range_prototype_eq.
      now rewrite range_fold_prototype_other by now apply no_carrier_range.
    + now rewrite plain_prototype_eq, plain_fold_prototype_other.
    + rewrite flattenToMap_eq, plain_fold_other by done. apply lookup_empty.
Qed.

Lemma proto_id_becomes_prototype_witness :
  range_prototype sample_proto_id (Some 9)
  = Some (range_entry (getAllNodes sample_proto_id) (Some 9) 0
            (leaf (Some proto_key) (Some 1)))
  ∧ plain_prototype sample_proto_id = Some (leaf (Some proto_key) (Some 1))
  ∧ flattenToMap sample_proto_id !! proto_key = None.
Proof.
  destruct (proto_id_becomes_prototype sample_proto_id (Some 9))
    as (_ & H & _).
  destruct (H 0%nat (leaf (Some proto_key) (Some 1))) as [Hr Hp];
    try reflexivity.
  - scan_positions.
  - split; [exact Hr|]. apply Hp.
    repeat (apply Forall_cons; split; [reflexivity|]). apply Forall_nil_2.
Defined.

(** ** Stream decoding *)

Lemma text_line_raw_line line :
  text_line line =
  match raw_line line with
  | Stop => Stop
  | Skip => Skip
  | Yield chunk =>
      match text_of_chunk chunk with
      | Some content => Yield content
      | None => Skip
      end
  end.
Proof.
  unfold text_line, raw_line, text_of_chunk.
  destruct (startsWith line (js "data: ")); [|done].
  destruct (bool_decide _); [done|].
  destruct (JSON_parse _) as [chunk|]; [|done].
  destruct (delta_content chunk) as [content|]; [|done].
  now destruct (ToBoolean content).
Qed.

Lemma run_lines_text_raw lines :
  run_lines text_line lines
  = (omap text_of_chunk (run_lines raw_line lines).1,
     (run_lines raw_line lines).2).
Proof.
  induction lines as [|line lines IH]; [done|].
  simpl. rewrite text_line_raw_line.
  destruct (raw_line line) as [|chunk|]; [exact IH| |done].
  rewrite IH. destruct (run_lines raw_line lines) as [out stop]. simpl.
  now destruct (text_of_chunk chunk).
Qed.

Lemma read_loop_text_raw reader :
  yielded (read_loop text_line reader)
  = omap text_of_chunk (yielded (read_loop raw_line reader))
  ∧ completion (read_loop text_line reader)
    = completion (read_loop raw_line reader)
  ∧ unread (read_loop text_line reader) = unread (read_loop raw_line reader).
Proof.
  induction reader as [|[value|] rest (IHy & IHc & IHu)]; [done| |done].
  rewrite !read_loop_value, run_lines_text_raw.
  destruct (run_lines raw_line _) as [out [|]]; simpl; [done|].
  rewrite IHy, IHc, IHu. now rewrite omap_app.
Qed.

Lemma text_line_yield_truthy line v :
  text_line line = Yield v → ToBoolean v = true.
Proof.
  unfold text_line.
  destruct (startsWith line (js "data: ")); [|discriminate].
  destruct (bool_decide _); [discriminate|].
  destruct (JSON_parse _) as [chunk|]; [|discriminate].
  destruct (delta_content chunk) as [content|]; [|discriminate].
  destruct (ToBoolean content) eqn:Ht; [|discriminate].
  now intros [= <-].
Qed.

Section runs.

Variable body : list Z → LineEffect.

Lemma run_lines_Forall (P : JValue → Prop) lines :
  (∀ line v, body line = Yield v → P v) →
  Forall P (run_lines body lines).1.
Proof.
  intros HP. induction lines as [|line lines IH]; [constructor|].
  simpl. destruct (body line) as [|v|] eqn:Hb; [exact IH| |constructor].
  destruct (run_lines body lines) as [out stop]. simpl in *.
  constructor; [eapply HP, Hb|exact IH].
Qed.

Lemma read_loop_Forall (P : JValue → Prop) reader :
  (∀ line v, body line = Yield v → P v) →
  Forall P (yielded (read_loop body reader)).
Proof.
  intros HP. induction reader as [|[value|] rest IH];
    [constructor| |constructor].
  rewrite read_loop_value.
  pose proof (run_lines_Forall P (split_lines (TextDecoder_decode value)) HP)
    as Hout.
  destruct (run_lines body _) as [out [|]]; simpl in *; [done|].
  now apply Forall_app.
Qed.


End runs.

Lemma startsWith_snoc c : ∀ pre line,
  c ∉ pre → startsWith (line ++ [c]) pre = startsWith line pre.
Proof.
  induction pre as [|p pre IH]; intros line Hc; [now destruct line|].
  apply not_elem_of_cons in Hc as [Hne Hc].
  destruct line as [|x line]; simpl.
  - apply andb_false_iff. left. now apply Z.eqb_neq.
  - now rewrite IH.
Qed.

Lemma trimStart_snoc s c :
  trimStart s ≠ [] → trimStart (s ++ [c]) = trimStart s ++ [c].
Proof.
  induction s as [|x s IH]; [done|]. simpl.
  destruct (is_trim_space x); [exact IH|done].
Qed.

Lemma trimStart_all_space s c :
  is_trim_space c = true → trimStart s = [] → trimStart (s ++ [c]) = [].
Proof.
  intros Hc. induction s as [|x s IH]; simpl; [now rewrite Hc|].
  destruct (is_trim_space x); [exact IH|done].
Qed.

Lemma trim_snoc s c : is_trim_space c = true → trim (s ++ [c]) = trim s.
Proof.
  intros Hc. unfold trim.
  destruct (trimStart s) as [|x t] eqn:Ht.
  - now rewrite trimStart_all_space.
  - rewrite trimStart_snoc, Ht by now rewrite Ht.
    rewrite rev_app_distr. simpl. now rewrite Hc.
Qed.

Lemma line_carriage_return line :
  text_line (line ++ [0x0D]) = text_line line
  ∧ raw_line (line ++ [0x0D]) = raw_line line.
Proof.
  assert (Hp : startsWith (line ++ [0x0D]) (js "data: ")
               = startsWith line (js "data: ")).
  { apply startsWith_snoc. intros H.
    repeat (apply elem_of_cons in H as [H|H]; [discriminate H|]).
    inversion H. }
  unfold text_line, raw_line. rewrite Hp.
  destruct (startsWith line (js "data: ")) eqn:Hs; [|done].
  apply startsWith_length in Hs. change (length (js "data: ")) with 6%nat in Hs.
  rewrite drop_app_le by done.
  now rewrite trim_snoc.
Qed.

(** X5.  Text mode is raw mode seen through the content of each chunk: on
    every reader the two decoders read the same chunks and end the same
    way, and what text mode yields is, in order, the truthy
    [choices[0].delta.content] of the chunks raw mode yields. *)
Theorem text_mode_projects_raw_mode (reader : list ReadResult) :
  yielded (streamText reader)
  = omap text_of_chunk (yielded (streamRaw reader))
  ∧ completion (streamText reader) = completion (streamRaw reader)
  ∧ unread (streamText reader) = unread (streamRaw reader).
Proof. apply read_loop_text_raw. Qed.


(** X7.  Text mode never yields an empty fragment, nor any other falsy
    value. *)
Theorem text_mode_yields_truthy (reader : list ReadResult) :
  Forall (λ v, ToBoolean v = true ∧ v ≠ JString []) (yielded (streamText reader)).
Proof.
  apply read_loop_Forall. intros line v Hv.
  apply text_line_yield_truthy in Hv. split; [done|].
  intros ->. discriminate Hv.
Qed.

(** X8.  Lines ended by a carriage return before the line feed are read as
    the same lines without it, in both modes. *)
Theorem carriage_returns_ignored (lines : list (list Z)) :
  run_lines text_line ((λ l, l ++ [0x0D]) <$> lines)
  = run_lines text_line lines
  ∧ run_lines raw_line ((λ l, l ++ [0x0D]) <$> lines)
    = run_lines raw_line lines.
Proof.
  split; induction lines as [|line lines IH]; try done;
    rewrite fmap_cons; simpl;
    destruct (line_carriage_return line) as [Ht Hr];
    rewrite ?Ht, ?Hr, IH; reflexivity.
Qed.

(** X9.  Decoding goes chunk by chunk: as long as no line of the first
    chunks returns, the run over a reader that starts with them is what
    they yield followed by the run over the rest of the reader, in both
    modes. *)
Theorem runs_compose (before : list (list Z)) (reader : list ReadResult) :
  (run_lines raw_line (lines_of before)).2 = false →
  streamText (deliver before ++ reader)
  = mkRun ((run_lines text_line (lines_of before)).1
           ++ yielded (streamText reader))
      (completion (streamText reader)) (unread (streamText reader))
  ∧ streamRaw (deliver before ++ reader)
    = mkRun ((run_lines raw_line (lines_of before)).1
             ++ yielded (streamRaw reader))
        (completion (streamRaw reader)) (unread (streamRaw reader)).
Proof.
  intros Hgo. split.
  - apply read_loop_deliver_app. now rewrite run_lines_text_raw.
  - now apply read_loop_deliver_app.
Qed.

Lemma runs_compose_witness :
  streamText (deliver [frame_B ++ [0x0A]]
              ++ [ReadValue (frame_A ++ [0x0A]); ReadRejected;
                  ReadValue (frame_B ++ [0x0A])])
  = mkRun ((run_lines text_line (lines_of [frame_B ++ [0x0A]])).1
           ++ yielded (streamText [ReadValue (frame_A ++ [0x0A]); ReadRejected;
                                   ReadValue (frame_B ++ [0x0A])]))
      (completion (streamText [ReadValue (frame_A ++ [0x0A]); ReadRejected;
                               ReadValue (frame_B ++ [0x0A])]))
      (unread (streamText [ReadValue (frame_A ++ [0x0A]); ReadRejected;
                           ReadValue (frame_B ++ [0x0A])]))
  ∧ streamRaw (deliver [frame_B ++ [0x0A]]
               ++ [ReadValue (frame_A ++ [0x0A]); ReadRejected;
                   ReadValue (frame_B ++ [0x0A])])
    = mkRun ((run_lines raw_line (lines_of [frame_B ++ [0x0A]])).1
             ++ yielded (streamRaw [ReadValue (frame_A ++ [0x0A]); ReadRejected;
                                    ReadValue (frame_B ++ [0x0A])]))
        (completion (streamRaw [ReadValue (frame_A ++ [0x0A]); ReadRejected;
                                ReadValue (frame_B ++ [0x0A])]))
        (unread (streamRaw [ReadValue (frame_A ++ [0x0A]); ReadRejected;
                            ReadValue (frame_B ++ [0x0A])])).
Proof.
  apply (runs_compose [frame_B ++ [0x0A]]
           [ReadValue (frame_A ++ [0x0A]); ReadRejected;
            ReadValue (frame_B ++ [0x0A])]).
  reflexivity.
Defined.

(** ** Field filtering *)

(** X10.  Whatever the value, no object of the output, at any depth and
    prototypes included, has a key that was to be removed, and with a
    truncation length [n] no string of the output has more than [n + 3] code
    units. *)
Theorem filtered_output_clean (data : JValue) (fields : list (list Z))
    (maxLen : option nat) :
  Forall (λ k, k ∉ fields) (all_keys (removeFields data fields maxLen))
  ∧ match maxLen with
    | Some n =>
        Forall (λ s, (length s ≤ n + 3)%nat)
          (all_strings (removeFields data fields maxLen))
    | None => True
    end.
Proof.
  split; [apply removed_keys_gone|].
  destruct maxLen as [n|]; [|done]. now apply strings_bounded.
Qed.

(** X11.  Filtering in two passes with the same truncation length gives
    the properties that filtering once with the two field lists put
    together gives, in objects whose prototype is reset, so the order of the
    passes does not matter; and it gives exactly what the single pass gives
    when no object of the input has a key [__proto__]. *)
Theorem filters_compose (data : JValue) (fields1 fields2 : list (list Z))
    (maxLen : option nat) :
  removeFields (removeFields data fields1 maxLen) fields2 maxLen
  = structuredClone (removeFields data (fields1 ++ fields2) maxLen)
  ∧ removeFields (removeFields data fields1 maxLen) fields2 maxLen
    = removeFields (removeFields data fields2 maxLen) fields1 maxLen
  ∧ (Forall (λ k, k ≠ proto_key) (all_keys data) →
     removeFields (removeFields data fields1 maxLen) fields2 maxLen
     = removeFields data (fields1 ++ fields2) maxLen).
Proof.
  split; [apply removeFields_twice|]. split.
  - rewrite !removeFields_twice. f_equal. apply removeFields_same_fields.
    intros k. rewrite !elem_of_app. tauto.
  - intros Hkeys. rewrite removeFields_twice.
    now apply structuredClone_plain, removeFields_plain.
Qed.

Lemma filters_compose_witness :
  removeFields (removeFields sample_value [js "text"] (Some 4%nat))
    [js "title"] (Some 4%nat)
  = removeFields sample_value ([js "text"] ++ [js "title"]) (Some 4%nat).
Proof.
  destruct (filters_compose sample_value [js "text"] [js "title"]
              (Some 4%nat)) as (_ & _ & H).
  apply H.
  repeat (apply Forall_cons; split; [discriminate|]). apply Forall_nil_2.
Defined.

(** X12.  The filter keeps the shape of what it keeps: along a path that
    goes through no removed key and no key [__proto__], the output holds the
    filtered form of what the input holds there, and nothing where the input
    holds nothing. *)
Theorem kept_paths_commute (data : JValue) (fields : list (list Z))
    (maxLen : option nat) (path : list Selector) :
  Forall (λ k, k ≠ proto_key ∧ k ∉ fields) (path_keys path) →
  select (removeFields data fields maxLen) path
  = (λ v, removeFields v fields maxLen) <$> select data path.
Proof. apply select_kept. Qed.

Lemma kept_paths_commute_witness :
  select (removeFields sample_value [js "text"] (Some 4%nat)) [Key (js "nodes")]
  = (λ v, removeFields v [js "text"] (Some 4%nat))
    <$> select sample_value [Key (js "nodes")].
Proof.
  apply (kept_paths_commute sample_value [js "text"] (Some 4%nat)
           [Key (js "nodes")]).
  apply Forall_cons. split; [|apply Forall_nil_2].
  split; [discriminate|].
  intros H. apply list_elem_of_singleton in H. discriminate H.
Defined.

(** X13.  A path that goes through a removed key leads nowhere in the
    output, even when the key is met deep inside arrays and objects. *)
Theorem removed_paths_lead_nowhere (data : JValue) (fields : list (list Z))
    (maxLen : option nat) (path : list Selector) :
  Exists (λ k, k ∈ fields) (path_keys path) →
  select (removeFields data fields maxLen) path = None.
Proof.
  intros H. apply select_removed.
  eapply Exists_impl; [exact H|]. now left.
Qed.

Lemma removed_paths_lead_nowhere_witness :
  select (removeFields sample_value [js "text"] None) [Key (js "text")] = None.
Proof.
  apply (removed_paths_lead_nowhere sample_value [js "text"] None
           [Key (js "text")]).
  apply Exists_cons_hd. now left.
Defined.

(** X14.  A value as [JSON.parse] returns it, that has none of the keys to
    remove and no key [__proto__], and no string longer than the truncation
    length when one is given, comes out unchanged. *)
Theorem nothing_to_filter (data : JValue) (fields : list (list Z))
    (maxLen : option nat) :
  plain data = true →
  Forall (λ k, k ≠ proto_key ∧ k ∉ fields) (all_keys data) →
  (∀ n, maxLen = Some n →
        Forall (λ s, (length s ≤ n)%nat) (all_strings data)) →
  removeFields data fields maxLen = data.
Proof. intros Hp Hk Hs. now apply removeFields_fixed. Qed.

Lemma nothing_to_filter_witness :
  removeFields sample_value [js "page_index"] (Some 12%nat) = sample_value.
Proof.
  apply (nothing_to_filter sample_value [js "page_index"] (Some 12%nat)).
  - reflexivity.
  - repeat (apply Forall_cons; split;
            [split; [discriminate|];
             intros H; apply list_elem_of_singleton in H; discriminate H|]).
    apply Forall_nil_2.
  - intros n [= <-].
    repeat (apply Forall_cons; split; [simpl; lia|]). apply Forall_nil_2.
Defined.

(** X15.  What [printTree] prints is made from a value that has none of the
    excluded fields at any depth ([text] and [page_index] by default) and no
    string of more than 43 code units. *)
Theorem printTree_hides_fields (tree : JValue)
    (excludeFields : list (list Z)) :
  Forall (λ k, k ∉ excludeFields)
    (all_keys (printTree_cleaned tree excludeFields))
  ∧ Forall (λ s, (length s ≤ 43)%nat)
      (all_strings (printTree_cleaned tree excludeFields))
  ∧ Forall (λ k, k ≠ js "text" ∧ k ≠ js "page_index")
      (all_keys (printTree_default tree)).
Proof.
  unfold printTree_default, printTree_cleaned. split; [|split].
  - apply removed_keys_gone.
  - now apply (strings_bounded excludeFields (Some 40%nat) 40).
  - eapply Forall_impl; [apply removed_keys_gone|].
    intros k Hk. simpl in Hk.
    split; intros ->; apply Hk; [now left|right; now left].
Qed.

(** X25.  A property [__proto__] of an object never comes out as a
    property.  When its key is kept and it holds an object, an array or
    [null], its filtered value comes out as the prototype of the result;
    otherwise the result has the prototype of every new object, whatever
    the prototype of the input. *)
Theorem proto_member_becomes_prototype (p : option JValue)
    (es : list (list Z * JValue)) (fields : list (list Z))
    (maxLen : option nat) :
  NoDup es.*1 →
  ∃ es',
    removeFields (JObject p es) fields maxLen
    = JObject
        (match own_property es proto_key with
         | Some v =>
             if negb (includes fields proto_key) && can_be_prototype v
             then Some (removeFields v fields maxLen)
             else None
         | None => None
         end) es'
    ∧ own_property es' proto_key = None.
Proof.
  intros Hnd. exists (own_written (kept_entries fields maxLen es)).
  rewrite removeFields_object. split.
  - f_equal. apply proto_written_kept. exact Hnd.
  - apply own_property_ordinary, own_written_is_ordinary.
Qed.

Lemma proto_member_becomes_prototype_witness :
  ∃ es',
    removeFields sample_proto_member [js "text"] None
    = JObject
        (Some (JObject None [(js "title", JString (js "Introduction"))])) es'
    ∧ own_property es' proto_key = None.
Proof.
  apply (proto_member_becomes_prototype None
           [(proto_key, JObject None [(js "title", JString (js "Introduction"))])]
           [js "text"] None).
  apply NoDup_cons. split; [apply not_elem_of_nil|apply NoDup_nil_2].
Defined.

(** ** What JSON.parse returns *)

Lemma plain_entries_app es1 es2 :
  plain_entries (es1 ++ es2) = plain_entries es1 && plain_entries es2.
Proof.
  induction es1 as [|[k x] es1 IH]; [done|]. simpl.
  now rewrite IH, andb_assoc.
Qed.

Lemma obj_replace_plain es k v : ∀ es',
  obj_replace es k v = Some es' →
  plain_entries es = true → plain v = true → plain_entries es' = true.
Proof.
  induction es as [|[k' v'] es IH]; intros es' H Hes Hv; [discriminate|].
  simpl in *. apply andb_true_iff in Hes as [H1 H2].
  destruct (bool_decide (k' = k)).
  - injection H as <-. simpl. now rewrite Hv, H2.
  - destruct (obj_replace es k v) as [rest|]; [|discriminate].
    injection H as <-. simpl. rewrite H1. simpl. now apply IH.
Qed.

Lemma obj_insert_index_plain es k i v :
  plain_entries es = true → plain v = true →
  plain_entries (obj_insert_index es k i v) = true.
Proof.
  induction es as [|[k' v'] es IH]; intros Hes Hv; simpl in *;
    [now rewrite Hv|].
  apply andb_true_iff in Hes as [H1 H2].
  destruct (array_index k') as [j|]; [destruct (j <? i)%N|]; simpl;
    rewrite ?Hv, ?H1, ?H2; simpl; auto.
Qed.

Lemma obj_set_plain es k v :
  plain_entries es = true → plain v = true →
  plain_entries (obj_set es k v) = true.
Proof.
  intros Hes Hv. unfold obj_set.
  destruct (obj_replace es k v) as [es'|] eqn:Hr;
    [eapply obj_replace_plain; eauto|].
  destruct (array_index k); [now apply obj_insert_index_plain|].
  rewrite plain_entries_app, Hes. simpl. now rewrite Hv.
Qed.

Lemma expect_word_plain w v s x r :
  expect_word w v s = Some (x, r) → plain v = true → plain x = true.
Proof.
  unfold expect_word. destruct (startsWith s w); [|discriminate].
  now intros [= <- <-].
Qed.

Lemma parse_plain f :
  (∀ s v r, parse_value f s = Some (v, r) → plain v = true)
  ∧ (∀ s acc x r, parse_elements f s acc = Some (x, r) →
        forallb plain acc = true → forallb plain x = true)
  ∧ (∀ s acc x r, parse_members f s acc = Some (x, r) →
        plain_entries acc = true → plain_entries x = true).
Proof.
  induction f as [|f (IHV & IHE & IHM)].
  { repeat split; repeat intro; discriminate. }
  split; [|split].
  - intros [|c s0] v r H; [discriminate|].
    cbn [parse_value] in H.
    destruct (c =? 34).
    { destruct (parse_string_body s0) as [[str rest]|]; [|discriminate].
      now injection H as <- <-. }
    destruct (c =? 91).
    { destruct (skip_ws s0) as [|c' r'] eqn:Ew; [discriminate|].
      destruct (c' =? 93); [now injection H as <- <-|].
      destruct (parse_elements f (c' :: r') []) as [[items rest]|] eqn:Ee;
        [|discriminate].
      injection H as <- <-. simpl. now apply IHE in Ee. }
    destruct (c =? 123).
    { destruct (skip_ws s0) as [|c' r'] eqn:Ew; [discriminate|].
      destruct (c' =? 125); [now injection H as <- <-|].
      destruct (parse_members f (c' :: r') []) as [[es rest]|] eqn:Ee;
        [|discriminate].
      injection H as <- <-. rewrite plain_object. simpl.
      now apply IHM in Ee. }
    destruct (c =? 116); [now apply expect_word_plain in H|].
    destruct (c =? 102); [now apply expect_word_plain in H|].
    destruct (c =? 110); [now apply expect_word_plain in H|].
    destruct (parse_number (c :: s0)) as [[n rest]|]; [|discriminate].
    now injection H as <- <-.
  - intros s acc x r H Hacc. cbn [parse_elements] in H.
    destruct (parse_value f s) as [[v rest]|] eqn:Ev; [|discriminate].
    apply IHV in Ev.
    destruct (skip_ws rest) as [|c r1]; [discriminate|].
    assert (Hacc' : forallb plain (acc ++ [v]) = true).
    { rewrite forallb_app, Hacc. simpl. now rewrite Ev. }
    destruct (c =? 44); [now apply IHE in H|].
    destruct (c =? 93); [|discriminate]. now injection H as <- <-.
  - intros [|q s0] acc x r H Hacc; [discriminate|].
    cbn [parse_members] in H.
    destruct (negb (q =? 34)); [discriminate|].
    destruct (parse_string_body s0) as [[k rest]|]; [|discriminate].
    destruct (skip_ws rest) as [|colon r1]; [discriminate|].
    destruct (negb (colon =? 58)); [discriminate|].
    destruct (parse_value f (skip_ws r1)) as [[v rest']|] eqn:Ev;
      [|discriminate].
    apply IHV in Ev.
    destruct (skip_ws rest') as [|c r2]; [discriminate|].
    pose proof (obj_set_plain acc k v Hacc Ev) as Hacc'.
    destruct (c =? 44); [now apply IHM in H|].
    destruct (c =? 125); [|discriminate]. now injection H as <- <-.
Qed.

Lemma JSON_parse_plain text v : JSON_parse text = Some v → plain v = true.
Proof.
  unfold JSON_parse.
  destruct (parse_value _ _) as [[x rest]|] eqn:Hp; [|discriminate].
  destruct (skip_ws rest); [|discriminate]. intros [= <-].
  eapply parse_plain, Hp.
Qed.

Lemma raw_line_yield_plain line v :
  raw_line line = Yield v → plain v = true.
Proof.
  unfold raw_line.
  destruct (startsWith line (js "data: ")); [|discriminate].
  destruct (bool_decide _); [discriminate|].
  destruct (JSON_parse _) as [chunk|] eqn:Hp; [|discriminate].
  intros [= <-]. eapply JSON_parse_plain, Hp.
Qed.

(** X26.  The values that [JSON.parse] returns are made of objects that
    all have the prototype of a new object, whatever the names of their
    members; so are the chunks that raw mode yields. *)
Theorem parsed_values_are_plain :
  (∀ text v, JSON_parse text = Some v → plain v = true)
  ∧ (∀ reader, Forall (λ v, plain v = true) (yielded (streamRaw reader))).
Proof.
  split; [exact JSON_parse_plain|].
  intros reader. apply read_loop_Forall. exact raw_line_yield_plain.
Qed.

(** A member named [__proto__] is read as a property like any other. *)
Example proto_member_is_parsed_as_property :
  JSON_parse (js "{" ++ quoted "__proto__" ++ js ":{" ++ quoted "title"
              ++ js ":" ++ quoted "Introduction" ++ js "}}")
  = Some sample_proto_member.
Proof. reflexivity. Qed.

Lemma parsed_values_are_plain_witness : plain chunk_A = true.
Proof.
  destruct parsed_values_are_plain as [H _].
  apply (H (drop 6 frame_A)). reflexivity.
Defined.

(** ** printWrapped *)

Lemma dot_run_spec w : ∀ s m rest,
  dot_run w s = (m, rest) →
  s = m ++ rest ∧ (length m ≤ w)%nat
  ∧ Forall (λ c, is_line_terminator c = false) m.
Proof.
  induction w as [|w IH]; intros s m rest H.
  - destruct s; injection H as <- <-; repeat split; simpl; try lia; constructor.
  - destruct s as [|c r]; [injection H as <- <-; repeat split; simpl; try lia; constructor|].
    simpl in H. destruct (is_line_terminator c) eqn:Hc.
    + injection H as <- <-. repeat split; simpl; try lia. constructor.
    + destruct (dot_run w r) as [m' rest'] eqn:Hr.
      injection H as <- <-. destruct (IH r m' rest' Hr) as (-> & Hl & Hf).
      repeat split; simpl; try lia. now constructor.
Qed.

Lemma dot_run_empty w c r rest :
  dot_run (S w) (c :: r) = ([], rest) → is_line_terminator c = true.
Proof.
  simpl. destruct (is_line_terminator c); [done|].
  destruct (dot_run w r). discriminate.
Qed.

Lemma dot_run_full : ∀ a b,
  Forall (λ c, is_line_terminator c = false) a →
  dot_run (length a) (a ++ b) = (a, b).
Proof.
  induction a as [|c a IH]; intros b Ha; simpl.
  - now destruct b.
  - apply Forall_cons in Ha as [Hc Ha]. now rewrite Hc, IH.
Qed.

Lemma dot_run_short : ∀ w a,
  Forall (λ c, is_line_terminator c = false) a → (length a ≤ w)%nat →
  dot_run w a = (a, []).
Proof.
  induction w as [|w IH]; intros [|c a] Ha Hl; simpl in *; try done; try lia.
  apply Forall_cons in Ha as [Hc Ha]. rewrite Hc, IH by (done || lia). done.
Qed.

Lemma without_terminators_app a b :
  without_terminators (a ++ b) = without_terminators a ++ without_terminators b.
Proof. apply List.filter_app. Qed.

Lemma without_terminators_free a :
  Forall (λ c, is_line_terminator c = false) a → without_terminators a = a.
Proof.
  induction 1 as [|c a Hc _ IH]; [done|].
  unfold without_terminators in *. simpl. now rewrite Hc, IH.
Qed.

Section wrapping.

Variable w : nat.

Lemma match_all_fuel : ∀ f1 f2 s,
  (length s ≤ f1)%nat → (length s ≤ f2)%nat →
  match_all f1 (S w) s = match_all f2 (S w) s.
Proof.
  induction f1 as [|f1 IH]; intros f2 s H1 H2.
  - destruct s; [now destruct f2|simpl in H1; lia].
  - destruct s as [|c r]; [now destruct f2|].
    destruct f2 as [|f2]; [simpl in H2; lia|].
    cbn [match_all].
    destruct (dot_run (S w) (c :: r)) as [m rest] eqn:Hd.
    destruct (dot_run_spec _ _ _ _ Hd) as (Hs & _ & _).
    destruct m as [|x m].
    + apply IH; simpl in *; lia.
    + f_equal. apply (f_equal length) in Hs.
      rewrite length_app in Hs. simpl in *. apply IH; lia.
Qed.

Lemma match_all_chunks : ∀ f s,
  (length s ≤ f)%nat →
  Forall (λ l, (1 ≤ length l ≤ S w)%nat
               ∧ Forall (λ c, is_line_terminator c = false) l)
    (match_all f (S w) s)
  ∧ concat (match_all f (S w) s) = without_terminators s.
Proof.
  induction f as [|f IH]; intros s Hf.
  - destruct s; [split; [constructor|done]|simpl in Hf; lia].
  - destruct s as [|c r]; [split; [constructor|done]|].
    cbn [match_all].
    destruct (dot_run (S w) (c :: r)) as [m rest] eqn:Hd.
    destruct (dot_run_spec _ _ _ _ Hd) as (Hs & Hl & Hm).
    destruct m as [|x m].
    + apply dot_run_empty in Hd.
      destruct (IH r) as [IH1 IH2]; [simpl in Hf; lia|].
      split; [exact IH1|]. rewrite IH2.
      unfold without_terminators. simpl. now rewrite Hd.
    + assert (Hlen : (length rest ≤ f)%nat).
      { apply (f_equal length) in Hs. rewrite length_app in Hs.
        simpl in *. lia. }
      destruct (IH rest Hlen) as [IH1 IH2]. split.
      * constructor; [|exact IH1]. split; [simpl in *; lia|exact Hm].
      * rewrite Hs, without_terminators_app.
        rewrite (without_terminators_free (x :: m)) by done.
        simpl. now rewrite IH2.
Qed.

Lemma wrap_line_blank : wrap_line (S w) [] = [].
Proof. reflexivity. Qed.

End wrapping.

Lemma wrap_line_chunk c a b :
  Forall (λ c, is_line_terminator c = false) (c :: a) →
  wrap_line (length (c :: a)) ((c :: a) ++ b)
  = (c :: a) :: wrap_line (length (c :: a)) b.
Proof.
  intros Ha. unfold wrap_line. rewrite length_app.
  change (length (c :: a) + length b)%nat with (S (length a + length b)).
  change ((c :: a) ++ b) with (c :: (a ++ b)).
  cbn [match_all].
  change (c :: (a ++ b)) with ((c :: a) ++ b).
  rewrite dot_run_full by done.
  f_equal. apply (match_all_fuel (length a)); simpl; lia.
Qed.

Lemma split_lines_free_app a b :
  Forall (λ c, is_line_terminator c = false) a →
  split_lines (a ++ b)
  = match split_lines b with
    | l :: ls => (a ++ l) :: ls
    | [] => [a]
    end.
Proof.
  induction 1 as [|c a Hc _ IH]; simpl.
  - pose proof (split_lines_nonempty b). now destruct (split_lines b).
  - assert (Hne : (c =? 10) = false).
    { unfold is_line_terminator in Hc.
      destruct (c =? 10); [discriminate Hc|done]. }
    rewrite Hne, IH. now destruct (split_lines b).
Qed.

Lemma printWrapped_lines text w :
  printWrapped text (S w) = Some (flat_map (wrap_line (S w)) (split_lines text)).
Proof. reflexivity. Qed.

Lemma wrapped_lines_spec w lines :
  Forall (λ l, (1 ≤ length l ≤ S w)%nat
               ∧ Forall (λ c, is_line_terminator c = false) l)
    (flat_map (wrap_line (S w)) lines)
  ∧ concat (flat_map (wrap_line (S w)) lines)
    = flat_map without_terminators lines.
Proof.
  induction lines as [|l ls [IH1 IH2]]; [split; [constructor|done]|].
  simpl. destruct (match_all_chunks w (length l) l (le_n _)) as [H1 H2].
  split.
  - apply Forall_app. split; [exact H1|exact IH1].
  - rewrite concat_app, IH2. f_equal. exact H2.
Qed.

Lemma without_terminators_lines text :
  flat_map without_terminators (split_lines text) = without_terminators text.
Proof.
  induction text as [|c text IH]; [done|].
  simpl. unfold without_terminators at 2. simpl.
  destruct (c =? 10) eqn:Hc.
  - apply Z.eqb_eq in Hc as ->. simpl. exact IH.
  - fold (without_terminators text). rewrite <- IH.
    pose proof (split_lines_nonempty text).
    destruct (split_lines text) as [|l ls]; [done|].
    simpl. unfold without_terminators at 1. simpl.
    destruct (negb (is_line_terminator c)); simpl; [done|done].
Qed.

(** X16.  [printWrapped] throws for a width of 0 and for no other; what it
    writes otherwise is lines of at least one and at most [width] code
    units, none of them holding a line terminator: it never writes an empty
    line. *)
Theorem wrapped_lines_within_width (text : list Z) (width : nat) :
  match printWrapped text width with
  | Some out =>
      width ≠ 0%nat
      ∧ Forall (λ l, (1 ≤ length l ≤ width)%nat
                     ∧ Forall (λ c, is_line_terminator c = false) l) out
  | None => width = 0%nat
  end.
Proof.
  destruct width as [|w]; [done|].
  rewrite printWrapped_lines. split; [done|].
  apply wrapped_lines_spec.
Qed.

(** X17.  With a width written as a decimal numeral, wrapping loses
    nothing but line terminators: the lines written, put end to end, are the
    text without its line feeds, carriage returns and Unicode line and
    paragraph separators. *)
Theorem wrapped_lines_keep_text (text : list Z) (width : nat) :
  written_in_full width →
  match printWrapped text width with
  | Some out => concat out = without_terminators text
  | None => width = 0%nat
  end.
Proof.
  intros _. destruct width as [|w]; [done|].
  rewrite printWrapped_lines.
  destruct (wrapped_lines_spec w (split_lines text)) as [_ ->].
  apply without_terminators_lines.
Qed.

Lemma wrapped_lines_keep_text_witness :
  match printWrapped (js "abcdefg") 3 with
  | Some out => concat out = without_terminators (js "abcdefg")
  | None => 3%nat = 0%nat
  end.
Proof.
  apply (wrapped_lines_keep_text (js "abcdefg") 3). reflexivity.
Defined.

(** X18.  Lines are filled before they are broken: when the text starts
    with [width] code units free of line terminators, these are the first
    line written, and the rest is written as when wrapped on its own. *)
Theorem wrapped_lines_are_full (a b : list Z) (width : nat) :
  width ≠ 0%nat → length a = width →
  Forall (λ c, is_line_terminator c = false) a →
  printWrapped (a ++ b) width = cons a <$> printWrapped b width.
Proof.
  intros Hw Hl Ha. subst width. destruct a as [|c a]; [done|].
  change (length (c :: a)) with (S (length a)).
  rewrite !printWrapped_lines. simpl fmap. f_equal.
  rewrite split_lines_free_app by done.
  pose proof (split_lines_nonempty b).
  destruct (split_lines b) as [|l ls]; [done|].
  cbn [flat_map].
  pose proof (wrap_line_chunk c a l Ha) as Hc.
  change (length (c :: a)) with (S (length a)) in Hc. now rewrite Hc.
Qed.

Lemma wrapped_lines_are_full_witness :
  printWrapped (js "abc" ++ js "de") 3 = cons (js "abc") <$> printWrapped (js "de") 3.
Proof.
  apply (wrapped_lines_are_full (js "abc") (js "de") 3).
  - discriminate.
  - reflexivity.
  - repeat (apply Forall_cons; split; [reflexivity|]). apply Forall_nil_2.
Defined.

(** X19.  Blank lines are not written: a line feed doubled, or one at the
    very end of the text, changes nothing to what is written. *)
Theorem blank_lines_dropped (a b : list Z) (width : nat) :
  printWrapped (a ++ 0x0A :: 0x0A :: b) width
  = printWrapped (a ++ 0x0A :: b) width
  ∧ printWrapped (a ++ [0x0A]) width = printWrapped a width.
Proof.
  destruct width as [|w]; [done|].
  rewrite !printWrapped_lines. split; f_equal.
  - rewrite !split_lines_line_feed. simpl.
    now rewrite !flat_map_app.
  - rewrite split_lines_line_feed. simpl.
    rewrite flat_map_app. simpl. now rewrite app_nil_r.
Qed.

(** ** The name of an uploaded file *)

Lemma split_on_nonempty sep s : split_on sep s ≠ [].
Proof.
  destruct s as [|c s]; simpl; [done|].
  destruct (c =? sep); [done|]. now destruct (split_on sep s).
Qed.

Lemma split_on_sep sep a b :
  split_on sep (a ++ sep :: b) = split_on sep a ++ split_on sep b.
Proof.
  induction a as [|c a IH]; simpl.
  - now rewrite Z.eqb_refl.
  - destruct (c =? sep); [now rewrite IH|].
    rewrite IH. pose proof (split_on_nonempty sep a).
    now destruct (split_on sep a).
Qed.

Lemma split_on_free sep s : sep ∉ s → split_on sep s = [s].
Proof.
  induction s as [|c s IH]; intros Hs; [done|].
  apply not_elem_of_cons in Hs as [Hne Hs]. simpl.
  replace (c =? sep) with false by (symmetry; apply Z.eqb_neq; congruence).
  now rewrite IH.
Qed.

Lemma split_on_pieces sep s : Forall (λ l, sep ∉ l) (split_on sep s).
Proof.
  induction s as [|c s IH]; simpl.
  - constructor; [apply not_elem_of_nil|constructor].
  - destruct (c =? sep) eqn:Hc.
    + constructor; [apply not_elem_of_nil|exact IH].
    + apply Z.eqb_neq in Hc.
      destruct (split_on sep s) as [|l ls]; simpl.
      * constructor; [|constructor].
        intros H. apply list_elem_of_singleton in H. congruence.
      * apply Forall_cons in IH as [Hl Hls]. constructor; [|exact Hls].
        intros H. apply elem_of_cons in H as [H|H]; [congruence|done].
Qed.

Lemma upload_filename_last filePath :
  upload_filename filePath
  = match last (split_on 0x2F filePath) with
    | Some (c :: name) => c :: name
    | _ => js "document.pdf"
    end.
Proof. reflexivity. Qed.

(** X20.  The name under which [submitDocument] sends a file is never
    empty and never holds a slash. *)
Theorem upload_filename_plain (filePath : list Z) :
  upload_filename filePath ≠ [] ∧ 0x2F ∉ upload_filename filePath.
Proof.
  rewrite upload_filename_last.
  destruct (last (split_on 0x2F filePath)) as [[|c name]|] eqn:Hl.
  - split; [discriminate|]. intros H.
    repeat (apply elem_of_cons in H as [H|H]; [discriminate H|]).
    inversion H.
  - split; [discriminate|].
    pose proof (split_on_pieces 0x2F filePath) as Hp.
    rewrite Forall_forall in Hp. apply Hp.
    apply last_Some in Hl as [l' ->]. apply elem_of_app. right. now left.
  - split; [discriminate|]. intros H.
    repeat (apply elem_of_cons in H as [H|H]; [discriminate H|]).
    inversion H.
Qed.

(** X21.  That name is what follows the last slash of the path, or the
    whole path when it has no slash; a path that is empty or ends with a
    slash gives [document.pdf]. *)
Theorem upload_filename_is_last_segment (dir name : list Z) :
  (name ≠ [] → 0x2F ∉ name →
   upload_filename (dir ++ 0x2F :: name) = name
   ∧ upload_filename name = name)
  ∧ upload_filename (dir ++ [0x2F]) = js "document.pdf"
  ∧ upload_filename [] = js "document.pdf".
Proof.
  split; [|split; [|reflexivity]].
  - intros Hne Hs. rewrite !upload_filename_last.
    rewrite split_on_sep, (split_on_free _ name Hs), last_snoc.
    simpl. now destruct name.
  - rewrite upload_filename_last, split_on_sep. simpl.
    now rewrite last_snoc.
Qed.

Lemma upload_filename_is_last_segment_witness :
  upload_filename (js "/tmp/docs" ++ 0x2F :: js "report.pdf") = js "report.pdf"
  ∧ upload_filename (js "report.pdf") = js "report.pdf".
Proof.
  destruct (upload_filename_is_last_segment (js "/tmp/docs") (js "report.pdf"))
    as [H _].
  apply H.
  - discriminate.
  - intros Hs. repeat (apply elem_of_cons in Hs as [Hs|Hs]; [discriminate Hs|]).
    inversion Hs.
Defined.

(** ** callLLM *)

Lemma trimStart_split s :
  ∃ ws, s = ws ++ trimStart s ∧ Forall (λ c, is_trim_space c = true) ws.
Proof.
  induction s as [|c s (ws & Hs & Hws)]; [now exists []|].
  simpl. destruct (is_trim_space c) eqn:Hc.
  - exists (c :: ws). split; [simpl; now f_equal|now constructor].
  - now exists [].
Qed.

Lemma trimStart_head s c r :
  trimStart s = c :: r → is_trim_space c = false.
Proof.
  induction s as [|x s IH]; [discriminate|]. simpl.
  destruct (is_trim_space x) eqn:Hx; [exact IH|].
  now intros [= <- _].
Qed.

Lemma trimStart_fixed s :
  match s with c :: _ => is_trim_space c = false | [] => True end →
  trimStart s = s.
Proof. destruct s as [|c s]; [done|]. simpl. now intros ->. Qed.

Lemma trimStart_idemp s : trimStart (trimStart s) = trimStart s.
Proof.
  apply trimStart_fixed. destruct (trimStart s) as [|c r] eqn:H; [done|].
  eapply trimStart_head, H.
Qed.

Lemma trimStart_spaces ws :
  Forall (λ c, is_trim_space c = true) ws → trimStart ws = [].
Proof. induction 1 as [|c ws Hc _ IH]; [done|]. simpl. now rewrite Hc. Qed.

(** What [trim] returns neither starts nor ends with white space. *)
Lemma trim_trimmed s :
  trimStart (trim s) = trim s ∧ trimStart (rev (trim s)) = rev (trim s).
Proof.
  unfold trim. set (t := trimStart s). set (u := trimStart (rev t)).
  split.
  - apply trimStart_fixed.
    destruct (rev u) as [|c r] eqn:Hr; [done|].
    destruct (trimStart_split (rev t)) as (ws & Ht & _). fold u in Ht.
    apply (f_equal (@rev Z)) in Ht.
    rewrite rev_involutive, rev_app_distr, Hr in Ht.
    apply (trimStart_head s c (r ++ rev ws)). exact Ht.
  - rewrite rev_involutive. apply trimStart_idemp.
Qed.

Lemma trim_spaces ws :
  Forall (λ c, is_trim_space c = true) ws → trim ws = [].
Proof. intros H. unfold trim. now rewrite (trimStart_spaces ws H). Qed.

Lemma callLLM_result_text response s :
  callLLM_result response = LLMText s →
  ∃ raw, message_content response = Some (JString raw)
         ∧ raw ≠ [] ∧ s = trim raw.
Proof.
  unfold callLLM_result.
  destruct (message_content response) as [content|]; [|discriminate].
  destruct (negb (ToBoolean content)) eqn:Ht; [discriminate|].
  destruct content as [| | | |raw| |]; try discriminate.
  intros [= <-]. exists raw. repeat split. now destruct raw.
Qed.

(** X22.  When [callLLM] resolves, its text is the trimmed form of a
    non-empty string content: it neither starts nor ends with white space. *)
Theorem callLLM_text_is_trimmed (response : JValue) (s : list Z) :
  callLLM_result response = LLMText s →
  trimStart s = s ∧ trimStart (rev s) = rev s
  ∧ ∃ raw, message_content response = Some (JString raw)
           ∧ raw ≠ [] ∧ s = trim raw.
Proof.
  intros H. apply callLLM_result_text in H as (raw & Hc & Hne & ->).
  destruct (trim_trimmed raw) as [H1 H2].
  repeat split; try done. now exists raw.
Qed.

Lemma callLLM_text_is_trimmed_witness :
  trimStart (js "fine") = js "fine"
  ∧ trimStart (rev (js "fine")) = rev (js "fine")
  ∧ ∃ raw, message_content (completion_with (JString (js "  fine ")))
           = Some (JString raw)
           ∧ raw ≠ [] ∧ js "fine" = trim raw.
Proof.
  apply (callLLM_text_is_trimmed (completion_with (JString (js "  fine ")))).
  reflexivity.
Defined.

(** X23.  The content is tested before it is trimmed: a content made of
    white space only is not rejected as empty, and [callLLM] resolves with
    the empty string. *)
Theorem callLLM_blank_content (response : JValue) (ws : list Z) :
  message_content response = Some (JString ws) →
  ws ≠ [] → Forall (λ c, is_trim_space c = true) ws →
  callLLM_result response = LLMText [].
Proof.
  intros Hc Hne Hws. unfold callLLM_result. rewrite Hc.
  destruct ws as [|c ws]; [done|]. simpl negb. cbv iota.
  now rewrite trim_spaces.
Qed.

Lemma callLLM_blank_content_witness :
  callLLM_result (completion_with (JString (js "  "))) = LLMText [].
Proof.
  apply (callLLM_blank_content (completion_with (JString (js "  "))) (js "  ")).
  - reflexivity.
  - discriminate.
  - repeat (apply Forall_cons; split; [reflexivity|]). apply Forall_nil_2.
Defined.
